(** * voicekit: the Live Session Orchestrator

    A shallow embedding of the orchestration logic of the voicekit client
    (the [useLiveApi] hook and the zustand stores of [lib/state.ts]) and the
    properties of its Turn Ledger, Tool Dispatcher, Confirmation Gate,
    Background Task Tracker, keep-alive driver and status poller.

    Stores are modelled as explicit state, event handlers as functions from
    state to state, and everything the environment decides (the payload an
    executor gets back from the network, the clock, the order in which
    asynchronous continuations run) is carried by the event that is handled.
    Part I holds the definitions, Part II the theorems. *)

From Stdlib Require Import Ascii String ZArith QArith Lia Sorted.
From stdpp Require Import base option list strings pretty.

Local Open Scope string_scope.
Local Open Scope nat_scope.
Local Open Scope list_scope.

(** * Part I. Definitions *)

(** ** Wire types of the backend SDK *)

(** A function call of a [LiveServerToolCall].  [args] is the argument
    object; only its JSON text is ever used by the code modelled here. *)
Module FunctionCall.
Record t := mk { id : string; name : string; args : string }.
End FunctionCall.

(** An entry of the aggregate tool response,
    [{ id, name, response: { result } }]. *)
Module FunctionResponse.
Record t := mk { id : string; name : string; result : string }.
End FunctionResponse.

#[global] Instance FunctionCall_eq_dec : EqDecision FunctionCall.t.
Proof. solve_decision. Defined.

#[global] Instance FunctionResponse_eq_dec : EqDecision FunctionResponse.t.
Proof. solve_decision. Defined.

(** The line feed used inside template literals. *)
Definition nl : string := String "010"%char EmptyString.

(** ** Turn Ledger ([useLogStore] and the transcript handlers) *)

Module Ledger.

Inductive Role := user | agent | system.

#[global] Instance Role_eq_dec : EqDecision Role.
Proof. solve_decision. Defined.

Record GroundingChunk := { uri : string; title : string }.

Record Attachment := { name : string; type : string; dataUrl : string }.

(** [timestamp] is the [Date] taken when the turn is added, as a number. *)
Record ConversationTurn := mkTurn {
  timestamp : nat;
  role : Role;
  text : string;
  isFinal : bool;
  toolUseRequest : option (list FunctionCall.t);
  groundingChunks : option (list GroundingChunk);
  attachments : option (list Attachment);
  isPromo : bool
}.

(** [Partial<ConversationTurn>] restricted to the fields some caller sets. *)
Record TurnUpdate := {
  setText : option string;
  setIsFinal : option bool;
  setGroundingChunks : option (list GroundingChunk)
}.

(** [{ ...lastTurn, ...update }] *)
Definition spread (t : ConversationTurn) (u : TurnUpdate) : ConversationTurn :=
  {| timestamp := timestamp t;
     role := role t;
     text := default (text t) (setText u);
     isFinal := default (isFinal t) (setIsFinal u);
     toolUseRequest := toolUseRequest t;
     groundingChunks :=
       match setGroundingChunks u with
       | Some g => Some g
       | None => groundingChunks t
       end;
     attachments := attachments t;
     isPromo := isPromo t |}.

(** [addTurn]: the caller supplies the turn without its timestamp. *)
Definition addTurn (now : nat) (turn : nat -> ConversationTurn)
    (turns : list ConversationTurn) : list ConversationTurn :=
  turns ++ [turn now].

(** [updateLastTurn]: nothing on an empty ledger, otherwise the last slot is
    overwritten with the merged turn. *)
Definition updateLastTurn (update : TurnUpdate)
    (turns : list ConversationTurn) : list ConversationTurn :=
  if length turns =? 0 then turns
  else
    match turns !! (length turns - 1) with
    | Some lastTurn => <[length turns - 1 := spread lastTurn update]> turns
    | None => turns
    end.

Definition clearTurns (turns : list ConversationTurn) : list ConversationTurn := [].

(** [turns[turns.length - 1]], which is [undefined] on an empty array. *)
Definition lastOf (turns : list ConversationTurn) : option ConversationTurn :=
  if length turns =? 0 then None else turns !! (length turns - 1).

Definition isOpen (t : ConversationTurn) : bool := negb (isFinal t).

(** The test [last && last.role === r && !last.isFinal] of the handlers. *)
Definition continues (r : Role) (last : option ConversationTurn) : bool :=
  match last with
  | Some l => bool_decide (role l = r) && negb (isFinal l)
  | None => false
  end.

Definition transcriptTurn (r : Role) (txt : string) (final : bool)
    (ts : nat) : ConversationTurn :=
  mkTurn ts r txt final None None None false.

Definition handleTranscription (r : Role) (now : nat) (txt : string)
    (final : bool) (turns : list ConversationTurn) : list ConversationTurn :=
  match lastOf turns with
  | Some last =>
      if continues r (Some last) then
        updateLastTurn
          {| setText := Some (text last +:+ txt);
             setIsFinal := Some final;
             setGroundingChunks := None |} turns
      else addTurn now (transcriptTurn r txt final) turns
  | None => addTurn now (transcriptTurn r txt final) turns
  end.

(** The two transcript handlers have the same body up to the role. *)
Definition handleInputTranscription := handleTranscription user.
Definition handleOutputTranscription := handleTranscription agent.

(** A [LiveServerContent]: the parts of the model turn (each with an
    optional text) and the raw grounding chunks (each with an optional
    [web] record whose fields are optional too). *)
Record RawWeb := { rawUri : option string; rawTitle : option string }.

Record LiveServerContent := {
  parts : option (list (option string));
  rawGroundingChunks : option (list (option RawWeb))
}.

(** JavaScript truthiness of an optional string. *)
Definition truthy (s : option string) : bool :=
  match s with
  | Some s => negb (bool_decide (s = ""))
  | None => false
  end.

(** [xs.join(' ')] *)
Fixpoint join (xs : list string) : string :=
  match xs with
  | [] => ""
  | [x] => x
  | x :: rest => x +:+ " " +:+ join rest
  end.

(** [parts?.map(p => p.text).filter(Boolean).join(' ') ?? ''] *)
Definition contentText (c : LiveServerContent) : string :=
  match parts c with
  | Some ps => join (omap (fun p => if truthy p then p else None) ps)
  | None => ""
  end.

(** [.filter(chunk => chunk.web?.uri).map(...)], the title falling back to
    the uri. *)
Definition cleanChunk (c : option RawWeb) : option GroundingChunk :=
  match c with
  | Some w =>
      match rawUri w with
      | Some u =>
          if truthy (Some u) then
            Some {| uri := u;
                    title := if truthy (rawTitle w)
                             then default u (rawTitle w) else u |}
          else None
      | None => None
      end
  | None => None
  end.

Definition contentChunks (c : LiveServerContent) : option (list GroundingChunk) :=
  match rawGroundingChunks c with
  | Some raw => Some (omap cleanChunk raw)
  | None => None
  end.

Definition noChunks (g : option (list GroundingChunk)) : bool :=
  match g with
  | Some l => length l =? 0
  | None => true
  end.

Definition handleContent (now : nat) (serverContent : LiveServerContent)
    (turns : list ConversationTurn) : list ConversationTurn :=
  let txt := contentText serverContent in
  let chunks := contentChunks serverContent in
  if bool_decide (txt = "") && noChunks chunks then turns
  else
    match lastOf turns with
    | Some last =>
        if continues agent (Some last) then
          updateLastTurn
            {| setText := Some (text last +:+ txt);
               setIsFinal := None;
               setGroundingChunks :=
                 if noChunks chunks then None
                 else Some (default [] (groundingChunks last)
                              ++ default [] chunks) |} turns
        else addTurn now (fun ts => mkTurn ts agent txt false None chunks None false) turns
    | None => addTurn now (fun ts => mkTurn ts agent txt false None chunks None false) turns
    end.

(** The ledger part of [handleTurnComplete]; saving the conversation and the
    timers it starts do not write to the ledger synchronously. *)
Definition handleTurnComplete (turns : list ConversationTurn) : list ConversationTurn :=
  match lastOf turns with
  | Some last =>
      if negb (isFinal last) then
        updateLastTurn
          {| setText := None; setIsFinal := Some true;
             setGroundingChunks := None |} turns
      else turns
  | None => turns
  end.

(** Events that write to the ledger.  [FinalTurn] stands for the other
    callers of [addTurn] (typed user messages, tool-call log entries, memory
    and promotional notices, generated documents and images): all of them
    add a turn that is already final. *)
Inductive Event :=
| InputTranscription (now : nat) (txt : string) (final : bool)
| OutputTranscription (now : nat) (txt : string) (final : bool)
| Content (now : nat) (serverContent : LiveServerContent)
| TurnComplete
| FinalTurn (now : nat) (r : Role) (txt : string).

Definition step (turns : list ConversationTurn) (e : Event) : list ConversationTurn :=
  match e with
  | InputTranscription now txt final => handleInputTranscription now txt final turns
  | OutputTranscription now txt final => handleOutputTranscription now txt final turns
  | Content now c => handleContent now c turns
  | TurnComplete => handleTurnComplete turns
  | FinalTurn now r txt => addTurn now (transcriptTurn r txt true) turns
  end.

Definition run (events : list Event) (turns : list ConversationTurn) : list ConversationTurn :=
  fold_left step events turns.

(** The turns still streaming in, and the text of the whole ledger. *)
Definition openTurns (turns : list ConversationTurn) : list ConversationTurn :=
  filter (fun t => isFinal t = false) turns.

Definition ledgerText (turns : list ConversationTurn) : string :=
  foldr (fun t acc => text t +:+ acc) "" turns.

(** The open turns of one role. *)
Definition openTurnsOf (r : Role) (turns : list ConversationTurn) : list ConversationTurn :=
  filter (fun t => role t = r /\ isFinal t = false) turns.

(** A stream of transcript deltas of one role, each with its arrival time. *)
Record Delta := { deltaTime : nat; deltaText : string; deltaFinal : bool }.

Definition applyDeltas (r : Role) (deltas : list Delta)
    (turns : list ConversationTurn) : list ConversationTurn :=
  fold_left
    (fun acc d => handleTranscription r (deltaTime d) (deltaText d) (deltaFinal d) acc)
    deltas turns.

Definition concatText (deltas : list Delta) : string :=
  foldr (fun d acc => deltaText d +:+ acc) "" deltas.

End Ledger.

(** ** Background Task Tracker ([useTaskStore]) *)

Module BackgroundTask.

Inductive Status := running | completed | failed.

Inductive ResultType := download | view.

Record Result := { type : ResultType; payload : string }.

(** [progress] is a JavaScript number; it is kept exact, as a rational. *)
Record t := mk {
  id : string;
  name : string;
  status : Status;
  progress : Q;
  message : string;
  result : option Result;
  timestamp : nat
}.

(** [Partial<Omit<BackgroundTask, 'id' | 'timestamp'>>] restricted to the
    fields some caller sets. *)
Record Updates := {
  setStatus : option Status;
  setProgress : option Q;
  setMessage : option string;
  setResult : option Result
}.

End BackgroundTask.

#[global] Instance Status_eq_dec : EqDecision BackgroundTask.Status.
Proof. solve_decision. Defined.

Module Tasks.

Import BackgroundTask.

(** [{ ...t, ...updates }] *)
Definition spread (t : BackgroundTask.t) (u : Updates) : BackgroundTask.t :=
  {| id := id t;
     name := name t;
     status := default (status t) (setStatus u);
     progress := default (progress t) (setProgress u);
     message := default (message t) (setMessage u);
     result := match setResult u with Some r => Some r | None => result t end;
     timestamp := timestamp t |}.

(** [addTask]: [newId] is the string built from [Date.now()] and
    [Math.random()], [now] the [Date]; the new task goes on top. *)
Definition addTask (newId : string) (now : nat)
    (task : string -> nat -> BackgroundTask.t)
    (tasks : list BackgroundTask.t) : list BackgroundTask.t :=
  task newId now :: tasks.

Definition updateTask (i : string) (updates : Updates)
    (tasks : list BackgroundTask.t) : list BackgroundTask.t :=
  map (fun t => if bool_decide (id t = i) then spread t updates else t) tasks.

Definition removeTask (i : string) (tasks : list BackgroundTask.t) : list BackgroundTask.t :=
  filter (fun t => id t <> i) tasks.

Definition clearCompletedTasks (tasks : list BackgroundTask.t) : list BackgroundTask.t :=
  filter (fun t => status t = running) tasks.

(** *** The store writes of [executeVideoGenerationTool] *)

(** What the video service answers: nothing usable (the call throws, with
    the message of the error) or an operation, done or not, with the uri of
    the first generated video when there is one. *)
Record Operation := { done : bool; videoUri : option string }.

Inductive Reply := Thrown (msg : string) | Returned (op : Operation).

Definition videoTask (newId : string) (now : nat) : BackgroundTask.t :=
  mk newId "generate_video" running (inject_Z 5) "Starting video generation..." None now.

Definition progressUpdate (p : Q) (msg : string) : Updates :=
  {| setStatus := None; setProgress := Some p; setMessage := Some msg; setResult := None |}.

Definition failedUpdate (msg : string) : Updates :=
  {| setStatus := Some failed; setProgress := None; setMessage := Some msg; setResult := None |}.

Definition completedUpdate (msg : string) (r : Result) : Updates :=
  {| setStatus := Some completed; setProgress := Some (inject_Z 100);
     setMessage := Some msg; setResult := Some r |}.

(** The end of the coroutine once the operation is done: [apiKey] is
    appended to the download link; no link is an error, caught like the
    others. *)
Definition videoFinish (apiKey : string) (op : Operation) : Updates :=
  match videoUri op with
  | Some link =>
      if negb (bool_decide (link = "")) then
        completedUpdate "Video is ready!"
          {| type := download; payload := link +:+ "&key=" +:+ apiKey |}
      else failedUpdate
             "Failed to generate video: Video generation finished but no video URL was returned."
  | None =>
      failedUpdate
        "Failed to generate video: Video generation finished but no video URL was returned."
  end.

(** The [while (!operation.done)] loop, driven by the replies of the status
    requests; [progress] is the local variable of the loop.  When the
    replies run out the coroutine is still waiting and has written nothing
    more. *)
Fixpoint videoPolling (apiKey : string) (progress : Z) (op : Operation)
    (polls : list Reply) : list Updates :=
  if done op then [videoFinish apiKey op]
  else
    match polls with
    | [] => []
    | Thrown msg :: _ => [failedUpdate ("Failed to generate video: " +:+ msg)]
    | Returned op' :: rest =>
        let progress' := Z.min (progress + 15) 90 in
        progressUpdate (inject_Z progress') "Processing video..."
          :: videoPolling apiKey progress' op' rest
    end.

Definition videoUpdates (apiKey : string) (start : Reply) (polls : list Reply) : list Updates :=
  match start with
  | Thrown msg => [failedUpdate ("Failed to generate video: " +:+ msg)]
  | Returned op => videoPolling apiKey 10 op polls
  end.

(** *** The store writes of [executePresentationGenerationTool] *)

Definition presentationTask (newId : string) (now : nat) : BackgroundTask.t :=
  mk newId "create_business_presentation" running (inject_Z 0)
     "Generating presentation outline..." None now.

(** [10 + (currentAssetStep / totalAssetSteps) * 80] *)
Definition assetProgress (currentAssetStep totalAssetSteps : nat) : Q :=
  (inject_Z 10 +
   (inject_Z (Z.of_nat currentAssetStep) / inject_Z (Z.of_nat totalAssetSteps))
   * inject_Z 80)%Q.

(** The two writes made for one slide (its image, then its narration);
    [step] is [currentAssetStep] before the slide. *)
Definition slideUpdates (total step : nat) (title : string) : list Updates :=
  [ progressUpdate (assetProgress (step + 1) total) ("Generated image for: " +:+ title);
    progressUpdate (assetProgress (step + 2) total) ("Generated narration for: " +:+ title) ].

Fixpoint slidesUpdates (total step : nat) (titles : list string) : list Updates :=
  match titles with
  | [] => []
  | title :: rest => slideUpdates total step title ++ slidesUpdates total (step + 2) rest
  end.

(** All the writes of a run in which nothing throws, for the slides with
    the given titles. *)
Definition presentationScript (view : Result) (titles : list string) : list Updates :=
  progressUpdate (inject_Z 10) "Generating assets..."
    :: slidesUpdates (length titles * 2) 0 titles
    ++ [ progressUpdate (inject_Z 95) "Assembling presentation...";
         completedUpdate "Presentation is ready!" view ].

(** A run makes the first [reached] writes of the script; when something
    throws, at whatever point, the handler then writes the failure. *)
Definition presentationUpdates (view : Result) (titles : list string)
    (reached : nat) (thrown : option string) : list Updates :=
  take reached (presentationScript view titles)
  ++ match thrown with
     | Some msg => [failedUpdate ("Failed to create presentation: " +:+ msg)]
     | None => []
     end.

(** *** Observing one task *)

(** The successive stores while a list of writes is applied to task [i]. *)
Fixpoint history (i : string) (updates : list Updates)
    (tasks : list BackgroundTask.t) : list (list BackgroundTask.t) :=
  match updates with
  | [] => []
  | u :: rest => updateTask i u tasks :: history i rest (updateTask i u tasks)
  end.

Definition taskOf (i : string) (tasks : list BackgroundTask.t) : option BackgroundTask.t :=
  List.find (fun t => bool_decide (id t = i)) tasks.

(** The progress of task [i] in the store it was created in and after
    each write. *)
Definition progressTrace (i : string) (updates : list Updates)
    (tasks : list BackgroundTask.t) : list Q :=
  omap (fun store => progress <$> taskOf i store) (tasks :: history i updates tasks).

End Tasks.

(** ** Tool Dispatcher and Confirmation Gate ([onToolCall], [useUI]) *)

Module Dispatcher.

Definition SENSITIVE_TOOLS : list string :=
  [ "place_call"; "send_gmail_message"; "send_whatsapp_message";
    "send_telegram_message"; "send_messenger_message";
    "post_to_facebook_page"; "post_on_linkedin" ].

Definition NATIVE_GEMINI_TOOLS : list string :=
  [ "create_presentation_outline"; "summarize_text"; "translate_text";
    "draft_social_media_post"; "analyze_sentiment"; "extract_keywords";
    "generate_quiz"; "write_code_snippet"; "explain_code_snippet" ].

Definition ADMIN_ONLY_TOOLS : list string := [ "write_code_snippet"; "generate_video" ].

Definition IMAGE_TOOLS : list string := [ "generate_image"; "edit_image" ].

Definition adminEmail : string := "masterdee@aiteksoftware.site".

(** [xs.includes(x)] *)
Definition includes (xs : list string) (x : string) : bool := bool_decide (x ∈ xs).

(** The authenticated user, as far as the dispatcher reads it. *)
Record User := { userId : string; email : option string }.

(** The guard of the first branch of the loop:
    [user?.email && ADMIN_ONLY_TOOLS.includes(fc.name) && user.email !== admin]. *)
Definition restricted (user : option User) (fc : FunctionCall.t) : bool :=
  match user with
  | Some u =>
      match email u with
      | Some e =>
          negb (bool_decide (e = ""))
          && includes ADMIN_ONLY_TOOLS (FunctionCall.name fc)
          && negb (bool_decide (e = adminEmail))
      | None => false
      end
  | None => false
  end.

(** The branch [executeTool] takes, in the order of its tests. *)
Inductive Strategy :=
| SendGmail | SendWhatsApp | CalendarEvent | ImageGeneration | ImageEditing
| VideoGeneration | PresentationGeneration | DocumentGeneration
| NativeGemini | Webhook.

Definition strategyOf (name : string) : Strategy :=
  if bool_decide (name = "send_gmail_message") then SendGmail
  else if bool_decide (name = "send_whatsapp_message") then SendWhatsApp
  else if bool_decide (name = "create_calendar_event") then CalendarEvent
  else if includes IMAGE_TOOLS name then
    (if bool_decide (name = "generate_image") then ImageGeneration else ImageEditing)
  else if bool_decide (name = "generate_video") then VideoGeneration
  else if bool_decide (name = "create_business_presentation") then PresentationGeneration
  else if bool_decide (name = "create_document") then DocumentGeneration
  else if includes NATIVE_GEMINI_TOOLS name then NativeGemini
  else Webhook.

(** A tool definition of the [useTools] store, as far as it is read here. *)
Record Tool := { toolName : string; toolIcon : option string }.

(** The two continuations of a confirmation request are closures; a request
    made by [onToolCall] captures the invocation (its [functionResponses]
    array) and the call, one made elsewhere in the application does not
    concern the dispatcher. *)
Inductive Continuation :=
| ToolCallK (invocation : nat) (fc : FunctionCall.t)
| OtherK.

Record ConfirmationRequest := {
  icon : option string;
  title : string;
  prompt : string;
  details : string;
  confirmText : string;
  continuation : Continuation
}.

(** The state one call of [onToolCall] closes over: the batch, the user of
    the hook, the [functionResponses] array, and the executions of the batch
    that are suspended at an [await]. *)
Record Invocation := {
  toolCall : list FunctionCall.t;
  caller : option User;
  functionResponses : list FunctionResponse.t;
  executing : list FunctionCall.t
}.

(** [confirmation] is the slot of the [useUI] store, [turns] the ledger,
    [toolResponses] the calls of [client.sendToolResponse] with the
    invocation that made each, [executions] the calls of [executeTool]. *)
Record State := {
  invocations : list Invocation;
  confirmation : option ConfirmationRequest;
  tools : list Tool;
  turns : list Ledger.ConversationTurn;
  toolResponses : list (nat * list FunctionResponse.t);
  executions : list (nat * FunctionCall.t)
}.

Definition init (allTools : list Tool) : State :=
  {| invocations := []; confirmation := None; tools := allTools; turns := [];
     toolResponses := []; executions := [] |}.

Definition setInvocations (f : list Invocation -> list Invocation) (s : State) : State :=
  {| invocations := f (invocations s); confirmation := confirmation s; tools := tools s;
     turns := turns s; toolResponses := toolResponses s; executions := executions s |}.

(** [requestConfirmation: (config) => set({ confirmation: config })] *)
Definition requestConfirmation (config : ConfirmationRequest) (s : State) : State :=
  {| invocations := invocations s; confirmation := Some config; tools := tools s;
     turns := turns s; toolResponses := toolResponses s; executions := executions s |}.

(** [clearConfirmation: () => set({ confirmation: null })] *)
Definition clearConfirmation (s : State) : State :=
  {| invocations := invocations s; confirmation := None; tools := tools s;
     turns := turns s; toolResponses := toolResponses s; executions := executions s |}.

Definition logTurn (now : nat) (turn : nat -> Ledger.ConversationTurn) (s : State) : State :=
  {| invocations := invocations s; confirmation := confirmation s; tools := tools s;
     turns := Ledger.addTurn now turn (turns s);
     toolResponses := toolResponses s; executions := executions s |}.

Definition answered (r : FunctionResponse.t) (inv : Invocation) : Invocation :=
  {| toolCall := toolCall inv; caller := caller inv;
     functionResponses := functionResponses inv ++ [r];
     executing := executing inv |}.

Definition suspended (fc : FunctionCall.t) (inv : Invocation) : Invocation :=
  {| toolCall := toolCall inv; caller := caller inv;
     functionResponses := functionResponses inv;
     executing := executing inv ++ [fc] |}.

Definition resumed (k : nat) (inv : Invocation) : Invocation :=
  {| toolCall := toolCall inv; caller := caller inv;
     functionResponses := functionResponses inv;
     executing := delete k (executing inv) |}.

(** [functionResponses.push(r)] in invocation [b] *)
Definition push (b : nat) (r : FunctionResponse.t) (s : State) : State :=
  setInvocations (alter (answered r) b) s.

(** [if (functionResponses.length === toolCall.functionCalls.length)
       client.sendToolResponse({ functionResponses })] *)
Definition sendIfComplete (b : nat) (s : State) : State :=
  match invocations s !! b with
  | Some inv =>
      if length (functionResponses inv) =? length (toolCall inv) then
        {| invocations := invocations s; confirmation := confirmation s;
           tools := tools s; turns := turns s;
           toolResponses := toolResponses s ++ [(b, functionResponses inv)];
           executions := executions s |}
      else s
  | None => s
  end.

(** An execution of invocation [b] stops at its [await], and the [k]-th
    suspended execution leaves the [await]. *)
Definition suspend (b : nat) (fc : FunctionCall.t) (s : State) : State :=
  setInvocations (alter (suspended fc) b) s.

Definition resume (b k : nat) (s : State) : State :=
  setInvocations (alter (resumed k) b) s.

Definition restrictedResponse (fc : FunctionCall.t) : FunctionResponse.t :=
  FunctionResponse.mk (FunctionCall.id fc) (FunctionCall.name fc)
    ("I'm sorry, the tool '" +:+ FunctionCall.name fc
       +:+ "' is currently restricted to administrators.").

Definition nativeResponse (fc : FunctionCall.t) : FunctionResponse.t :=
  FunctionResponse.mk (FunctionCall.id fc) (FunctionCall.name fc)
    ("The request for '" +:+ FunctionCall.name fc
       +:+ "' will be handled directly in my response.").

Definition cancelledResponse (fc : FunctionCall.t) : FunctionResponse.t :=
  FunctionResponse.mk (FunctionCall.id fc) (FunctionCall.name fc)
    "The user cancelled the action.".

(** What every executor returns, on each of its paths:
    [{ id: fc.id, name: fc.name, response: { result } }].  The [result] is
    decided by the network and the services; what an executor does besides
    returning (toasts, ledger turns for generated media, background tasks,
    token accounting) is outside this state. *)
Definition executorResponse (fc : FunctionCall.t) (result : string) : FunctionResponse.t :=
  FunctionResponse.mk (FunctionCall.id fc) (FunctionCall.name fc) result.

(** [executeTool], up to its first [await]: the native-tool branch has none
    and pushes its response at once; every other branch awaits its executor
    and is resumed by [Resolve] or [Throw] below. *)
Definition logExecution (b : nat) (fc : FunctionCall.t) (s : State) : State :=
  {| invocations := invocations s; confirmation := confirmation s; tools := tools s;
     turns := turns s; toolResponses := toolResponses s;
     executions := executions s ++ [(b, fc)] |}.

Definition executeTool (b : nat) (fc : FunctionCall.t) (s : State) : State :=
  let s1 := logExecution b fc s in
  match strategyOf (FunctionCall.name fc) with
  | NativeGemini => sendIfComplete b (push b (nativeResponse fc) s1)
  | _ => suspend b fc s1
  end.

(** The [onCancel] continuation. *)
Definition cancelTool (b : nat) (fc : FunctionCall.t) (s : State) : State :=
  sendIfComplete b (push b (cancelledResponse fc) s).

Definition triggerMessage (fc : FunctionCall.t) : string :=
  "Triggering function call: **" +:+ FunctionCall.name fc +:+ "**" +:+ nl
    +:+ "```json" +:+ nl +:+ FunctionCall.args fc +:+ nl +:+ "```".

Definition confirmationFor (b : nat) (fc : FunctionCall.t) (allTools : list Tool)
  : ConfirmationRequest :=
  {| icon := List.find (fun t => bool_decide (toolName t = FunctionCall.name fc)) allTools
             ≫= toolIcon;
     title := "Confirm Action";
     prompt := "Please confirm you want to execute the action: " +:+ FunctionCall.name fc;
     details := FunctionCall.args fc;
     confirmText := "Confirm";
     continuation := ToolCallK b fc |}.

(** The body of the [for] loop of [onToolCall] for one call of batch [b]. *)
Definition processCall (now b : nat) (user : option User)
    (s : State) (fc : FunctionCall.t) : State :=
  if restricted user fc then push b (restrictedResponse fc) s
  else
    let s1 :=
      logTurn now
        (fun ts => Ledger.mkTurn ts Ledger.system (triggerMessage fc) true
                     (Some [fc]) None None false) s in
    if includes SENSITIVE_TOOLS (FunctionCall.name fc) then
      requestConfirmation (confirmationFor b fc (tools s1)) s1
    else executeTool b fc s1.

Definition onToolCall (now : nat) (user : option User)
    (functionCalls : list FunctionCall.t) (s : State) : State :=
  let b := length (invocations s) in
  fold_left (processCall now b user) functionCalls
    (setInvocations
       (fun invs => invs ++ [ {| toolCall := functionCalls; caller := user;
                                functionResponses := []; executing := [] |} ]) s).

(** The events of the dispatcher: a tool-call batch arrives; the executor
    awaited by the [k]-th suspended execution of invocation [b] returns
    [result], or throws; the user presses Confirm or Cancel in the modal
    (which runs the continuation and then clears the slot); some other part
    of the application requests a confirmation of its own. *)
Inductive Event :=
| ToolCall (now : nat) (user : option User) (functionCalls : list FunctionCall.t)
| Resolve (b k : nat) (result : string)
| Throw (b k : nat)
| Confirm
| Cancel
| RequestOther (config : ConfirmationRequest).

Definition step (s : State) (e : Event) : State :=
  match e with
  | ToolCall now user fcs => onToolCall now user fcs s
  | Resolve b k result =>
      match invocations s !! b ≫= (fun inv => executing inv !! k) with
      | Some fc => sendIfComplete b (push b (executorResponse fc result) (resume b k s))
      | None => s
      end
  | Throw b k => resume b k s
  | Confirm =>
      match confirmation s with
      | Some c =>
          clearConfirmation
            match continuation c with
            | ToolCallK b fc => executeTool b fc s
            | OtherK => s
            end
      | None => s
      end
  | Cancel =>
      match confirmation s with
      | Some c =>
          clearConfirmation
            match continuation c with
            | ToolCallK b fc => cancelTool b fc s
            | OtherK => s
            end
      | None => s
      end
  | RequestOther config =>
      requestConfirmation
        {| icon := icon config; title := title config; prompt := prompt config;
           details := details config; confirmText := confirmText config;
           continuation := OtherK |} s
  end.

Definition run (events : list Event) (s : State) : State := fold_left step events s.

(** The aggregate responses sent by invocation [b]. *)
Definition sentBy (b : nat) (s : State) : list (list FunctionResponse.t) :=
  omap (fun p => if bool_decide (p.1 = b) then Some p.2 else None) (toolResponses s).

(** The call whose confirmation is pending, when it belongs to invocation
    [b], and the calls of invocation [b] that [executeTool] was run for. *)
Definition pendingOf (b : nat) (s : State) : option FunctionCall.t :=
  match confirmation s with
  | Some c =>
      match continuation c with
      | ToolCallK b' fc => if bool_decide (b' = b) then Some fc else None
      | OtherK => None
      end
  | None => None
  end.

Definition executedBy (b : nat) (s : State) : list FunctionCall.t :=
  omap (fun p => if bool_decide (p.1 = b) then Some p.2 else None) (executions s).

(** The calls of a batch that reach the Confirmation Gate. *)
Definition gated (user : option User) (fc : FunctionCall.t) : bool :=
  negb (restricted user fc) && includes SENSITIVE_TOOLS (FunctionCall.name fc).

Definition callKey (fc : FunctionCall.t) : string * string :=
  (FunctionCall.id fc, FunctionCall.name fc).

Definition responseKey (r : FunctionResponse.t) : string * string :=
  (FunctionResponse.id r, FunctionResponse.name r).

End Dispatcher.

(** ** Keep-alive driver ([startBackgroundTasks] / [stopBackgroundTasks]) *)

(** [client.status] *)
Module ClientStatus.
Inductive t := connected | disconnected | connecting.
End ClientStatus.

Module KeepAlive.

(** An element of the array given to [client.sendRealtimeInput]. *)
Record RealtimeInput := { mimeType : string; data : string }.

Definition alphabet : string :=
  "ABCDEFGHIJKLMNOPQRSTUVWXYZabcdefghijklmnopqrstuvwxyz0123456789+/".

Definition sextet (n : N) : ascii :=
  default "="%char (String.get (N.to_nat n) alphabet).

(** [window.btoa] of the binary string whose character codes are [bytes]. *)
Fixpoint btoa (bytes : list N) : string :=
  match bytes with
  | a :: b :: c :: rest =>
      let n := (a * 65536 + b * 256 + c)%N in
      String (sextet (n / 262144))
        (String (sextet ((n / 4096) mod 64))
           (String (sextet ((n / 64) mod 64))
              (String (sextet (n mod 64)) (btoa rest))))
  | [a; b] =>
      let n := (a * 65536 + b * 256)%N in
      String (sextet (n / 262144))
        (String (sextet ((n / 4096) mod 64))
           (String (sextet ((n / 64) mod 64)) "="))
  | [a] =>
      let n := (a * 65536)%N in
      String (sextet (n / 262144)) (String (sextet ((n / 4096) mod 64)) "==")
  | [] => ""
  end.

(** [new Uint8Array(320)] *)
Definition silentChunk : list N := replicate 320 0%N.

Definition base64SilentChunk : string := btoa silentChunk.

Definition silentInput : RealtimeInput :=
  {| mimeType := "audio/pcm;rate=16000"; data := base64SilentChunk |}.

(** [status] is the status of the client, [connected] the state of the
    hook, [keepAliveIntervalRef] the interval that is registered, [timers]
    the next identifier [window.setInterval] hands out, and
    [realtimeInputs] the calls of [client.sendRealtimeInput] so far. *)
Record State := {
  status : ClientStatus.t;
  connected : bool;
  keepAliveIntervalRef : option nat;
  timers : nat;
  realtimeInputs : list (list RealtimeInput)
}.

Definition init : State :=
  {| status := ClientStatus.disconnected; connected := false;
     keepAliveIntervalRef := None; timers := 1; realtimeInputs := [] |}.

Definition sendRealtimeInput (inputs : list RealtimeInput) (s : State) : State :=
  {| status := status s; connected := connected s;
     keepAliveIntervalRef := keepAliveIntervalRef s; timers := timers s;
     realtimeInputs := realtimeInputs s ++ [inputs] |}.

(** The callback of the keep-alive interval. *)
Definition keepAlive (s : State) : State :=
  match status s with
  | ClientStatus.connected => sendRealtimeInput [silentInput] s
  | _ => s
  end.

(** The keep-alive part of [startBackgroundTasks]: an interval still
    registered is cleared, a new one is registered. *)
Definition startBackgroundTasks (s : State) : State :=
  {| status := status s; connected := connected s;
     keepAliveIntervalRef := Some (timers s); timers := S (timers s);
     realtimeInputs := realtimeInputs s |}.

Definition stopBackgroundTasks (s : State) : State :=
  {| status := status s; connected := connected s;
     keepAliveIntervalRef := None; timers := timers s;
     realtimeInputs := realtimeInputs s |}.

(** [setConnected(c)]: when the value changes, the effect that depends on
    [connected] is cleaned up ([stopBackgroundTasks]) and run again. *)
Definition setConnected (c : bool) (s : State) : State :=
  if bool_decide (connected s = c) then s
  else
    let s1 :=
      stopBackgroundTasks
        {| status := status s; connected := c;
           keepAliveIntervalRef := keepAliveIntervalRef s; timers := timers s;
           realtimeInputs := realtimeInputs s |} in
    if c then startBackgroundTasks s1 else stopBackgroundTasks s1.

(** The client changes its status; the hook learns that the session opened
    or closed, or is disconnected by the user; the interval elapses (only a
    registered interval fires); something else is sent on the transport
    (microphone audio, video frames). *)
Inductive Event :=
| StatusChange (st : ClientStatus.t)
| SetConnected (c : bool)
| Tick
| Outbound (inputs : list RealtimeInput).

Definition step (s : State) (e : Event) : State :=
  match e with
  | StatusChange st =>
      {| status := st; connected := connected s;
         keepAliveIntervalRef := keepAliveIntervalRef s; timers := timers s;
         realtimeInputs := realtimeInputs s |}
  | SetConnected c => setConnected c s
  | Tick =>
      match keepAliveIntervalRef s with
      | Some _ => keepAlive s
      | None => s
      end
  | Outbound inputs => sendRealtimeInput inputs s
  end.

Definition run (events : list Event) (s : State) : State := fold_left step events s.

(** What a tick in state [s] puts on the transport. *)
Definition tickOutput (s : State) : list (list RealtimeInput) :=
  match keepAliveIntervalRef s, status s with
  | Some _, ClientStatus.connected => [[silentInput]]
  | _, _ => []
  end.

End KeepAlive.

(** ** Status poller ([pollForResult]) *)

Module Poller.

Definition maxAttempts : nat := 15.
Definition interval : nat := 2000.

Inductive SnackbarType := success | error | info.

(** The outcome of one [fetch(getStatusUrl)]: the request or the decoding
    of its body throws; the response is not ok; or the body is decoded and
    the status record (the first element when the body is a list) has the
    given [status], absent when the record or the field is missing, and
    [message], as it is rendered in a template. *)
Inductive FetchResult :=
| NetworkError
| NotOk
| Json (status : option string) (message : string).

(** [attempts] is the counter of the closure, [intervalId] tells whether
    the interval is still registered, [waiting] counts the callbacks
    suspended at [await fetch], [requests] the status requests issued,
    [snackbars] and [sent] the notifications shown and the messages given
    to [client.send]. *)
Record State := {
  attempts : nat;
  intervalId : bool;
  waiting : nat;
  requests : nat;
  snackbars : list (string * SnackbarType);
  sent : list string
}.

Definition init : State :=
  {| attempts := 0; intervalId := true; waiting := 0; requests := 0;
     snackbars := []; sent := [] |}.

Definition timeoutMessage (toolName : string) : string :=
  "SYSTEM NOTIFICATION: The tool '" +:+ toolName +:+ "' timed out after "
    +:+ pretty (maxAttempts * interval / 1000)
    +:+ " seconds. Please inform the user that the action could not be completed.".

Definition completedMessage (toolName status message : string) : string :=
  "SYSTEM NOTIFICATION: The tool '" +:+ toolName
    +:+ "' has completed with status: " +:+ status
    +:+ ". The message is: " +:+ message
    +:+ ". Please inform the user of this result in a natural, conversational way.".

(** The callback up to its [await]: the timeout branch, or a new request. *)
Definition tick (toolName : string) (s : State) : State :=
  if negb (intervalId s) then s
  else if maxAttempts <=? attempts s then
    {| attempts := attempts s; intervalId := false; waiting := waiting s;
       requests := requests s;
       snackbars := snackbars s ++ [("Tool '" +:+ toolName +:+ "' timed out.", error)];
       sent := sent s ++ [timeoutMessage toolName] |}
  else
    {| attempts := attempts s; intervalId := intervalId s; waiting := S (waiting s);
       requests := S (requests s); snackbars := snackbars s; sent := sent s |}.

(** [statusData && statusData.status && statusData.status !== 'pending'] *)
Definition terminal (status : option string) : bool :=
  match status with
  | Some st => negb (bool_decide (st = "")) && negb (bool_decide (st = "pending"))
  | None => false
  end.

(** The rest of a callback, from the outcome of its request on;
    [attempts++] is reached on every path. *)
Definition reply (toolName : string) (r : FetchResult) (s : State) : State :=
  match waiting s with
  | 0 => s
  | S w =>
      match r with
      | Json (Some st) message =>
          if terminal (Some st) then
            {| attempts := S (attempts s); intervalId := false; waiting := w;
               requests := requests s;
               snackbars :=
                 snackbars s
                 ++ [("Tool '" +:+ toolName +:+ "' completed: " +:+ st,
                      if bool_decide (st = "success") then success else error)];
               sent := sent s ++ [completedMessage toolName st message] |}
          else
            {| attempts := S (attempts s); intervalId := intervalId s; waiting := w;
               requests := requests s; snackbars := snackbars s; sent := sent s |}
      | _ =>
          {| attempts := S (attempts s); intervalId := intervalId s; waiting := w;
             requests := requests s; snackbars := snackbars s; sent := sent s |}
      end
  end.

(** The interval elapses, or one of the pending requests completes. *)
Inductive Event := Tick | Reply (r : FetchResult).

Definition step (toolName : string) (s : State) (e : Event) : State :=
  match e with
  | Tick => tick toolName s
  | Reply r => reply toolName r s
  end.

Definition run (toolName : string) (events : list Event) (s : State) : State :=
  fold_left (step toolName) events s.

(** A run in which every request completes before the next tick. *)
Definition inTurn (replies : list FetchResult) : list Event :=
  flat_map (fun r => [Tick; Reply r]) replies.

End Poller.

(** ** Properties of the ledger and of the task tracker *)

(** What one ledger event can do: nothing, append a turn that does not
    continue an open turn of its role, or rewrite the open last turn
    keeping its role. *)
Inductive LedgerEffect (turns : list Ledger.ConversationTurn)
  : list Ledger.ConversationTurn -> Prop :=
| effect_none : LedgerEffect turns turns
| effect_add t :
    Ledger.continues (Ledger.role t) (Ledger.lastOf turns) = false
    \/ Ledger.isFinal t = true ->
    LedgerEffect turns (turns ++ [t])
| effect_update l t u :
    turns = l ++ [t] -> Ledger.isFinal t = false ->
    LedgerEffect turns (l ++ [Ledger.spread t u]).

(** Two neighbouring turns of one role are never both open. *)
Definition Separated (turns : list Ledger.ConversationTurn) : Prop :=
  forall i t1 t2,
    turns !! i = Some t1 -> turns !! S i = Some t2 ->
    Ledger.role t1 = Ledger.role t2 ->
    Ledger.isFinal t1 = false -> Ledger.isFinal t2 = true.

(** The turn obtained by merging deltas into the open turn [t]. *)
Definition merged (t : Ledger.ConversationTurn) (deltas : list Ledger.Delta)
  : Ledger.ConversationTurn :=
  Ledger.mkTurn (Ledger.timestamp t) (Ledger.role t)
    (Ledger.text t +:+ Ledger.concatText deltas)
    (from_option Ledger.deltaFinal (Ledger.isFinal t) (last deltas))
    (Ledger.toolUseRequest t) (Ledger.groundingChunks t)
    (Ledger.attachments t) (Ledger.isPromo t).

(** A list of writes never lowers the progress below [p] and keeps it
    at or under 100. *)
Fixpoint rising (p : Q) (updates : list BackgroundTask.Updates) : Prop :=
  match updates with
  | [] => True
  | u :: rest =>
      match BackgroundTask.setProgress u with
      | Some q => (p <= q)%Q /\ (q <= inject_Z 100)%Q /\ rising q rest
      | None => rising p rest
      end
  end.

(** The range of a progress value. *)
Definition inRange (p : Q) : Prop := (inject_Z 0 <= p)%Q /\ (p <= inject_Z 100)%Q.

(** ** Accounting of one invocation of [onToolCall] *)

Module D := Dispatcher.

(** [Good rest inv pc sent ex] relates what one invocation holds at some
    point: [rest] are the calls its loop has not reached yet, [pc] its call
    awaiting confirmation, [sent] the aggregate responses it has sent and
    [ex] the calls it ran [executeTool] for. *)
Record Good (rest : list FunctionCall.t) (inv : D.Invocation)
    (pc : option FunctionCall.t) (sent : list (list FunctionResponse.t))
    (ex : list FunctionCall.t) : Prop := {
  g_acc :
    (D.responseKey <$> D.functionResponses inv)
      ++ (D.callKey <$> (D.executing inv ++ option_list pc ++ rest))
    ⊆+ D.callKey <$> D.toolCall inv;
  g_sent :
    sent = [] \/
    (sent = [D.functionResponses inv] /\
     length (D.functionResponses inv) = length (D.toolCall inv));
  g_live :
    existsb (D.restricted (D.caller inv)) (D.toolCall inv) = false ->
    D.toolCall inv <> [] ->
    length (D.functionResponses inv) = length (D.toolCall inv) ->
    sent = [D.functionResponses inv];
  g_exec : forall fc, fc ∈ ex -> D.restricted (D.caller inv) fc = false;
  g_conf : forall fc, pc = Some fc -> D.restricted (D.caller inv) fc = false;
  g_rest : forall fc, fc ∈ rest -> fc ∈ D.toolCall inv;
  g_rej :
    forall fc, fc ∈ D.toolCall inv -> D.restricted (D.caller inv) fc = true ->
               fc ∈ rest \/ D.restrictedResponse fc ∈ D.functionResponses inv
}.

Definition restOf (b b0 : nat) (rest : list FunctionCall.t) : list FunctionCall.t :=
  if bool_decide (b = b0) then rest else [].

(** The invariant of the dispatcher while the loop of invocation [b0] still
    has [rest] to go through ([rest] is empty between events). *)
Definition Inv (b0 : nat) (rest : list FunctionCall.t) (s : D.State) : Prop :=
  forall b,
    match D.invocations s !! b with
    | Some inv =>
        Good (restOf b b0 rest) inv (D.pendingOf b s) (D.sentBy b s) (D.executedBy b s)
    | None => D.pendingOf b s = None /\ D.sentBy b s = [] /\ D.executedBy b s = []
    end.

(** What the completeness test of invocation [b] sends in state [s]. *)
Definition sendNow (b : nat) (s : D.State) : list (nat * list FunctionResponse.t) :=
  match D.invocations s !! b with
  | Some inv =>
      if length (D.functionResponses inv) =? length (D.toolCall inv)
      then [(b, D.functionResponses inv)] else []
  | None => []
  end.

(** The batch and the caller of invocation [b]. *)
Definition batchOf (b : nat) (s : D.State) : option (list FunctionCall.t * option D.User) :=
  (fun inv => (D.toolCall inv, D.caller inv)) <$> (D.invocations s !! b).

(** The state of the poller between two rounds when every request
    completes before the next tick. *)
Definition Settled (s : Poller.State) : Prop :=
  Poller.waiting s = 0
  /\ Poller.requests s = Poller.attempts s
  /\ Poller.requests s <= Poller.maxAttempts
  /\ (if Poller.intervalId s then Poller.sent s = [] else length (Poller.sent s) = 1).

(** ** Tool definitions ([useTools]) *)

(** A tool definition of [lib/state.ts] (the interface the source calls
    [FunctionCall]); [parameters] is kept as its JSON text. *)
Module ToolDefinition.

Inductive Scheduling := INTERRUPT | WHEN_IDLE | SILENT.

Record t := mk {
  name : string;
  description : option string;
  parameters : option string;
  isEnabled : bool;
  scheduling : option Scheduling;
  icon : option string;
  postWebhookUrl : option string;
  getStatusWebhookUrl : option string
}.

End ToolDefinition.

(** The double quote, for the texts that contain one. *)
Definition dq : string := String "034"%char EmptyString.

Module ToolStore.

Import ToolDefinition.

Definition findTool (toolName : string) (tools : list ToolDefinition.t)
  : option ToolDefinition.t :=
  List.find (fun t => bool_decide (name t = toolName)) tools.

(** [{ ...tool, isEnabled: e }] *)
Definition withEnabled (e : bool) (tool : ToolDefinition.t) : ToolDefinition.t :=
  mk (name tool) (description tool) (parameters tool) e (scheduling tool)
     (icon tool) (postWebhookUrl tool) (getStatusWebhookUrl tool).

(** [searchTool?.isEnabled || false] *)
Definition isSearchEnabled (tools : list ToolDefinition.t) : bool :=
  from_option isEnabled false (findTool "search_web" tools).

(** [!state.tools.find(t => t.name === toolName)?.isEnabled] *)
Definition isEnablingNewTool (toolName : string) (tools : list ToolDefinition.t) : bool :=
  negb (from_option isEnabled false (findTool toolName tools)).

(** [toggleTool]: the new list of tools and the notification shown, if any. *)
Definition toggleTool (toolName : string) (tools : list ToolDefinition.t)
  : list ToolDefinition.t * option string :=
  if isSearchEnabled tools
     && negb (bool_decide (toolName = "search_web"))
     && isEnablingNewTool toolName tools
  then (tools, Some ("Disable " +:+ dq +:+ "search_web" +:+ dq +:+ " to enable other tools."))
  else if bool_decide (toolName = "search_web") && negb (isSearchEnabled tools)
  then (map (fun tool => withEnabled (bool_decide (name tool = "search_web")) tool) tools,
        Some "Web search enabled. All other tools have been disabled.")
  else (map (fun tool =>
               if bool_decide (name tool = toolName)
               then withEnabled (negb (isEnabled tool)) tool else tool) tools,
        None).

(** The [while] loop of [addTool]: [newToolName] and [counter] are its two
    variables; [fuel] bounds the number of tests. *)
Fixpoint newName (fuel : nat) (tools : list ToolDefinition.t)
    (newToolName : string) (counter : nat) : option string :=
  match fuel with
  | 0 => None
  | S fuel' =>
      if existsb (fun tool => bool_decide (name tool = newToolName)) tools
      then newName fuel' tools ("new_function_" +:+ pretty counter) (S counter)
      else Some newToolName
  end.

Definition blankTool (newToolName : string) : ToolDefinition.t :=
  mk newToolName (Some "")
     (Some ("{" +:+ dq +:+ "type" +:+ dq +:+ ":" +:+ dq +:+ "OBJECT" +:+ dq +:+ ","
              +:+ dq +:+ "properties" +:+ dq +:+ ":{}}"))
     true (Some INTERRUPT)
     (Some "extension") (Some "") (Some "").

(** [addTool]; one test more than there are tools is enough for the loop,
    which tries at most that many names. *)
Definition addTool (tools : list ToolDefinition.t) : list ToolDefinition.t :=
  match newName (S (length tools)) tools "new_function" 1 with
  | Some newToolName => tools ++ [blankTool newToolName]
  | None => tools
  end.

Definition removeTool (toolName : string) (tools : list ToolDefinition.t)
  : list ToolDefinition.t :=
  filter (fun tool => name tool <> toolName) tools.

(** [updateTool]: a change of name to a name already in use is refused. *)
Definition updateTool (oldName : string) (updatedTool : ToolDefinition.t)
    (tools : list ToolDefinition.t) : list ToolDefinition.t :=
  if negb (bool_decide (oldName = name updatedTool))
     && existsb (fun tool => bool_decide (name tool = name updatedTool)) tools
  then tools
  else map (fun tool => if bool_decide (name tool = oldName) then updatedTool else tool) tools.

(** The operations of the tool editor. *)
Inductive Event :=
| ToggleTool (toolName : string)
| AddTool
| RemoveTool (toolName : string)
| UpdateTool (oldName : string) (updatedTool : ToolDefinition.t).

Definition step (tools : list ToolDefinition.t) (e : Event) : list ToolDefinition.t :=
  match e with
  | ToggleTool toolName => (toggleTool toolName tools).1
  | AddTool => addTool tools
  | RemoveTool toolName => removeTool toolName tools
  | UpdateTool oldName updatedTool => updateTool oldName updatedTool tools
  end.

Definition run (events : list Event) (tools : list ToolDefinition.t)
  : list ToolDefinition.t :=
  fold_left step events tools.


(** The names the loop of [addTool] tries, in order. *)
Definition candidate (k : nat) : string :=
  match k with
  | 0 => "new_function"
  | S _ => "new_function_" +:+ pretty k
  end.

End ToolStore.

(** ** Token balance ([useUserStore]) and the cost of the tools *)

Module UserStore.

Definition IMAGE_TOOL_COST : Z := 25.
Definition DOCUMENT_TOOL_COST : Z := 10.
Definition PRESENTATION_TOOL_COST : Z := 50.



End UserStore.

(** ** More of the task tracker and of the ledger *)

(** [{ ...u, ...v }] on two partial updates of a task. *)
Definition mergeUpdates (u v : BackgroundTask.Updates) : BackgroundTask.Updates :=
  {| BackgroundTask.setStatus :=
       match BackgroundTask.setStatus v with Some x => Some x | None => BackgroundTask.setStatus u end;
     BackgroundTask.setProgress :=
       match BackgroundTask.setProgress v with Some x => Some x | None => BackgroundTask.setProgress u end;
     BackgroundTask.setMessage :=
       match BackgroundTask.setMessage v with Some x => Some x | None => BackgroundTask.setMessage u end;
     BackgroundTask.setResult :=
       match BackgroundTask.setResult v with Some x => Some x | None => BackgroundTask.setResult u end |}.

(** A list of writes, each to the task of some identifier. *)
Definition applyWrites (writes : list (string * BackgroundTask.Updates))
    (tasks : list BackgroundTask.t) : list BackgroundTask.t :=
  fold_left (fun acc w => Tasks.updateTask w.1 w.2 acc) writes tasks.

(** [t'] is the turn [t] after more of it has streamed in: the same turn,
    its text and its citations extended at the end. *)
Definition Extends (t t' : Ledger.ConversationTurn) : Prop :=
  Ledger.timestamp t' = Ledger.timestamp t
  /\ Ledger.role t' = Ledger.role t
  /\ Ledger.toolUseRequest t' = Ledger.toolUseRequest t
  /\ Ledger.attachments t' = Ledger.attachments t
  /\ Ledger.isPromo t' = Ledger.isPromo t
  /\ (exists more, Ledger.text t' = Ledger.text t +:+ more)
  /\ (exists more, default [] (Ledger.groundingChunks t')
                   = default [] (Ledger.groundingChunks t) ++ more)
  /\ (Ledger.isFinal t = true -> t' = t).

(** A citation that can be shown: it has a link and a label. *)
Definition validChunk (c : Ledger.GroundingChunk) : Prop :=
  Ledger.uri c <> "" /\ Ledger.title c <> "".

Definition validCitations (turns : list Ledger.ConversationTurn) : Prop :=
  forall t g, t ∈ turns -> Ledger.groundingChunks t = Some g -> Forall validChunk g.

(** ** The image to edit ([executeImageEditingTool]) *)

Module ImageEditing.

(** [att.type.startsWith('image/')] *)
Definition isImage (att : Ledger.Attachment) : bool :=
  String.prefix "image/" (Ledger.type att).

(** The test of one turn in the backwards scan: a user turn with
    attachments, and its first image attachment. *)
Definition imageOf (turn : Ledger.ConversationTurn) : option Ledger.Attachment :=
  if bool_decide (Ledger.role turn = Ledger.user) then
    match Ledger.attachments turn with
    | Some atts => if 0 <? length atts then List.find isImage atts else None
    | None => None
    end
  else None.

(** The loop [for (let i = turns.length - 1; i >= 0; i--)], as a scan of
    the turns from the last to the first that stops at the first hit. *)
Fixpoint scan (backwards : list Ledger.ConversationTurn) : option Ledger.Attachment :=
  match backwards with
  | [] => None
  | turn :: earlier =>
      match imageOf turn with
      | Some att => Some att
      | None => scan earlier
      end
  end.

Definition lastUserImage (turns : list Ledger.ConversationTurn) : option Ledger.Attachment :=
  scan (reverse turns).

End ImageEditing.

(** What one ledger event does, with the values it writes: nothing, a new
    turn whose citations (if any) are those of a server content, or the
    open last turn rewritten with its text and citations extended. *)
Inductive Streams (turns : list Ledger.ConversationTurn)
  : list Ledger.ConversationTurn -> Prop :=
| streams_none : Streams turns turns
| streams_add t :
    Ledger.groundingChunks t = None
    \/ (exists c, Ledger.groundingChunks t = Ledger.contentChunks c) ->
    Streams turns (turns ++ [t])
| streams_update l t u :
    turns = l ++ [t] -> Ledger.isFinal t = false ->
    Ledger.setText u = None
    \/ (exists txt, Ledger.setText u = Some (Ledger.text t +:+ txt)) ->
    Ledger.setGroundingChunks u = None
    \/ (exists c, Ledger.setGroundingChunks u
                  = Some (default [] (Ledger.groundingChunks t)
                            ++ default [] (Ledger.contentChunks c))) ->
    Streams turns (l ++ [Ledger.spread t u]).

(** A user turn that carries an image. *)
Definition hasImage (turn : Ledger.ConversationTurn) : Prop :=
  Ledger.role turn = Ledger.user
  /\ exists atts att, Ledger.attachments turn = Some atts
                      /\ att ∈ atts /\ ImageEditing.isImage att = true.

(** ** More of the dispatcher *)

(** The ledger entry [onToolCall] writes for a call it does not reject. *)
Definition triggerTurn (now : nat) (fc : FunctionCall.t) : Ledger.ConversationTurn :=
  Ledger.mkTurn now Ledger.system (D.triggerMessage fc) true (Some [fc]) None None false.


(** A call that is acknowledged without an executor. *)
Definition native (user : option D.User) (fc : FunctionCall.t) : Prop :=
  D.restricted user fc = false
  /\ D.strategyOf (FunctionCall.name fc) = D.NativeGemini.

(** The confirmation pending on behalf of a tool call is that of a
    sensitive tool. *)
Definition PendingSensitive (s : D.State) : Prop :=
  forall c b fc,
    D.confirmation s = Some c -> D.continuation c = D.ToolCallK b fc ->
    D.includes D.SENSITIVE_TOOLS (FunctionCall.name fc) = true.

(** ** More of the status poller *)

(** The answer that ends the polling, with its status and message. *)
Definition finished (r : Poller.FetchResult) : option (string * string) :=
  match r with
  | Poller.Json (Some st) message =>
      if Poller.terminal (Some st) then Some (st, message) else None
  | _ => None
  end.

(** The number of answers before the first one that ends the polling. *)
Fixpoint pendingPrefix (replies : list Poller.FetchResult) : nat :=
  match replies with
  | [] => 0
  | r :: rest =>
      match finished r with
      | Some _ => 0
      | None => S (pendingPrefix rest)
      end
  end.

(** The state after [j] rounds that did not end the polling. *)
Definition polling (j : nat) : Poller.State :=
  {| Poller.attempts := j; Poller.intervalId := true; Poller.waiting := 0;
     Poller.requests := j; Poller.snackbars := []; Poller.sent := [] |}.

(** The one notification of a run in which every request completes before
    the next tick: the first answer, within the [budget], that ends the
    polling, or else the timeout. *)
Definition notification (toolName : string) (budget : nat)
    (replies : list Poller.FetchResult) : string :=
  match head (omap finished (take budget replies)) with
  | Some (st, message) => Poller.completedMessage toolName st message
  | None => Poller.timeoutMessage toolName
  end.

(** ** Long-term memory ([useMemoryStore], [runBackgroundAnalysis]) *)

Module Memory.

Record MemoryData := {
  personality : string;
  keyPeople : string;
  myBusiness : string;
  commsStyle : string;
  personalPrefs : string;
  negativePrompt : string
}.

(** [Partial<MemoryData>] *)
Record Update := {
  setPersonality : option string;
  setKeyPeople : option string;
  setMyBusiness : option string;
  setCommsStyle : option string;
  setPersonalPrefs : option string;
  setNegativePrompt : option string
}.

(** [setMemory: (data) => set(state => ({ ...state, ...data }))] *)
Definition setMemory (data : Update) (state : MemoryData) : MemoryData :=
  {| personality := default (personality state) (setPersonality data);
     keyPeople := default (keyPeople state) (setKeyPeople data);
     myBusiness := default (myBusiness state) (setMyBusiness data);
     commsStyle := default (commsStyle state) (setCommsStyle data);
     personalPrefs := default (personalPrefs state) (setPersonalPrefs data);
     negativePrompt := default (negativePrompt state) (setNegativePrompt data) |}.

(** The white space and line terminators that [String.prototype.trim]
    strips, as the bytes of their UTF-8 encoding: U+0009 to U+000D, U+0020,
    U+00A0, U+1680, U+2000 to U+200A, U+2028, U+2029, U+202F, U+205F, U+3000
    and U+FEFF. *)
Definition bytes (codes : list nat) : list ascii := ascii_of_nat <$> codes.

Definition whiteSpace : list (list ascii) :=
  bytes <$>
    [ [9]; [10]; [11]; [12]; [13]; [32]; [194; 160]; [225; 154; 128];
      [226; 128; 128]; [226; 128; 129]; [226; 128; 130]; [226; 128; 131];
      [226; 128; 132]; [226; 128; 133]; [226; 128; 134]; [226; 128; 135];
      [226; 128; 136]; [226; 128; 137]; [226; 128; 138];
      [226; 128; 168]; [226; 128; 169]; [226; 128; 175]; [226; 129; 159];
      [227; 128; 128]; [239; 187; 191] ].

(** [cs] without [p] in front, when it starts with [p]. *)
Fixpoint stripPrefix (p cs : list ascii) : option (list ascii) :=
  match p, cs with
  | [], _ => Some cs
  | a :: p', c :: cs' => if bool_decide (a = c) then stripPrefix p' cs' else None
  | _ :: _, [] => None
  end.

Definition stripOne (spaces : list (list ascii)) (cs : list ascii) : option (list ascii) :=
  head (omap (fun p => stripPrefix p cs) spaces).

Fixpoint stripAll (fuel : nat) (spaces : list (list ascii)) (cs : list ascii) : list ascii :=
  match fuel with
  | 0 => cs
  | S fuel' =>
      match stripOne spaces cs with
      | Some rest => stripAll fuel' spaces rest
      | None => cs
      end
  end.

Definition trimStart (cs : list ascii) : list ascii :=
  stripAll (length cs) whiteSpace cs.

Definition trimEnd (cs : list ascii) : list ascii :=
  reverse (stripAll (length cs) (reverse <$> whiteSpace) (reverse cs)).

Definition trim (s : string) : string :=
  string_of_list_ascii (trimEnd (trimStart (list_ascii_of_string s))).

(** The answer of the analysis model, decoded: each field is a string or
    is missing. *)
Record Analysis := {
  newKeyPeople : option string;
  newMyBusiness : option string;
  newCommsStyle : option string;
  newPersonalPrefs : option string;
  newNegativePrompt : option string
}.

(** [newVal && newVal.trim() && oldVal.trim() !== newVal.trim()] *)
Definition hasMeaningfulUpdate (oldVal : string) (newVal : option string) : bool :=
  match newVal with
  | Some v =>
      negb (bool_decide (v = ""))
      && negb (bool_decide (trim v = ""))
      && negb (bool_decide (trim oldVal = trim v))
  | None => false
  end.

(** [if (hasMeaningfulUpdate(old, new)) updates.field = new] *)
Definition updateOf (oldVal : string) (newVal : option string) : option string :=
  if hasMeaningfulUpdate oldVal newVal then newVal else None.

Definition updatesOf (existingMemory : MemoryData) (result : Analysis) : Update :=
  {| setPersonality := None;
     setKeyPeople := updateOf (keyPeople existingMemory) (newKeyPeople result);
     setMyBusiness := updateOf (myBusiness existingMemory) (newMyBusiness result);
     setCommsStyle := updateOf (commsStyle existingMemory) (newCommsStyle result);
     setPersonalPrefs := updateOf (personalPrefs existingMemory) (newPersonalPrefs result);
     setNegativePrompt :=
       updateOf (negativePrompt existingMemory) (newNegativePrompt result) |}.

Definition isSet (field : option string) : bool :=
  match field with
  | Some _ => true
  | None => false
  end.

(** [Object.keys(updates).length > 0] *)
Definition nonEmpty (updates : Update) : bool :=
  isSet (setPersonality updates) || isSet (setKeyPeople updates)
  || isSet (setMyBusiness updates) || isSet (setCommsStyle updates)
  || isSet (setPersonalPrefs updates) || isSet (setNegativePrompt updates).

(** What [runBackgroundAnalysis] does with the answer of the model: the
    memory afterwards, and whether it was written (and is then saved and
    announced). *)
Definition applyAnalysis (result : Analysis) (existingMemory : MemoryData)
  : MemoryData * bool :=
  let updates := updatesOf existingMemory result in
  if nonEmpty updates then (setMemory updates existingMemory, true)
  else (existingMemory, false).

End Memory.

(** A field after an analysis: kept, or replaced by the answer's value for
    it, which is then not blank and differs from the old value after
    trimming. *)
Definition keptOrLearned (oldVal : string) (newVal : option string) (val : string) : Prop :=
  val = oldVal
  \/ (newVal = Some val /\ Memory.trim val <> ""
      /\ Memory.trim oldVal <> Memory.trim val).

(** ** The webhook executor ([executeWebhookTool]), up to its first [await] *)

Module Webhook.

(** [s.includes(needle)] on strings. *)
Fixpoint includes (needle s : string) : bool :=
  String.prefix needle s
  || match s with
     | EmptyString => false
     | String _ rest => includes needle rest
     end.

(** [s.split(sep)] for a separator that is not empty: [skip] counts the
    characters of a separator still to pass over, [cur] holds the piece
    read so far, last character first. *)
Fixpoint splitFrom (sep : string) (skip : nat) (cur : list ascii) (s : string)
  : list string :=
  match s with
  | EmptyString => [string_of_list_ascii (reverse cur)]
  | String c rest =>
      match skip with
      | S k => splitFrom sep k cur rest
      | 0 =>
          if String.prefix sep s
          then string_of_list_ascii (reverse cur)
                 :: splitFrom sep (String.length sep - 1) [] rest
          else splitFrom sep 0 (c :: cur) rest
      end
  end.

Definition split (sep s : string) : list string := splitFrom sep 0 [] s.

Inductive Scope := session | longTerm.

(** The body of the request: the arguments of the call, or a memory search
    (its [search_query] is the field of that name of the arguments). *)
Inductive Body :=
| Args (args : string)
| Search (user_id : string) (args : string) (scope : Scope)
    (session_context : option (list (Ledger.Role * string))).

(** How the executor starts: it answers at once with an error and shows it,
    it throws, or it posts [body] to [webhookUrl]. *)
Inductive Start :=
| Refused (response : FunctionResponse.t)
| Thrown
| Posted (tool : ToolDefinition.t) (webhookUrl : string) (body : Body).

Definition errorResponse (fc : FunctionCall.t) (errorMessage : string) : FunctionResponse.t :=
  FunctionResponse.mk (FunctionCall.id fc) (FunctionCall.name fc)
    ("Error: " +:+ errorMessage).

Definition notConfigured (fc : FunctionCall.t) : string :=
  "Tool '" +:+ FunctionCall.name fc
    +:+ "' is not configured or enabled. Please configure its webhooks in the settings.".

Definition badSupabaseUrl : string :=
  "Supabase URL is not configured correctly. Cannot call memory functions.".

(** [turns.slice(-20).map(t => ({ role: t.role, text: t.text }))] *)
Definition sessionContext (turns : list Ledger.ConversationTurn)
  : list (Ledger.Role * string) :=
  (fun t => (Ledger.role t, Ledger.text t)) <$> drop (length turns - 20) turns.

Definition start (allTools : list ToolDefinition.t) (supabaseUrl : option string)
    (user : option D.User) (turns : list Ledger.ConversationTurn)
    (fc : FunctionCall.t) : Start :=
  match ToolStore.findTool (FunctionCall.name fc) allTools with
  | None => Refused (errorResponse fc (notConfigured fc))
  | Some tool =>
      if negb (ToolDefinition.isEnabled tool)
         || negb (Ledger.truthy (ToolDefinition.postWebhookUrl tool))
      then Refused (errorResponse fc (notConfigured fc))
      else if bool_decide (ToolDefinition.name tool = "recall_from_conversation")
              || bool_decide (ToolDefinition.name tool = "search_long_term_memory")
      then
        if negb (Ledger.truthy supabaseUrl)
           || negb (includes ".co" (default "" supabaseUrl))
        then Refused (errorResponse fc badSupabaseUrl)
        else
          match split "//" (default "" supabaseUrl) !! 1 with
          | None => Thrown
          | Some rest =>
              let projectRef := default "" (split "." rest !! 0) in
              let webhookUrl :=
                "https://" +:+ projectRef +:+ ".supabase.co/functions/v1/semantic-search" in
              match user with
              | None => Thrown
              | Some u =>
                  if bool_decide (ToolDefinition.name tool = "recall_from_conversation")
                  then Posted tool webhookUrl
                         (Search (D.userId u) (FunctionCall.args fc) session
                            (Some (sessionContext turns)))
                  else Posted tool webhookUrl
                         (Search (D.userId u) (FunctionCall.args fc) longTerm None)
              end
          end
      else Posted tool (default "" (ToolDefinition.postWebhookUrl tool))
             (Args (FunctionCall.args fc))
  end.

End Webhook.

(** The text an event of the ledger brings. *)
Definition eventText (e : Ledger.Event) : string :=
  match e with
  | Ledger.InputTranscription _ txt _ => txt
  | Ledger.OutputTranscription _ txt _ => txt
  | Ledger.Content _ serverContent => Ledger.contentText serverContent
  | Ledger.TurnComplete => ""
  | Ledger.FinalTurn _ _ txt => txt
  end.

Definition eventsText (events : list Ledger.Event) : string :=
  foldr (fun e acc => eventText e +:+ acc) "" events.

(** A reply of the video service that ends the job: the request throws or
    the operation is done. *)
Definition endsJob (r : Tasks.Reply) : bool :=
  match r with
  | Tasks.Thrown _ => true
  | Tasks.Returned op => Tasks.done op
  end.

(** The last write of a video job that has ended: a failure, or the
    completion with the download link. *)
Definition videoOutcome (apiKey : string) (u : BackgroundTask.Updates) : Prop :=
  (exists msg, u = Tasks.failedUpdate ("Failed to generate video: " +:+ msg))
  \/ (exists link,
        link <> ""
        /\ u = Tasks.completedUpdate "Video is ready!"
                 {| BackgroundTask.type := BackgroundTask.download;
                    BackgroundTask.payload := link +:+ "&key=" +:+ apiKey |}).

(** A write that only reports progress. *)
Definition progressOnly (u : BackgroundTask.Updates) : Prop :=
  BackgroundTask.setStatus u = None /\ BackgroundTask.setResult u = None.

(** A server content that brings nothing to show: no part with a text that
    is not empty, and no grounding chunk with a link. *)
Definition blank (c : Ledger.LiveServerContent) : Prop :=
  Forall (fun p => Ledger.truthy p = false) (default [] (Ledger.parts c))
  /\ Forall (fun r => Ledger.cleanChunk r = None) (default [] (Ledger.rawGroundingChunks c)).

(** * Part II. Theorems *)

Lemma lastOf_snoc (l : list Ledger.ConversationTurn) t :
  Ledger.lastOf (l ++ [t]) = Some t.
Proof.
  unfold Ledger.lastOf. rewrite length_app. simpl.
  replace (length l + 1 =? 0) with false by (symmetry; apply Nat.eqb_neq; lia).
  replace (length l + 1 - 1) with (length l + 0) by lia.
  rewrite lookup_app_r by lia. replace (length l + 0 - length l) with 0 by lia. done.
Qed.

Lemma append_assoc (a b c : string) : (a +:+ b) +:+ c = a +:+ (b +:+ c).
Proof.
  induction a as [|x a IH]; [done|].
  change (String x ((a +:+ b) +:+ c) = String x (a +:+ (b +:+ c))).
  by rewrite IH.
Qed.

Lemma append_empty_r (a : string) : a +:+ "" = a.
Proof.
  induction a as [|x a IH]; [done|].
  change (String x (a +:+ "") = String x a). by rewrite IH.
Qed.

(** ** The ledger writes only at its end *)

Lemma lastOf_nil : Ledger.lastOf [] = None.
Proof. reflexivity. Qed.

Lemma updateLastTurn_snoc u (l : list Ledger.ConversationTurn) t :
  Ledger.updateLastTurn u (l ++ [t]) = l ++ [Ledger.spread t u].
Proof.
  pose proof (lastOf_snoc l t) as H. unfold Ledger.lastOf in H.
  unfold Ledger.updateLastTurn.
  destruct (length (l ++ [t]) =? 0) eqn:E; [discriminate|].
  rewrite H. rewrite length_app. simpl.
  replace (length l + 1 - 1) with (length l + 0) by lia.
  by rewrite insert_app_r.
Qed.

Lemma handleTranscription_effect r now txt final turns :
  LedgerEffect turns (Ledger.handleTranscription r now txt final turns).
Proof.
  unfold Ledger.handleTranscription.
  destruct turns as [|t0 l0] using rev_ind.
  - rewrite lastOf_nil. apply effect_add. by left.
  - rewrite lastOf_snoc.
    destruct (Ledger.continues r (Some t0)) eqn:E.
    + rewrite updateLastTurn_snoc. eapply effect_update; [done|].
      simpl in E. apply andb_true_iff in E as [_ E].
      by apply negb_true_iff in E.
    + apply effect_add. left. simpl Ledger.role. by rewrite lastOf_snoc.
Qed.

Lemma handleContent_effect now c turns :
  LedgerEffect turns (Ledger.handleContent now c turns).
Proof.
  unfold Ledger.handleContent.
  destruct (bool_decide (Ledger.contentText c = "") && _); [apply effect_none|].
  destruct turns as [|t0 l0] using rev_ind.
  - rewrite lastOf_nil. apply effect_add. by left.
  - rewrite lastOf_snoc.
    destruct (Ledger.continues Ledger.agent (Some t0)) eqn:E.
    + rewrite updateLastTurn_snoc. eapply effect_update; [done|].
      simpl in E. apply andb_true_iff in E as [_ E].
      by apply negb_true_iff in E.
    + apply effect_add. left. simpl Ledger.role. by rewrite lastOf_snoc.
Qed.

Lemma handleTurnComplete_snoc l t :
  Ledger.handleTurnComplete (l ++ [t]) =
  l ++ [if Ledger.isFinal t then t
        else Ledger.spread t {| Ledger.setText := None;
                                Ledger.setIsFinal := Some true;
                                Ledger.setGroundingChunks := None |}].
Proof.
  unfold Ledger.handleTurnComplete. rewrite lastOf_snoc.
  destruct (Ledger.isFinal t); simpl; [done|]. apply updateLastTurn_snoc.
Qed.

Lemma handleTurnComplete_effect turns :
  LedgerEffect turns (Ledger.handleTurnComplete turns).
Proof.
  destruct turns as [|t0 l0] using rev_ind; [apply effect_none|].
  rewrite handleTurnComplete_snoc.
  destruct (Ledger.isFinal t0) eqn:E; [apply effect_none|].
  by eapply effect_update.
Qed.

Lemma step_effect turns e : LedgerEffect turns (Ledger.step turns e).
Proof.
  destruct e; simpl.
  - apply handleTranscription_effect.
  - apply handleTranscription_effect.
  - apply handleContent_effect.
  - apply handleTurnComplete_effect.
  - apply effect_add. by right.
Qed.

Lemma run_snoc events e turns :
  Ledger.run (events ++ [e]) turns = Ledger.step (Ledger.run events turns) e.
Proof. unfold Ledger.run. by rewrite fold_left_app. Qed.

(** ** Turn-complete (C4) *)

Lemma handleTurnComplete_last turns :
  from_option Ledger.isFinal true (Ledger.lastOf (Ledger.handleTurnComplete turns)) = true.
Proof.
  destruct turns as [|t l _] using rev_ind; [done|].
  rewrite handleTurnComplete_snoc, lastOf_snoc. simpl.
  by destruct (Ledger.isFinal t) eqn:E.
Qed.

Lemma handleTurnComplete_front turns :
  take (length turns - 1) (Ledger.handleTurnComplete turns) = take (length turns - 1) turns.
Proof.
  destruct turns as [|t l _] using rev_ind; [done|].
  rewrite handleTurnComplete_snoc, length_app. simpl.
  replace (length l + 1 - 1) with (length l) by lia.
  by rewrite !take_app_length.
Qed.

Lemma handleTurnComplete_open turns :
  Ledger.openTurns (Ledger.handleTurnComplete turns) =
  Ledger.openTurns (take (length turns - 1) turns).
Proof.
  destruct turns as [|t l _] using rev_ind; [done|].
  rewrite handleTurnComplete_snoc, length_app. simpl.
  replace (length l + 1 - 1) with (length l) by lia.
  rewrite take_app_length. unfold Ledger.openTurns.
  rewrite filter_app.
  assert (filter (fun t0 => Ledger.isFinal t0 = false)
            [if Ledger.isFinal t then t
             else Ledger.spread t {| Ledger.setText := None;
                                     Ledger.setIsFinal := Some true;
                                     Ledger.setGroundingChunks := None |}] = []) as ->.
  { destruct (Ledger.isFinal t) eqn:E.
    - rewrite filter_cons_False; [done | by rewrite E].
    - rewrite filter_cons_False; [done | simpl; congruence]. }
  by rewrite app_nil_r.
Qed.

(** C4 (as stated, refuted): the input stream opens a user turn, the output
    stream opens an agent turn behind it, and the turn-complete event closes
    the agent turn only: one open turn is left. *)
Lemma turn_complete_leaves_open_turn :
  Ledger.openTurns
    (Ledger.run [Ledger.InputTranscription 0 "hi" false;
                 Ledger.OutputTranscription 1 "yo" false;
                 Ledger.TurnComplete] [])
  = [Ledger.mkTurn 0 Ledger.user "hi" false None None None false].
Proof. reflexivity. Qed.

(** C4 (amended): after a turn-complete event the last turn of the ledger,
    if there is one, is final, and every turn before it is left as it was;
    so the turns still open afterwards are exactly those that were open
    before the last position. *)
Theorem turn_complete_finalizes_last (events : list Ledger.Event) :
  let turns := Ledger.run events [] in
  let turns' := Ledger.handleTurnComplete turns in
  from_option Ledger.isFinal true (Ledger.lastOf turns') = true
  /\ length turns' = length turns
  /\ take (length turns - 1) turns' = take (length turns - 1) turns
  /\ Ledger.openTurns turns' = Ledger.openTurns (take (length turns - 1) turns).
Proof.
  intros turns turns'. subst turns'.
  split; [apply handleTurnComplete_last|].
  split; [|split; [apply handleTurnComplete_front | apply handleTurnComplete_open]].
  destruct turns as [|t l _] using rev_ind; [done|].
  rewrite handleTurnComplete_snoc. by rewrite !length_app.
Qed.

(** ** Open turns per role (C5) *)

(** C5 (as stated, refuted): user, agent and user deltas in turn leave two
    open user turns. *)
Lemma two_open_user_turns :
  length (Ledger.openTurnsOf Ledger.user
            (Ledger.run [Ledger.InputTranscription 0 "a" false;
                         Ledger.OutputTranscription 1 "b" false;
                         Ledger.InputTranscription 2 "c" false] [])) = 2.
Proof. reflexivity. Qed.

Lemma Separated_snoc l t n :
  Separated (l ++ [t]) ->
  (Ledger.role t = Ledger.role n -> Ledger.isFinal t = false -> Ledger.isFinal n = true) ->
  Separated ((l ++ [t]) ++ [n]).
Proof.
  intros Hs Hn i t1 t2 H1 H2 Hr Ho.
  destruct (decide (S i < length (l ++ [t]))) as [Hlt|Hge].
  - rewrite lookup_app_l in H1 by lia. rewrite lookup_app_l in H2 by lia.
    exact (Hs i t1 t2 H1 H2 Hr Ho).
  - pose proof (lookup_lt_Some _ _ _ H2) as Hb. rewrite !length_app in *. simpl in *.
    assert (i = length l) as -> by lia.
    rewrite lookup_app_l in H1 by (rewrite length_app; simpl; lia).
    rewrite lookup_app_r in H1 by lia.
    replace (length l - length l) with 0 in H1 by lia. simpl in H1.
    rewrite lookup_app_r in H2 by (rewrite length_app; simpl; lia).
    rewrite length_app in H2. simpl in H2.
    replace (S (length l) - (length l + 1)) with 0 in H2 by lia. simpl in H2.
    simplify_eq. by apply Hn.
Qed.

Lemma Separated_front l t : Separated (l ++ [t]) -> Separated l.
Proof.
  intros Hs i t1 t2 H1 H2. apply (Hs i t1 t2).
  - by apply lookup_app_l_Some.
  - by apply lookup_app_l_Some.
Qed.

Lemma Separated_update l t t' :
  Separated (l ++ [t]) -> Ledger.role t' = Ledger.role t ->
  Ledger.isFinal t = false -> Separated (l ++ [t']).
Proof.
  intros Hs Hr Ho.
  destruct l as [|p l _] using rev_ind.
  - intros i t1 t2 H1 H2. destruct i; simpl in *; [done|].
    by rewrite lookup_nil in H1.
  - apply Separated_snoc; [by eapply Separated_front|].
    intros Hpr Hpo. exfalso.
    assert (Ledger.isFinal t = true); [|congruence].
    apply (Hs (length l) p t); [| |congruence|done].
    + rewrite lookup_app_l by (rewrite length_app; simpl; lia).
      rewrite lookup_app_r by lia. by replace (length l - length l) with 0 by lia.
    + rewrite lookup_app_r by (rewrite length_app; simpl; lia).
      rewrite length_app. simpl.
      by replace (S (length l) - (length l + 1)) with 0 by lia.
Qed.

Lemma spread_role t u : Ledger.role (Ledger.spread t u) = Ledger.role t.
Proof. reflexivity. Qed.

Lemma LedgerEffect_Separated turns turns' :
  LedgerEffect turns turns' -> Separated turns -> Separated turns'.
Proof.
  intros [|n Hn|l t u -> Ho] Hs; [done| |].
  - destruct turns as [|t l _] using rev_ind.
    + intros i t1 t2 H1 H2. destruct i; simpl in *; [done|].
      by rewrite lookup_nil in H1.
    + apply Separated_snoc; [done|]. intros Hr Hopen.
      destruct Hn as [Hn|Hn]; [|done].
      rewrite lastOf_snoc in Hn. simpl in Hn.
      rewrite bool_decide_eq_true_2 in Hn by done.
      rewrite Hopen in Hn. done.
  - eapply Separated_update; [done | apply spread_role | done].
Qed.

Lemma run_Separated events : Separated (Ledger.run events []).
Proof.
  induction events as [|e events IH] using rev_ind.
  - intros i t1 t2 H1. by destruct i.
  - rewrite run_snoc. eapply LedgerEffect_Separated; [apply step_effect | done].
Qed.

(** C5 (amended): in every reachable ledger two adjacent turns of the same
    role are never both open: a delta opens a new turn of its role only
    behind a turn that is final or of another role.  (Open turns of one role
    that are separated by a turn of another role can coexist.) *)
Theorem adjacent_turns_not_both_open
    (events : list Ledger.Event) (i : nat) (t1 t2 : Ledger.ConversationTurn) :
  Ledger.run events [] !! i = Some t1 ->
  Ledger.run events [] !! S i = Some t2 ->
  Ledger.role t1 = Ledger.role t2 ->
  Ledger.isFinal t1 = false ->
  Ledger.isFinal t2 = true.
Proof. apply run_Separated. Qed.

Lemma adjacent_turns_not_both_open_witness :
  Ledger.isFinal (Ledger.mkTurn 1 Ledger.user "typed" true None None None false) = true.
Proof.
  apply (adjacent_turns_not_both_open
           [Ledger.InputTranscription 0 "spoken" false;
            Ledger.FinalTurn 1 Ledger.user "typed"] 0
           (Ledger.mkTurn 0 Ledger.user "spoken" false None None None false)
           (Ledger.mkTurn 1 Ledger.user "typed" true None None None false));
    reflexivity.
Defined.

(** ** Chunking invariance of the transcript merge (C6) *)

Lemma ledgerText_app l1 l2 :
  Ledger.ledgerText (l1 ++ l2) = Ledger.ledgerText l1 +:+ Ledger.ledgerText l2.
Proof.
  induction l1 as [|t l1 IH]; [done|].
  change (Ledger.text t +:+ Ledger.ledgerText (l1 ++ l2) =
          (Ledger.text t +:+ Ledger.ledgerText l1) +:+ Ledger.ledgerText l2).
  by rewrite IH, append_assoc.
Qed.

Lemma ledgerText_singleton t : Ledger.ledgerText [t] = Ledger.text t.
Proof. apply append_empty_r. Qed.

(** One delta adds exactly its text at the end of the ledger text. *)
Lemma handleTranscription_text r now txt final turns :
  Ledger.ledgerText (Ledger.handleTranscription r now txt final turns) =
  Ledger.ledgerText turns +:+ txt.
Proof.
  unfold Ledger.handleTranscription.
  destruct turns as [|t l _] using rev_ind.
  - rewrite lastOf_nil. unfold Ledger.addTurn. simpl. apply append_empty_r.
  - rewrite lastOf_snoc.
    destruct (Ledger.continues r (Some t)).
    + rewrite updateLastTurn_snoc, !ledgerText_app, !ledgerText_singleton.
      simpl. by rewrite append_assoc.
    + unfold Ledger.addTurn. by rewrite (ledgerText_app (l ++ [t])), ledgerText_singleton.
Qed.

Lemma applyDeltas_text r deltas turns :
  Ledger.ledgerText (Ledger.applyDeltas r deltas turns) =
  Ledger.ledgerText turns +:+ Ledger.concatText deltas.
Proof.
  revert turns. induction deltas as [|d deltas IH]; intros turns.
  - simpl. by rewrite append_empty_r.
  - change (Ledger.applyDeltas r (d :: deltas) turns) with
      (Ledger.applyDeltas r deltas
         (Ledger.handleTranscription r (Ledger.deltaTime d) (Ledger.deltaText d)
            (Ledger.deltaFinal d) turns)).
    rewrite IH, handleTranscription_text.
    change (Ledger.concatText (d :: deltas)) with
      (Ledger.deltaText d +:+ Ledger.concatText deltas).
    by rewrite append_assoc.
Qed.

Lemma applyDeltas_open r deltas l t :
  Ledger.role t = r -> Ledger.isFinal t = false ->
  Forall (fun d => Ledger.deltaFinal d = false) (removelast deltas) ->
  Ledger.applyDeltas r deltas (l ++ [t]) = l ++ [merged t deltas].
Proof.
  revert t. induction deltas as [|d deltas IH]; intros t Hr Ho Hnf.
  - simpl. unfold merged. simpl. rewrite append_empty_r. by destruct t.
  - change (Ledger.applyDeltas r (d :: deltas) (l ++ [t])) with
      (Ledger.applyDeltas r deltas
         (Ledger.handleTranscription r (Ledger.deltaTime d) (Ledger.deltaText d)
            (Ledger.deltaFinal d) (l ++ [t]))).
    unfold Ledger.handleTranscription. rewrite lastOf_snoc. simpl Ledger.continues.
    rewrite bool_decide_eq_true_2 by done. rewrite Ho. simpl.
    rewrite updateLastTurn_snoc.
    destruct deltas as [|d' deltas].
    + simpl. unfold merged, Ledger.spread. simpl. by rewrite append_empty_r.
    + change (removelast (d :: d' :: deltas)) with (d :: removelast (d' :: deltas)) in Hnf.
      apply Forall_cons in Hnf as [Hd Hnf].
      rewrite IH; [|done|done|done].
      f_equal. f_equal. unfold merged, Ledger.spread.
      change (last (d :: d' :: deltas)) with (last (d' :: deltas)).
      destruct (last_is_Some (d' :: deltas)) as [_ [x Hx]]; [done|].
      rewrite Hx. simpl.
      change (Ledger.concatText (d :: d' :: deltas)) with
        (Ledger.deltaText d +:+ Ledger.concatText (d' :: deltas)).
      by rewrite append_assoc.
Qed.

(** A stream whose deltas are all non-final except possibly the last one,
    arriving when the ledger does not end in an open turn of the role,
    becomes one turn. *)
Lemma applyDeltas_one_turn r d deltas turns :
  Ledger.continues r (Ledger.lastOf turns) = false ->
  Forall (fun x => Ledger.deltaFinal x = false) (removelast (d :: deltas)) ->
  Ledger.applyDeltas r (d :: deltas) turns =
  turns ++ [Ledger.transcriptTurn r (Ledger.concatText (d :: deltas))
              (Ledger.deltaFinal (List.last deltas d)) (Ledger.deltaTime d)].
Proof.
  intros Hc Hnf.
  change (Ledger.applyDeltas r (d :: deltas) turns) with
    (Ledger.applyDeltas r deltas
       (Ledger.handleTranscription r (Ledger.deltaTime d) (Ledger.deltaText d)
          (Ledger.deltaFinal d) turns)).
  assert (Ledger.handleTranscription r (Ledger.deltaTime d) (Ledger.deltaText d)
            (Ledger.deltaFinal d) turns =
          turns ++ [Ledger.transcriptTurn r (Ledger.deltaText d) (Ledger.deltaFinal d)
                      (Ledger.deltaTime d)]) as ->.
  { unfold Ledger.handleTranscription.
    destruct (Ledger.lastOf turns) as [t|]; [|done]. by rewrite Hc. }
  destruct deltas as [|d' deltas].
  - simpl. unfold Ledger.transcriptTurn. by rewrite append_empty_r.
  - change (removelast (d :: d' :: deltas)) with (d :: removelast (d' :: deltas)) in Hnf.
    apply Forall_cons in Hnf as [Hd Hnf].
    rewrite applyDeltas_open; [|done|done|done].
    assert (forall (ds : list Ledger.Delta) a b,
               last (a :: ds) = Some (List.last (a :: ds) b)) as Hlast.
    { clear. induction ds as [|x ds IH]; intros a b; [done|].
      change (last (a :: x :: ds)) with (last (x :: ds)).
      change (List.last (a :: x :: ds) b) with (List.last (x :: ds) b).
      apply IH. }
    f_equal. f_equal. unfold merged, Ledger.transcriptTurn.
    rewrite (Hlast deltas d' d). simpl.
    change (Ledger.concatText (d :: d' :: deltas)) with
      (Ledger.deltaText d +:+ Ledger.concatText (d' :: deltas)).
    done.
Qed.

(** C6: for a stream of transcript deltas of one role, the text the ledger
    holds grows by exactly the concatenation of the delta texts, so two ways
    of cutting the same text into chunks give the same ledger text; a stream
    whose deltas are non-final up to the last one, on a ledger that does not
    end in an open turn of that role, is merged into a single turn holding
    that concatenation; and the deltas Hel, lo , world (false, false, true)
    of the user on an empty ledger give one final user turn Hello world. *)
Theorem chunking_invariance (r : Ledger.Role) :
  (forall deltas turns,
      Ledger.ledgerText (Ledger.applyDeltas r deltas turns) =
      Ledger.ledgerText turns +:+ Ledger.concatText deltas)
  /\ (forall deltas1 deltas2 turns,
      Ledger.concatText deltas1 = Ledger.concatText deltas2 ->
      Ledger.ledgerText (Ledger.applyDeltas r deltas1 turns) =
      Ledger.ledgerText (Ledger.applyDeltas r deltas2 turns))
  /\ (forall d deltas turns,
      Ledger.continues r (Ledger.lastOf turns) = false ->
      Forall (fun x => Ledger.deltaFinal x = false) (removelast (d :: deltas)) ->
      Ledger.applyDeltas r (d :: deltas) turns =
      turns ++ [Ledger.mkTurn (Ledger.deltaTime d) r (Ledger.concatText (d :: deltas))
                  (Ledger.deltaFinal (List.last deltas d)) None None None false])
  /\ Ledger.run [Ledger.InputTranscription 0 "Hel" false;
                 Ledger.InputTranscription 1 "lo " false;
                 Ledger.InputTranscription 2 "world" true] []
     = [Ledger.mkTurn 0 Ledger.user "Hello world" true None None None false].
Proof.
  split; [intros; apply applyDeltas_text|].
  split; [intros ??? H; by rewrite !applyDeltas_text, H|].
  split; [intros; by apply applyDeltas_one_turn|].
  reflexivity.
Qed.

Lemma chunking_invariance_witness :
  Ledger.applyDeltas Ledger.user
    [ {| Ledger.deltaTime := 0; Ledger.deltaText := "Hel"; Ledger.deltaFinal := false |};
      {| Ledger.deltaTime := 1; Ledger.deltaText := "lo "; Ledger.deltaFinal := false |};
      {| Ledger.deltaTime := 2; Ledger.deltaText := "world"; Ledger.deltaFinal := true |} ] []
  = [Ledger.mkTurn 0 Ledger.user "Hello world" true None None None false].
Proof.
  destruct (chunking_invariance Ledger.user) as (_ & _ & H & _).
  apply (H {| Ledger.deltaTime := 0; Ledger.deltaText := "Hel"; Ledger.deltaFinal := false |}
           [ {| Ledger.deltaTime := 1; Ledger.deltaText := "lo "; Ledger.deltaFinal := false |};
             {| Ledger.deltaTime := 2; Ledger.deltaText := "world"; Ledger.deltaFinal := true |} ]
           []).
  - reflexivity.
  - simpl. repeat constructor.
Defined.

(** ** Background tasks: bulk clearing (C10) *)

(** C10: [clearCompletedTasks] keeps exactly the running tasks: a task is
    kept if and only if it was in the store with status running (so the
    completed and the failed ones both go), the kept tasks are the store's
    own records in their original order, and what is removed is exactly the
    tasks that are not running. *)
Theorem clearCompletedTasks_keeps_running (tasks : list BackgroundTask.t) :
  (forall t, t ∈ Tasks.clearCompletedTasks tasks <->
             t ∈ tasks /\ BackgroundTask.status t = BackgroundTask.running)
  /\ sublist (Tasks.clearCompletedTasks tasks) tasks
  /\ Tasks.clearCompletedTasks tasks
       ++ filter (fun t => BackgroundTask.status t <> BackgroundTask.running) tasks
     ≡ₚ tasks
  /\ Tasks.clearCompletedTasks (Tasks.clearCompletedTasks tasks)
     = Tasks.clearCompletedTasks tasks.
Proof.
  unfold Tasks.clearCompletedTasks. split; [|split; [|split]].
  - intros t. rewrite list_elem_of_filter. tauto.
  - apply sublist_filter.
  - apply filter_app_complement.
  - induction tasks as [|t tasks IH]; [done|].
    rewrite filter_cons. destruct (decide _) as [E|E]; [|done].
    rewrite filter_cons_True by done. by rewrite IH.
Qed.

(** ** Background tasks: progress (C8) *)

Lemma rising_weaken p p' updates : (p' <= p)%Q -> rising p updates -> rising p' updates.
Proof.
  revert p p'. induction updates as [|u rest IH]; intros p p' Hle; [done|].
  simpl. destruct (BackgroundTask.setProgress u) as [q|].
  - intros (H1 & H2 & H3). split; [|done]. by eapply Qle_trans.
  - by apply IH.
Qed.

Lemma rising_take p k updates : rising p updates -> rising p (take k updates).
Proof.
  revert p k. induction updates as [|u rest IH]; intros p k; [by destruct k|].
  destruct k; [done|]. simpl.
  destruct (BackgroundTask.setProgress u) as [q|].
  - intros (H1 & H2 & H3). auto.
  - apply IH.
Qed.

Lemma rising_then_failed p updates msg :
  rising p updates -> rising p (updates ++ [Tasks.failedUpdate msg]).
Proof.
  revert p. induction updates as [|u rest IH]; intros p; [done|].
  simpl. destruct (BackgroundTask.setProgress u) as [q|].
  - intros (H1 & H2 & H3). auto.
  - apply IH.
Qed.

Lemma videoPolling_rising apiKey polls :
  forall progress op p,
    (p <= inject_Z progress)%Q -> (progress <= 90)%Z ->
    rising p (Tasks.videoPolling apiKey progress op polls).
Proof.
  assert (forall p progress op, (p <= inject_Z progress)%Q -> (progress <= 90)%Z ->
            rising p [Tasks.videoFinish apiKey op]) as Hfin.
  { intros p progress op Hp Hb. unfold Tasks.videoFinish.
    destruct (Tasks.videoUri op) as [link|]; [|done].
    destruct (negb (bool_decide (link = ""))); [|done].
    simpl. split; [|split; [apply Qle_refl | done]].
    eapply Qle_trans; [exact Hp|]. rewrite <- Zle_Qle. lia. }
  induction polls as [|reply polls IH]; intros progress op p Hp Hb; simpl.
  - destruct (Tasks.done op); [by eapply Hfin | done].
  - destruct (Tasks.done op); [by eapply Hfin|].
    destruct reply as [msg|op']; [done|].
    simpl. split; [|split].
    + eapply Qle_trans; [exact Hp|]. rewrite <- Zle_Qle. lia.
    + rewrite <- Zle_Qle. lia.
    + apply IH; [apply Qle_refl | lia].
Qed.

Lemma videoUpdates_rising apiKey start polls :
  rising (inject_Z 5) (Tasks.videoUpdates apiKey start polls).
Proof.
  destruct start as [msg|op]; [done|]. simpl.
  apply videoPolling_rising; [|lia]. by rewrite <- Zle_Qle.
Qed.

Lemma assetProgress_mono a b total :
  0 < total -> a <= b -> (Tasks.assetProgress a total <= Tasks.assetProgress b total)%Q.
Proof.
  intros Ht Hab. unfold Tasks.assetProgress.
  apply Qplus_le_r. apply Qmult_le_compat_r; [|done].
  unfold Qdiv. apply Qmult_le_compat_r.
  - rewrite <- Zle_Qle. lia.
  - apply Qinv_le_0_compat. rewrite <- (Zle_Qle 0). lia.
Qed.

Lemma assetProgress_full total :
  0 < total -> (Tasks.assetProgress total total == inject_Z 90)%Q.
Proof.
  intros Ht. unfold Tasks.assetProgress.
  rewrite Qmult_comm. unfold Qdiv. rewrite Qmult_inv_r.
  - reflexivity.
  - intros H. unfold Qeq in H. simpl in H. lia.
Qed.

Lemma assetProgress_le_90 a total :
  0 < total -> a <= total -> (Tasks.assetProgress a total <= inject_Z 90)%Q.
Proof.
  intros Ht Ha. rewrite <- (assetProgress_full total Ht).
  by apply assetProgress_mono.
Qed.

Lemma slidesUpdates_rising total titles :
  forall step p rest,
    step + 2 * length titles = total ->
    (p <= inject_Z 90)%Q ->
    (0 < length titles -> (p <= Tasks.assetProgress step total)%Q) ->
    (forall q, (q <= inject_Z 90)%Q -> rising q rest) ->
    rising p (Tasks.slidesUpdates total step titles ++ rest).
Proof.
  induction titles as [|title titles IH]; intros step p rest Hlen Hp Hstep Hrest.
  - simpl. by apply Hrest.
  - simpl in Hlen. assert (0 < total) as Ht by lia.
    assert (inject_Z 90 <= inject_Z 100)%Q as H90 by (rewrite <- Zle_Qle; lia).
    change (Tasks.slidesUpdates total step (title :: titles) ++ rest) with
      (Tasks.progressUpdate (Tasks.assetProgress (step + 1) total)
         ("Generated image for: " +:+ title)
       :: Tasks.progressUpdate (Tasks.assetProgress (step + 2) total)
            ("Generated narration for: " +:+ title)
       :: (Tasks.slidesUpdates total (step + 2) titles ++ rest)).
    simpl. split; [|split; [|split; [|split]]].
    + eapply Qle_trans; [apply Hstep; simpl; lia|]. apply assetProgress_mono; lia.
    + eapply Qle_trans; [apply assetProgress_le_90; lia | exact H90].
    + apply assetProgress_mono; lia.
    + eapply Qle_trans; [apply assetProgress_le_90; lia | exact H90].
    + apply IH; [lia | apply assetProgress_le_90; lia | intros _; apply Qle_refl | done].
Qed.

Lemma presentationUpdates_rising view titles reached thrown :
  rising (inject_Z 0) (Tasks.presentationUpdates view titles reached thrown).
Proof.
  assert (rising (inject_Z 0) (Tasks.presentationScript view titles)) as Hs.
  { unfold Tasks.presentationScript. simpl.
    split; [by rewrite <- Zle_Qle|]. split; [by rewrite <- Zle_Qle|].
    apply slidesUpdates_rising.
    - lia.
    - by rewrite <- Zle_Qle.
    - intros Hpos. unfold Tasks.assetProgress. simpl Z.of_nat.
      change (inject_Z 0) with 0%Q. unfold Qdiv.
      rewrite !Qmult_0_l, Qplus_0_r. apply Qle_refl.
    - intros q Hq. simpl. split; [|split; [by rewrite <- Zle_Qle|]].
      + eapply Qle_trans; [exact Hq|]. by rewrite <- Zle_Qle.
      + split; [by rewrite <- Zle_Qle | split; [apply Qle_refl | done]]. }
  unfold Tasks.presentationUpdates. destruct thrown as [msg|].
  - apply rising_then_failed. by apply rising_take.
  - rewrite app_nil_r. by apply rising_take.
Qed.

Lemma taskOf_updateTask i u tasks :
  Tasks.taskOf i (Tasks.updateTask i u tasks) =
  (fun t => Tasks.spread t u) <$> Tasks.taskOf i tasks.
Proof.
  induction tasks as [|t tasks IH]; [done|].
  unfold Tasks.taskOf, Tasks.updateTask in *. simpl.
  destruct (bool_decide (BackgroundTask.id t = i)) eqn:E.
  - simpl. by rewrite E.
  - rewrite E. apply IH.
Qed.

Lemma progressTrace_step i u rest tasks t :
  Tasks.taskOf i tasks = Some t ->
  Tasks.progressTrace i (u :: rest) tasks =
  BackgroundTask.progress t :: Tasks.progressTrace i rest (Tasks.updateTask i u tasks).
Proof.
  intros Ht. unfold Tasks.progressTrace.
  change (Tasks.history i (u :: rest) tasks) with
    (Tasks.updateTask i u tasks :: Tasks.history i rest (Tasks.updateTask i u tasks)).
  cbn [omap list_omap]. by rewrite Ht.
Qed.

Lemma progressTrace_rising i updates :
  forall tasks t,
    Tasks.taskOf i tasks = Some t ->
    inRange (BackgroundTask.progress t) ->
    rising (BackgroundTask.progress t) updates ->
    head (Tasks.progressTrace i updates tasks) = Some (BackgroundTask.progress t)
    /\ length (Tasks.progressTrace i updates tasks) = S (length updates)
    /\ Sorted Qle (Tasks.progressTrace i updates tasks)
    /\ Forall inRange (Tasks.progressTrace i updates tasks).
Proof.
  induction updates as [|u rest IH]; intros tasks t Ht Hr Hrise.
  - unfold Tasks.progressTrace. simpl. rewrite Ht. simpl.
    repeat split; try done; repeat constructor; apply Hr.
  - rewrite (progressTrace_step _ _ _ _ _ Ht).
    pose proof (taskOf_updateTask i u tasks) as Ht'. rewrite Ht in Ht'. simpl in Ht'.
    assert ((BackgroundTask.progress t <= BackgroundTask.progress (Tasks.spread t u))%Q
            /\ inRange (BackgroundTask.progress (Tasks.spread t u))
            /\ rising (BackgroundTask.progress (Tasks.spread t u)) rest) as (Hle & Hr' & Hrise').
    { simpl in Hrise. unfold Tasks.spread. simpl.
      destruct (BackgroundTask.setProgress u) as [q|]; simpl.
      - destruct Hrise as (H1 & H2 & H3). split; [done|]. split; [|done].
        split; [|done]. eapply Qle_trans; [apply Hr | done].
      - split; [apply Qle_refl | done]. }
    destruct (IH _ _ Ht' Hr' Hrise') as (Hhd & Hlen & Hsorted & Hall).
    split; [done|]. split; [simpl; by rewrite Hlen|]. split; [|by constructor].
    constructor; [done|].
    destruct (Tasks.progressTrace i rest (Tasks.updateTask i u tasks)) as [|q tr];
      [constructor|]. simpl in Hhd. injection Hhd as ->. by constructor.
Qed.

(** Seven status requests before the video is done, and a three-slide
    presentation, as the store shows them. *)
Example video_progress_trace :
  let pending := Tasks.Returned {| Tasks.done := false; Tasks.videoUri := None |} in
  let finished := Tasks.Returned {| Tasks.done := true; Tasks.videoUri := Some "https://v" |} in
  Tasks.progressTrace "t1"
    (Tasks.videoUpdates "key" pending (replicate 6 pending ++ [finished]))
    (Tasks.addTask "t1" 0 Tasks.videoTask [])
  = inject_Z <$> [5; 25; 40; 55; 70; 85; 90; 90; 100]%Z.
Proof. reflexivity. Qed.

Example presentation_progress_trace :
  Forall2 Qeq
    (Tasks.progressTrace "t2"
       (Tasks.presentationUpdates
          {| BackgroundTask.type := BackgroundTask.view; BackgroundTask.payload := "p" |}
          ["a"; "b"] 7 None)
       (Tasks.addTask "t2" 0 Tasks.presentationTask []))
    (inject_Z <$> [0; 10; 30; 50; 70; 90; 95; 100]%Z).
Proof. repeat constructor. Qed.

(** C8: the progress of the task created by the video generation and by
    the presentation generation, read in the store after each write of the
    execution, never decreases and stays between 0 and 100, whatever the
    services answer and wherever an error interrupts the execution (the
    write of a failure leaves the progress as it is). *)
Theorem background_progress_monotone :
  (forall apiKey newId now tasks start polls,
      let updates := Tasks.videoUpdates apiKey start polls in
      let trace :=
        Tasks.progressTrace newId updates (Tasks.addTask newId now Tasks.videoTask tasks) in
      length trace = S (length updates) /\ Sorted Qle trace /\ Forall inRange trace)
  /\ (forall view titles reached thrown newId now tasks,
      let updates := Tasks.presentationUpdates view titles reached thrown in
      let trace :=
        Tasks.progressTrace newId updates
          (Tasks.addTask newId now Tasks.presentationTask tasks) in
      length trace = S (length updates) /\ Sorted Qle trace /\ Forall inRange trace).
Proof.
  split.
  - intros apiKey newId now tasks start polls updates trace.
    edestruct (progressTrace_rising newId updates
                 (Tasks.addTask newId now Tasks.videoTask tasks)
                 (Tasks.videoTask newId now)) as (_ & H); [| | |exact H].
    + unfold Tasks.taskOf, Tasks.addTask. simpl. by rewrite bool_decide_eq_true_2.
    + split; simpl; by rewrite <- Zle_Qle.
    + apply videoUpdates_rising.
  - intros view titles reached thrown newId now tasks updates trace.
    edestruct (progressTrace_rising newId updates
                 (Tasks.addTask newId now Tasks.presentationTask tasks)
                 (Tasks.presentationTask newId now)) as (_ & H); [| | |exact H].
    + unfold Tasks.taskOf, Tasks.addTask. simpl. by rewrite bool_decide_eq_true_2.
    + split; simpl; by rewrite <- Zle_Qle.
    + apply presentationUpdates_rising.
Qed.

(** ** Dispatcher: one invocation *)

Lemma Good_new fcs user :
  Good fcs {| D.toolCall := fcs; D.caller := user;
              D.functionResponses := []; D.executing := [] |} None [] [].
Proof.
  constructor; simpl.
  - done.
  - by left.
  - intros _ Hne Hlen. by destruct fcs.
  - intros fc H. by apply elem_of_nil in H.
  - done.
  - done.
  - intros fc H _. by left.
Qed.

(** The pending calls are fewer than the calls not answered yet. *)
Lemma Good_pending_lt rest inv pc sent ex k (pend : list (string * string)) :
  Good rest inv pc sent ex ->
  k :: pend ⊆+ D.callKey <$> (D.executing inv ++ option_list pc ++ rest) ->
  length (D.functionResponses inv) < length (D.toolCall inv) /\ sent = [].
Proof.
  intros HG Hk.
  assert (length (D.functionResponses inv) < length (D.toolCall inv)) as Hlt.
  { pose proof (submseteq_length _ _ (g_acc _ _ _ _ _ HG)) as H1.
    pose proof (submseteq_length _ _ Hk) as H2.
    rewrite length_app, !length_fmap in H1. rewrite length_fmap in H2.
    simpl in H2. lia. }
  split; [done|].
  destruct (g_sent _ _ _ _ _ HG) as [?|[_ ?]]; [done | lia].
Qed.

(** An answer followed by the completeness test. *)
Lemma Good_answer rest inv pc sent ex rest' inv' pc' ex' r :
  Good rest inv pc sent ex ->
  D.toolCall inv' = D.toolCall inv ->
  D.caller inv' = D.caller inv ->
  D.functionResponses inv' = D.functionResponses inv ++ [r] ->
  D.responseKey r :: (D.callKey <$> (D.executing inv' ++ option_list pc' ++ rest'))
    ⊆+ D.callKey <$> (D.executing inv ++ option_list pc ++ rest) ->
  (forall fc, pc' = Some fc -> pc = Some fc) ->
  (forall fc, fc ∈ rest' -> fc ∈ rest) ->
  (forall fc, fc ∈ rest -> D.restricted (D.caller inv) fc = true -> fc ∈ rest') ->
  (forall fc, fc ∈ ex' -> fc ∈ ex \/ D.restricted (D.caller inv) fc = false) ->
  Good rest' inv' pc'
    (sent ++ if length (D.functionResponses inv') =? length (D.toolCall inv')
             then [D.functionResponses inv'] else [])
    ex'.
Proof.
  intros HG Htc Hca Hfr Hkeys Hpc Hrest Hrestr Hex.
  destruct (Good_pending_lt _ _ _ _ _ _ _ HG Hkeys) as [Hlt ->].
  constructor.
  - rewrite Hfr, Htc, fmap_app. simpl.
    etrans; [|apply (g_acc _ _ _ _ _ HG)].
    rewrite <- (assoc_L (++)). apply submseteq_skips_l. done.
  - simpl. destruct (_ =? _) eqn:E; [right | by left].
    apply Nat.eqb_eq in E. done.
  - intros _ _ Hlen. simpl. by rewrite Hlen, Nat.eqb_refl.
  - intros fc Hin. rewrite Hca. destruct (Hex fc Hin) as [H|H]; [|done].
    by eapply g_exec.
  - intros fc Hfc. rewrite Hca. eapply g_conf; [done|]. by apply Hpc.
  - intros fc Hin. rewrite Htc. eapply g_rest; [done|]. by apply Hrest.
  - intros fc. rewrite Htc, Hca, Hfr. intros Hin Hr.
    destruct (g_rej _ _ _ _ _ HG fc Hin Hr) as [H|H].
    + left. by apply Hrestr.
    + right. apply elem_of_app. by left.
Qed.

(** A move that answers nothing. *)
Lemma Good_move rest inv pc sent ex rest' inv' pc' ex' :
  Good rest inv pc sent ex ->
  D.toolCall inv' = D.toolCall inv ->
  D.caller inv' = D.caller inv ->
  D.functionResponses inv' = D.functionResponses inv ->
  (D.callKey <$> (D.executing inv' ++ option_list pc' ++ rest'))
    ⊆+ D.callKey <$> (D.executing inv ++ option_list pc ++ rest) ->
  (forall fc, pc' = Some fc ->
              pc = Some fc \/ D.restricted (D.caller inv) fc = false) ->
  (forall fc, fc ∈ rest' -> fc ∈ rest) ->
  (forall fc, fc ∈ rest -> D.restricted (D.caller inv) fc = true -> fc ∈ rest') ->
  (forall fc, fc ∈ ex' -> fc ∈ ex \/ D.restricted (D.caller inv) fc = false) ->
  Good rest' inv' pc' sent ex'.
Proof.
  intros HG Htc Hca Hfr Hkeys Hpc Hrest Hrestr Hex.
  constructor.
  - rewrite Hfr, Htc. etrans; [|apply (g_acc _ _ _ _ _ HG)].
    by apply submseteq_skips_l.
  - rewrite Hfr, Htc. by eapply g_sent.
  - rewrite Hfr, Htc, Hca. by eapply g_live.
  - intros fc Hin. rewrite Hca. destruct (Hex fc Hin) as [H|H]; [|done].
    by eapply g_exec.
  - intros fc Hfc. rewrite Hca. destruct (Hpc fc Hfc) as [H|H]; [|done].
    by eapply g_conf.
  - intros fc Hin. rewrite Htc. eapply g_rest; [done|]. by apply Hrest.
  - intros fc. rewrite Htc, Hca, Hfr. intros Hin Hr.
    destruct (g_rej _ _ _ _ _ HG fc Hin Hr) as [H|H]; [left; by apply Hrestr | by right].
Qed.

(** The rejection of a restricted call: an answer without the test. *)
Lemma Good_reject rest inv pc sent ex inv' fc :
  Good (fc :: rest) inv pc sent ex ->
  D.restricted (D.caller inv) fc = true ->
  D.toolCall inv' = D.toolCall inv ->
  D.caller inv' = D.caller inv ->
  D.executing inv' = D.executing inv ->
  D.functionResponses inv' = D.functionResponses inv ++ [D.restrictedResponse fc] ->
  Good rest inv' pc sent ex.
Proof.
  intros HG Hr Htc Hca Hex Hfr.
  assert (D.callKey fc :: (D.callKey <$> (D.executing inv ++ option_list pc ++ rest))
          ⊆+ D.callKey <$> (D.executing inv ++ option_list pc ++ fc :: rest)) as Hkeys.
  { rewrite !fmap_app, fmap_cons. solve_submseteq. }
  destruct (Good_pending_lt _ _ _ _ _ _ _ HG Hkeys) as [Hlt ->].
  assert (fc ∈ D.toolCall inv) as Hin by (eapply g_rest; [done | by left]).
  constructor.
  - rewrite Hfr, Htc, Hex, fmap_app. simpl.
    etrans; [|apply (g_acc _ _ _ _ _ HG)].
    rewrite <- (assoc_L (++)). apply submseteq_skips_l. exact Hkeys.
  - by left.
  - rewrite Htc, Hca. intros Hnone. exfalso.
    assert (existsb (D.restricted (D.caller inv)) (D.toolCall inv) = true); [|congruence].
    apply existsb_exists. exists fc. split; [by apply list_elem_of_In | done].
  - intros fc' Hin'. rewrite Hca. by eapply g_exec.
  - intros fc' Hfc'. rewrite Hca. by eapply g_conf.
  - intros fc' Hin'. rewrite Htc. eapply g_rest; [done|]. by right.
  - intros fc'. rewrite Htc, Hca, Hfr. intros Hin' Hr'.
    destruct (g_rej _ _ _ _ _ HG fc' Hin' Hr') as [H|H].
    + apply elem_of_cons in H as [->|H]; [|by left].
      right. apply elem_of_app. right. by left.
    + right. apply elem_of_app. by left.
Qed.

(** ** Dispatcher: the state functions seen from one invocation *)

Lemma sendIfComplete_eq b s :
  D.sendIfComplete b s =
  {| D.invocations := D.invocations s; D.confirmation := D.confirmation s;
     D.tools := D.tools s; D.turns := D.turns s;
     D.toolResponses := D.toolResponses s ++ sendNow b s;
     D.executions := D.executions s |}.
Proof.
  unfold D.sendIfComplete, sendNow.
  destruct (D.invocations s !! b) as [inv|].
  - destruct (_ =? _); [done|]. rewrite app_nil_r. by destruct s.
  - rewrite app_nil_r. by destruct s.
Qed.

Lemma sentBy_sendNow b b' s :
  omap (fun p : nat * list FunctionResponse.t =>
          if bool_decide (p.1 = b') then Some p.2 else None) (sendNow b s)
  = if bool_decide (b = b')
    then match D.invocations s !! b with
         | Some inv =>
             if length (D.functionResponses inv) =? length (D.toolCall inv)
             then [D.functionResponses inv] else []
         | None => []
         end
    else [].
Proof.
  unfold sendNow. destruct (D.invocations s !! b) as [inv|]; [|by case_bool_decide].
  destruct (_ =? _); [|by case_bool_decide]. simpl. by case_bool_decide.
Qed.

Lemma invocations_sendIfComplete b s :
  D.invocations (D.sendIfComplete b s) = D.invocations s.
Proof. by rewrite sendIfComplete_eq. Qed.

Lemma pendingOf_sendIfComplete b b' s :
  D.pendingOf b' (D.sendIfComplete b s) = D.pendingOf b' s.
Proof. by rewrite sendIfComplete_eq. Qed.

Lemma executedBy_sendIfComplete b b' s :
  D.executedBy b' (D.sendIfComplete b s) = D.executedBy b' s.
Proof. by rewrite sendIfComplete_eq. Qed.

Lemma sentBy_sendIfComplete b b' s :
  D.sentBy b' (D.sendIfComplete b s) =
  D.sentBy b' s ++
  if bool_decide (b = b')
  then match D.invocations s !! b with
       | Some inv =>
           if length (D.functionResponses inv) =? length (D.toolCall inv)
           then [D.functionResponses inv] else []
       | None => []
       end
  else [].
Proof.
  rewrite sendIfComplete_eq. unfold D.sentBy. simpl.
  by rewrite omap_app, sentBy_sendNow.
Qed.

Lemma executedBy_logExecution b b' fc s :
  D.executedBy b' (D.logExecution b fc s) =
  D.executedBy b' s ++ if bool_decide (b = b') then [fc] else [].
Proof.
  unfold D.executedBy. simpl. rewrite omap_app. simpl. by case_bool_decide.
Qed.

Lemma pendingOf_requestConfirmation b b' fc allTools s :
  D.pendingOf b' (D.requestConfirmation (D.confirmationFor b fc allTools) s)
  = if bool_decide (b = b') then Some fc else None.
Proof. reflexivity. Qed.

Lemma pendingOf_clearConfirmation b' s :
  D.pendingOf b' (D.clearConfirmation s) = None.
Proof. reflexivity. Qed.

Lemma invocations_push b r s :
  D.invocations (D.push b r s) = alter (D.answered r) b (D.invocations s).
Proof. reflexivity. Qed.

Lemma pendingOf_push b r b' s :
  D.pendingOf b' (D.push b r s) = D.pendingOf b' s.
Proof. reflexivity. Qed.

Lemma sentBy_push b r b' s :
  D.sentBy b' (D.push b r s) = D.sentBy b' s.
Proof. reflexivity. Qed.

Lemma executedBy_push b r b' s :
  D.executedBy b' (D.push b r s) = D.executedBy b' s.
Proof. reflexivity. Qed.

Lemma invocations_suspend b fc s :
  D.invocations (D.suspend b fc s) = alter (D.suspended fc) b (D.invocations s).
Proof. reflexivity. Qed.

Lemma pendingOf_suspend b fc b' s :
  D.pendingOf b' (D.suspend b fc s) = D.pendingOf b' s.
Proof. reflexivity. Qed.

Lemma sentBy_suspend b fc b' s :
  D.sentBy b' (D.suspend b fc s) = D.sentBy b' s.
Proof. reflexivity. Qed.

Lemma executedBy_suspend b fc b' s :
  D.executedBy b' (D.suspend b fc s) = D.executedBy b' s.
Proof. reflexivity. Qed.

Lemma invocations_resume b k s :
  D.invocations (D.resume b k s) = alter (D.resumed k) b (D.invocations s).
Proof. reflexivity. Qed.

Lemma pendingOf_resume b k b' s :
  D.pendingOf b' (D.resume b k s) = D.pendingOf b' s.
Proof. reflexivity. Qed.

Lemma sentBy_resume b k b' s :
  D.sentBy b' (D.resume b k s) = D.sentBy b' s.
Proof. reflexivity. Qed.

Lemma executedBy_resume b k b' s :
  D.executedBy b' (D.resume b k s) = D.executedBy b' s.
Proof. reflexivity. Qed.

Lemma invocations_logExecution b fc s :
  D.invocations (D.logExecution b fc s) = D.invocations s.
Proof. reflexivity. Qed.

Lemma pendingOf_logExecution b fc b' s :
  D.pendingOf b' (D.logExecution b fc s) = D.pendingOf b' s.
Proof. reflexivity. Qed.

Lemma sentBy_logExecution b fc b' s :
  D.sentBy b' (D.logExecution b fc s) = D.sentBy b' s.
Proof. reflexivity. Qed.

Lemma invocations_logTurn now turn s :
  D.invocations (D.logTurn now turn s) = D.invocations s.
Proof. reflexivity. Qed.

Lemma pendingOf_logTurn now turn b' s :
  D.pendingOf b' (D.logTurn now turn s) = D.pendingOf b' s.
Proof. reflexivity. Qed.

Lemma sentBy_logTurn now turn b' s :
  D.sentBy b' (D.logTurn now turn s) = D.sentBy b' s.
Proof. reflexivity. Qed.

Lemma executedBy_logTurn now turn b' s :
  D.executedBy b' (D.logTurn now turn s) = D.executedBy b' s.
Proof. reflexivity. Qed.

Lemma invocations_requestConfirmation c s :
  D.invocations (D.requestConfirmation c s) = D.invocations s.
Proof. reflexivity. Qed.

Lemma sentBy_requestConfirmation c b' s :
  D.sentBy b' (D.requestConfirmation c s) = D.sentBy b' s.
Proof. reflexivity. Qed.

Lemma executedBy_requestConfirmation c b' s :
  D.executedBy b' (D.requestConfirmation c s) = D.executedBy b' s.
Proof. reflexivity. Qed.

Lemma invocations_clearConfirmation s :
  D.invocations (D.clearConfirmation s) = D.invocations s.
Proof. reflexivity. Qed.

Lemma sentBy_clearConfirmation b' s :
  D.sentBy b' (D.clearConfirmation s) = D.sentBy b' s.
Proof. reflexivity. Qed.

Lemma executedBy_clearConfirmation b' s :
  D.executedBy b' (D.clearConfirmation s) = D.executedBy b' s.
Proof. reflexivity. Qed.

Create Rewrite HintDb views.

#[global] Hint Rewrite
  invocations_sendIfComplete pendingOf_sendIfComplete executedBy_sendIfComplete
  sentBy_sendIfComplete executedBy_logExecution pendingOf_requestConfirmation
  pendingOf_clearConfirmation invocations_push pendingOf_push sentBy_push
  executedBy_push invocations_suspend pendingOf_suspend sentBy_suspend
  executedBy_suspend invocations_resume pendingOf_resume sentBy_resume
  executedBy_resume invocations_logExecution pendingOf_logExecution sentBy_logExecution
  invocations_logTurn pendingOf_logTurn sentBy_logTurn executedBy_logTurn
  invocations_requestConfirmation sentBy_requestConfirmation
  executedBy_requestConfirmation invocations_clearConfirmation sentBy_clearConfirmation
  executedBy_clearConfirmation
  : views.

Lemma Good_drop_pending rest inv pc sent ex :
  Good rest inv pc sent ex -> Good rest inv None sent ex.
Proof.
  intros HG. apply (Good_move rest inv pc sent ex); try done.
  - rewrite !fmap_app. destruct pc; simpl; solve_submseteq.
  - intros fc H. by left.
Qed.

(** A state function that concerns invocation [b] only. *)
Lemma Inv_touch b0 rest rest' b s s' :
  b = b0 \/ rest' = rest ->
  (forall b', b' <> b ->
     D.invocations s' !! b' = D.invocations s !! b'
     /\ D.sentBy b' s' = D.sentBy b' s
     /\ D.executedBy b' s' = D.executedBy b' s
     /\ (D.pendingOf b' s' = D.pendingOf b' s \/ D.pendingOf b' s' = None)) ->
  match D.invocations s !! b with
  | Some inv =>
      Good (restOf b b0 rest) inv (D.pendingOf b s) (D.sentBy b s) (D.executedBy b s) ->
      exists inv',
        D.invocations s' !! b = Some inv'
        /\ Good (restOf b b0 rest') inv' (D.pendingOf b s') (D.sentBy b s')
             (D.executedBy b s')
  | None =>
      D.invocations s' !! b = None /\ D.pendingOf b s' = None
      /\ D.sentBy b s' = [] /\ D.executedBy b s' = []
  end ->
  Inv b0 rest s -> Inv b0 rest' s'.
Proof.
  intros Hb Hframe Hmain HI b'.
  destruct (decide (b' = b)) as [->|Hne].
  - specialize (HI b). destruct (D.invocations s !! b) as [inv|].
    + destruct (Hmain HI) as (inv' & -> & HG). done.
    + destruct Hmain as (-> & ? & ? & ?). done.
  - destruct (Hframe b' Hne) as (-> & -> & -> & Hp).
    specialize (HI b').
    assert (restOf b' b0 rest' = restOf b' b0 rest) as ->.
    { destruct Hb as [->| ->]; [|done]. unfold restOf.
      by rewrite !bool_decide_eq_false_2. }
    destruct (D.invocations s !! b') as [inv|].
    + destruct Hp as [-> | ->]; [done | by eapply Good_drop_pending].
    + destruct HI as (HI1 & HI2 & HI3). by destruct Hp as [-> | ->].
Qed.

Ltac frame :=
  let b' := fresh "b'" in
  let Hne := fresh "Hne" in
  intros b' Hne; autorewrite with views;
  rewrite ?list_lookup_alter_ne by done;
  rewrite ?bool_decide_eq_false_2 by done;
  rewrite ?app_nil_r; auto.

Ltac focus Hinv HG :=
  rewrite Hinv; unfold restOf; rewrite ?bool_decide_eq_true_2 by done;
  intros HG; eexists; split;
  [ autorewrite with views; rewrite ?list_lookup_alter_eq, ?Hinv; reflexivity
  | autorewrite with views; rewrite ?bool_decide_eq_true_2 by done;
    rewrite ?list_lookup_alter_eq, ?Hinv ].

(** The rejection of the restricted call at the head of the loop. *)
Lemma Inv_reject b0 fc rest s inv :
  D.invocations s !! b0 = Some inv ->
  D.restricted (D.caller inv) fc = true ->
  Inv b0 (fc :: rest) s ->
  Inv b0 rest (D.push b0 (D.restrictedResponse fc) s).
Proof.
  intros Hinv Hr. apply (Inv_touch b0 _ _ b0); [by left | frame |].
  focus Hinv HG. by apply (Good_reject _ _ _ _ _ _ _ HG).
Qed.

(** The confirmation request for the sensitive call at the head of the
    loop: whatever was pending is dropped. *)
Lemma Inv_request b0 fc rest s inv allTools :
  D.invocations s !! b0 = Some inv ->
  D.restricted (D.caller inv) fc = false ->
  Inv b0 (fc :: rest) s ->
  Inv b0 rest (D.requestConfirmation (D.confirmationFor b0 fc allTools) s).
Proof.
  intros Hinv Hr. apply (Inv_touch b0 _ _ b0); [by left | frame |].
  focus Hinv HG.
  apply (Good_move _ _ _ _ _ _ _ _ _ HG); try done.
  - rewrite !fmap_app. simpl. destruct (D.pendingOf b0 s); simpl; solve_submseteq.
  - intros fc' [= <-]. by right.
  - intros fc' H. by right.
  - intros fc' H Hr'. apply elem_of_cons in H as [->|H]; [congruence | done].
  - intros fc' H. by left.
Qed.

Lemma elem_of_snoc_or (ex : list FunctionCall.t) fc fc' :
  fc' ∈ ex ++ [fc] -> fc' ∈ ex \/ fc' = fc.
Proof.
  intros H. apply elem_of_app in H as [H|H]; [by left|].
  apply list_elem_of_singleton in H. by right.
Qed.

(** [executeTool] on the call at the head of the loop. *)
Lemma Inv_execute_loop b0 fc rest s inv :
  D.invocations s !! b0 = Some inv ->
  D.restricted (D.caller inv) fc = false ->
  Inv b0 (fc :: rest) s ->
  Inv b0 rest (D.executeTool b0 fc s).
Proof.
  intros Hinv Hr HI.
  assert (Inv b0 rest (D.suspend b0 fc (D.logExecution b0 fc s))) as Hsusp.
  { revert HI. apply (Inv_touch b0 _ _ b0); [by left | frame |].
    focus Hinv HG.
    apply (Good_move _ _ _ _ _ rest (D.suspended fc inv) _ _ HG); try done.
    - simpl. rewrite !fmap_app. simpl. solve_submseteq.
    - intros fc' H. by left.
    - intros fc' H. by right.
    - intros fc' H Hr'. apply elem_of_cons in H as [->|H]; [congruence | done].
    - intros fc' [H| ->]%elem_of_snoc_or; [by left | by right]. }
  unfold D.executeTool.
  destruct (D.strategyOf (FunctionCall.name fc)); try exact Hsusp.
  revert HI. apply (Inv_touch b0 _ _ b0); [by left | frame |].
  focus Hinv HG.
  apply (Good_answer _ _ _ _ _ rest (D.answered (D.nativeResponse fc) inv) _
           (D.executedBy b0 s ++ [fc]) (D.nativeResponse fc) HG); try done.
  - simpl. rewrite !fmap_app. simpl. solve_submseteq.
  - intros fc' H. by right.
  - intros fc' H Hr'. apply elem_of_cons in H as [->|H]; [congruence | done].
  - intros fc' [H| ->]%elem_of_snoc_or; [by left | by right].
Qed.

(** Confirm: [executeTool] on the pending call, then the slot is cleared. *)
Lemma Inv_confirm b fc s :
  D.pendingOf b s = Some fc ->
  Inv b [] s ->
  Inv b [] (D.clearConfirmation (D.executeTool b fc s)).
Proof.
  intros Hp HI.
  pose proof (HI b) as Hb. rewrite Hp in Hb.
  destruct (D.invocations s !! b) as [inv|] eqn:Hinv; [|by destruct Hb].
  assert (D.restricted (D.caller inv) fc = false) as Hr by (by eapply g_conf).
  assert (Inv b [] (D.clearConfirmation (D.suspend b fc (D.logExecution b fc s)))) as Hsusp.
  { revert HI. apply (Inv_touch b _ _ b); [by left | frame |].
    focus Hinv HG.
    apply (Good_move _ _ _ _ _ [] (D.suspended fc inv) _ _ HG); try done.
    - simpl. rewrite Hp, !fmap_app. simpl. solve_submseteq.
    - intros fc' [H| ->]%elem_of_snoc_or; [by left | by right]. }
  unfold D.executeTool.
  destruct (D.strategyOf (FunctionCall.name fc)); try exact Hsusp.
  revert HI. apply (Inv_touch b _ _ b); [by left | frame |].
  focus Hinv HG.
  apply (Good_answer _ _ _ _ _ [] (D.answered (D.nativeResponse fc) inv) None
           (D.executedBy b s ++ [fc]) (D.nativeResponse fc) HG); try done.
  - simpl. rewrite Hp, !fmap_app. simpl. solve_submseteq.
  - intros fc' [H| ->]%elem_of_snoc_or; [by left | by right].
Qed.

(** Cancel: the cancelled entry is pushed, then the slot is cleared. *)
Lemma Inv_cancel b fc s :
  D.pendingOf b s = Some fc ->
  Inv b [] s ->
  Inv b [] (D.clearConfirmation (D.cancelTool b fc s)).
Proof.
  intros Hp HI.
  pose proof (HI b) as Hb. rewrite Hp in Hb.
  destruct (D.invocations s !! b) as [inv|] eqn:Hinv; [|by destruct Hb].
  unfold D.cancelTool.
  revert HI. apply (Inv_touch b _ _ b); [by left | frame |].
  focus Hinv HG.
  apply (Good_answer _ _ _ _ _ [] (D.answered (D.cancelledResponse fc) inv) None
           (D.executedBy b s) (D.cancelledResponse fc) HG); try done.
  - simpl. rewrite Hp, !fmap_app. simpl. solve_submseteq.
  - intros fc' H. by left.
Qed.

(** An executor returns. *)
Lemma Inv_resolve b k fc result s inv :
  D.invocations s !! b = Some inv ->
  D.executing inv !! k = Some fc ->
  Inv b [] s ->
  Inv b [] (D.sendIfComplete b (D.push b (D.executorResponse fc result) (D.resume b k s))).
Proof.
  intros Hinv Hk. apply (Inv_touch b _ _ b); [by left | frame |].
  focus Hinv HG.
  apply (Good_answer _ _ _ _ _ []
           (D.answered (D.executorResponse fc result) (D.resumed k inv))
           (D.pendingOf b s) (D.executedBy b s) (D.executorResponse fc result) HG);
    try done.
  - simpl. rewrite !fmap_app.
    rewrite (delete_Permutation _ _ _ Hk) at 2. simpl. solve_submseteq.
  - intros fc' H. by left.
Qed.

(** An executor throws. *)
Lemma Inv_throw b k s : Inv b [] s -> Inv b [] (D.resume b k s).
Proof.
  intros HI. pose proof (HI b) as Hb. revert HI.
  apply (Inv_touch b _ _ b); [by left | frame |].
  unfold restOf in *. rewrite bool_decide_eq_true_2 in * by done.
  destruct (D.invocations s !! b) as [inv|] eqn:Hinv.
  - intros HG. eexists. split.
    { autorewrite with views. rewrite list_lookup_alter_eq, Hinv. reflexivity. }
    autorewrite with views.
    apply (Good_move _ _ _ _ _ [] (D.resumed k inv) _ _ HG); try done.
    + simpl. rewrite !fmap_app. apply submseteq_skips_r, fmap_submseteq.
      apply sublist_submseteq, sublist_delete.
    + intros fc H. by left.
    + intros fc H. by left.
  - autorewrite with views. rewrite list_lookup_alter_eq, Hinv. done.
Qed.

Lemma restOf_nil b b0 : restOf b b0 [] = [].
Proof. unfold restOf. by case_bool_decide. Qed.

Lemma Inv_nil_any b0 b1 s : Inv b0 [] s -> Inv b1 [] s.
Proof. intros HI b. specialize (HI b). by rewrite restOf_nil in *. Qed.

(** Clearing or overwriting the slot with a request of another component
    drops the pending call, whichever invocation it belongs to. *)
Lemma Inv_forget b0 rest s s' :
  D.invocations s' = D.invocations s ->
  (forall b, D.sentBy b s' = D.sentBy b s) ->
  (forall b, D.executedBy b s' = D.executedBy b s) ->
  (forall b, D.pendingOf b s' = None) ->
  Inv b0 rest s -> Inv b0 rest s'.
Proof.
  intros Hi Hs He Hp HI b. specialize (HI b). rewrite Hi, Hs, He, Hp.
  destruct (D.invocations s !! b) as [inv|].
  - by eapply Good_drop_pending.
  - by destruct HI as (_ & ? & ?).
Qed.

Lemma Inv_logTurn b0 rest now turn s :
  Inv b0 rest s -> Inv b0 rest (D.logTurn now turn s).
Proof. intros HI b. apply (HI b). Qed.

(** A new invocation, before its loop starts. *)
Lemma Inv_new fcs user s :
  Inv 0 [] s ->
  Inv (length (D.invocations s)) fcs
    (D.setInvocations
       (fun invs => invs ++ [ {| D.toolCall := fcs; D.caller := user;
                                D.functionResponses := []; D.executing := [] |} ]) s).
Proof.
  intros HI b. specialize (HI b). rewrite restOf_nil in HI.
  change (D.pendingOf b (D.setInvocations _ s)) with (D.pendingOf b s).
  change (D.sentBy b (D.setInvocations _ s)) with (D.sentBy b s).
  change (D.executedBy b (D.setInvocations _ s)) with (D.executedBy b s).
  change (D.invocations (D.setInvocations _ s)) with
    (D.invocations s ++ [ {| D.toolCall := fcs; D.caller := user;
                             D.functionResponses := []; D.executing := [] |} ]).
  destruct (decide (b < length (D.invocations s))) as [Hlt|Hge].
  - rewrite lookup_app_l by done.
    destruct (lookup_lt_is_Some_2 _ _ Hlt) as [inv Hinv]. rewrite Hinv in *.
    unfold restOf. rewrite bool_decide_eq_false_2 by lia. done.
  - rewrite (lookup_ge_None_2 (D.invocations s)) in HI by lia.
    destruct HI as (-> & -> & ->).
    destruct (decide (b = length (D.invocations s))) as [->|Hne].
    + rewrite lookup_app_r by lia. rewrite Nat.sub_diag. simpl.
      unfold restOf. rewrite bool_decide_eq_true_2 by done. apply Good_new.
    + rewrite lookup_ge_None_2; [done|]. rewrite length_app. simpl. lia.
Qed.

(** The caller and the batch of an invocation never change. *)
Lemma alter_same_batch (f : D.Invocation -> D.Invocation) (b b' : nat)
    (invs : list D.Invocation) :
  (forall inv, D.toolCall (f inv) = D.toolCall inv /\ D.caller (f inv) = D.caller inv) ->
  (fun inv => (D.toolCall inv, D.caller inv)) <$> (alter f b invs !! b')
  = (fun inv => (D.toolCall inv, D.caller inv)) <$> (invs !! b').
Proof.
  intros Hf. rewrite list_lookup_alter. case_decide as E; [subst b'|done].
  destruct (invs !! b) as [inv|]; [|done]. simpl.
  by destruct (Hf inv) as [-> ->].
Qed.

Lemma batchOf_push b r b' s : batchOf b' (D.push b r s) = batchOf b' s.
Proof. by apply alter_same_batch. Qed.

Lemma batchOf_suspend b fc b' s : batchOf b' (D.suspend b fc s) = batchOf b' s.
Proof. by apply alter_same_batch. Qed.

Lemma batchOf_resume b k b' s : batchOf b' (D.resume b k s) = batchOf b' s.
Proof. by apply alter_same_batch. Qed.

Lemma batchOf_sendIfComplete b b' s : batchOf b' (D.sendIfComplete b s) = batchOf b' s.
Proof. unfold batchOf. by rewrite invocations_sendIfComplete. Qed.

Lemma batchOf_executeTool b fc b' s : batchOf b' (D.executeTool b fc s) = batchOf b' s.
Proof.
  unfold D.executeTool.
  destruct (D.strategyOf (FunctionCall.name fc));
    by rewrite ?batchOf_sendIfComplete, ?batchOf_push, ?batchOf_suspend.
Qed.

Lemma batchOf_processCall now b user fc b' s :
  batchOf b' (D.processCall now b user s fc) = batchOf b' s.
Proof.
  unfold D.processCall. destruct (D.restricted user fc); [apply batchOf_push|].
  destruct (D.includes D.SENSITIVE_TOOLS (FunctionCall.name fc)); [done|].
  by rewrite batchOf_executeTool.
Qed.

(** One turn of the loop of invocation [b0]. *)
Lemma Inv_processCall now b0 user fc rest s fcs :
  batchOf b0 s = Some (fcs, user) ->
  Inv b0 (fc :: rest) s ->
  Inv b0 rest (D.processCall now b0 user s fc).
Proof.
  unfold batchOf. intros Hb HI.
  destruct (D.invocations s !! b0) as [inv|] eqn:Hinv; [|done].
  simpl in Hb. injection Hb as Htc Hca.
  unfold D.processCall. rewrite <- Hca.
  destruct (D.restricted (D.caller inv) fc) eqn:Hr.
  - by eapply Inv_reject.
  - destruct (D.includes D.SENSITIVE_TOOLS (FunctionCall.name fc)).
    + eapply Inv_request; [done | done |]. by apply Inv_logTurn.
    + eapply Inv_execute_loop; [done | done |]. by apply Inv_logTurn.
Qed.

Lemma Inv_loop now b0 user fcs rest :
  forall s,
    batchOf b0 s = Some (fcs, user) ->
    Inv b0 rest s ->
    Inv b0 [] (fold_left (D.processCall now b0 user) rest s).
Proof.
  induction rest as [|fc rest IH]; intros s Hb HI; [done|].
  simpl. apply IH.
  - by rewrite batchOf_processCall.
  - by eapply Inv_processCall.
Qed.

Lemma Inv_onToolCall now user fcs s :
  Inv 0 [] s -> Inv 0 [] (D.onToolCall now user fcs s).
Proof.
  intros HI. unfold D.onToolCall.
  eapply Inv_nil_any, (Inv_loop now _ user fcs fcs).
  - unfold batchOf. simpl. rewrite lookup_app_r by lia. by rewrite Nat.sub_diag.
  - by apply Inv_new.
Qed.

Lemma pendingOf_ToolCallK b fc c s :
  D.confirmation s = Some c -> D.continuation c = D.ToolCallK b fc ->
  D.pendingOf b s = Some fc.
Proof.
  intros Hc Hk. unfold D.pendingOf. rewrite Hc, Hk.
  by rewrite bool_decide_eq_true_2.
Qed.

Lemma Inv_step s e : Inv 0 [] s -> Inv 0 [] (D.step s e).
Proof.
  intros HI. destruct e as [now user fcs|b k result|b k| | |config]; simpl.
  - by apply Inv_onToolCall.
  - destruct (D.invocations s !! b) as [inv|] eqn:Hinv; simpl; [|done].
    destruct (D.executing inv !! k) as [fc|] eqn:Hk; [|done].
    eapply Inv_nil_any, Inv_resolve; [done | done |]. by eapply Inv_nil_any.
  - eapply Inv_nil_any, Inv_throw. by eapply Inv_nil_any.
  - destruct (D.confirmation s) as [c|] eqn:Hc; [|done].
    destruct (D.continuation c) as [b fc|] eqn:Hk.
    + eapply Inv_nil_any, Inv_confirm; [by eapply pendingOf_ToolCallK|].
      by eapply Inv_nil_any.
    + by apply (Inv_forget _ _ s).
  - destruct (D.confirmation s) as [c|] eqn:Hc; [|done].
    destruct (D.continuation c) as [b fc|] eqn:Hk.
    + eapply Inv_nil_any, Inv_cancel; [by eapply pendingOf_ToolCallK|].
      by eapply Inv_nil_any.
    + by apply (Inv_forget _ _ s).
  - by apply (Inv_forget _ _ s).
Qed.

Lemma Inv_init allTools : Inv 0 [] (D.init allTools).
Proof. intros b. by destruct b. Qed.

Lemma D_run_snoc events e s : D.run (events ++ [e]) s = D.step (D.run events s) e.
Proof. unfold D.run. by rewrite fold_left_app. Qed.

Lemma Inv_run allTools events : Inv 0 [] (D.run events (D.init allTools)).
Proof.
  induction events as [|e events IH] using rev_ind; [apply Inv_init|].
  rewrite D_run_snoc. by apply Inv_step.
Qed.

(** ** Dispatcher: the batch of an invocation *)

Lemma batchOf_fold now b user fcs :
  forall s b', batchOf b' (fold_left (D.processCall now b user) fcs s) = batchOf b' s.
Proof.
  induction fcs as [|fc fcs IH]; intros s b'; [done|].
  simpl. by rewrite IH, batchOf_processCall.
Qed.

Lemma batchOf_onToolCall_new now user fcs s :
  batchOf (length (D.invocations s)) (D.onToolCall now user fcs s) = Some (fcs, user).
Proof.
  unfold D.onToolCall. rewrite batchOf_fold. unfold batchOf. simpl.
  rewrite lookup_app_r by lia. by rewrite Nat.sub_diag.
Qed.

Lemma batchOf_step b s e x : batchOf b s = Some x -> batchOf b (D.step s e) = Some x.
Proof.
  intros Hb. destruct e as [now user fcs|b1 k result|b1 k| | |config]; simpl.
  - unfold D.onToolCall. rewrite batchOf_fold. unfold batchOf in *. simpl.
    destruct (D.invocations s !! b) as [inv|] eqn:Hinv; [|done].
    by rewrite (lookup_app_l_Some _ _ _ _ Hinv).
  - destruct (D.invocations s !! b1 ≫= _); [|done].
    by rewrite batchOf_sendIfComplete, batchOf_push, batchOf_resume.
  - by rewrite batchOf_resume.
  - destruct (D.confirmation s) as [c|]; [|done].
    destruct (D.continuation c); [|done].
    change (batchOf b (D.clearConfirmation ?t)) with (batchOf b t).
    by rewrite batchOf_executeTool.
  - destruct (D.confirmation s) as [c|]; [|done].
    destruct (D.continuation c); [|done].
    change (batchOf b (D.clearConfirmation ?t)) with (batchOf b t).
    unfold D.cancelTool. by rewrite batchOf_sendIfComplete, batchOf_push.
  - done.
Qed.

Lemma batchOf_run b x events :
  forall s, batchOf b s = Some x -> batchOf b (D.run events s) = Some x.
Proof.
  induction events as [|e events IH]; intros s Hb; [done|].
  simpl. apply IH. by apply batchOf_step.
Qed.

Lemma Inv_run_from events : forall s, Inv 0 [] s -> Inv 0 [] (D.run events s).
Proof.
  induction events as [|e events IH]; intros s HI; [done|].
  simpl. apply IH. by apply Inv_step.
Qed.

(** The state reached by a batch delivered after the events [pre] and
    followed by the events [post]: the invocation of the batch, with the
    batch and the caller it was created with, satisfies the accounting. *)
Lemma batch_Good allTools pre now user fcs post :
  let s0 := D.run pre (D.init allTools) in
  let b := length (D.invocations s0) in
  let s := D.run post (D.onToolCall now user fcs s0) in
  exists inv,
    D.invocations s !! b = Some inv
    /\ D.toolCall inv = fcs /\ D.caller inv = user
    /\ Good [] inv (D.pendingOf b s) (D.sentBy b s) (D.executedBy b s).
Proof.
  intros s0 b s.
  assert (batchOf b s = Some (fcs, user)) as Hb.
  { apply batchOf_run, batchOf_onToolCall_new. }
  assert (Inv 0 [] s) as HI.
  { apply Inv_run_from, Inv_onToolCall, Inv_run. }
  specialize (HI b). unfold batchOf in Hb.
  destruct (D.invocations s !! b) as [inv|]; [|done].
  simpl in Hb. injection Hb as Htc Hca. rewrite restOf_nil in HI.
  by exists inv.
Qed.

(** ** The aggregate tool response (C1) *)

(** C1 (as stated, refuted): two sensitive calls arrive in one batch; the
    request for the second replaces the request for the first in the
    confirmation slot, so once the user has answered the one confirmation
    shown nothing is pending or executing any more, one call of two is
    resolved, and no aggregate response has been sent. *)
Lemma no_aggregate_response_for_replaced_confirmation :
  let s := D.run
             [ D.ToolCall 0 None
                 [ FunctionCall.mk "1" "send_gmail_message" "{}";
                   FunctionCall.mk "2" "send_whatsapp_message" "{}" ];
               D.Cancel ] (D.init []) in
  D.sentBy 0 s = []
  /\ D.confirmation s = None
  /\ (D.executing <$> D.invocations s) = [[]]
  /\ (D.functionResponses <$> D.invocations s)
     = [[FunctionResponse.mk "2" "send_whatsapp_message" "The user cancelled the action."]].
Proof. vm_compute. done. Qed.

(** C1 (amended): for every batch of N calls delivered in one toolcall
    event, whatever happens before and after, the invocation sends at most
    one aggregate response; a response it sends is its whole
    [functionResponses] array at a moment when that array holds exactly N
    entries, one for each call of the batch (same id and name), a denied
    confirmation contributing its cancelled entry; and if the batch is not
    empty and none of its calls takes the restricted path, the response has
    been sent as soon as all N calls are resolved.  (A call whose
    confirmation request was replaced by a later one is never resolved, and
    then nothing is sent.) *)
Theorem aggregate_response_at_most_once allTools pre now user fcs post :
  let s0 := D.run pre (D.init allTools) in
  let b := length (D.invocations s0) in
  let s := D.run post (D.onToolCall now user fcs s0) in
  exists inv,
    D.invocations s !! b = Some inv
    /\ D.toolCall inv = fcs
    /\ length (D.sentBy b s) <= 1
    /\ (forall payload, payload ∈ D.sentBy b s ->
          payload = D.functionResponses inv
          /\ length payload = length fcs
          /\ D.responseKey <$> payload ≡ₚ D.callKey <$> fcs)
    /\ (forall fc, D.pendingOf b s = Some fc ->
          (D.functionResponses <$> D.invocations (D.step s D.Cancel) !! b)
          = Some (D.functionResponses inv ++ [D.cancelledResponse fc]))
    /\ (existsb (D.restricted user) fcs = false -> fcs <> [] ->
        length (D.functionResponses inv) = length fcs ->
        D.sentBy b s = [D.functionResponses inv]).
Proof.
  intros s0 b s.
  destruct (batch_Good allTools pre now user fcs post) as (inv & Hinv & Htc & Hca & HG).
  fold s0 b s in Hinv, HG. exists inv.
  split; [done|]. split; [done|]. split; [|split; [|split]].
  - destruct (g_sent _ _ _ _ _ HG) as [->|[-> _]]; simpl; lia.
  - intros payload Hin.
    destruct (g_sent _ _ _ _ _ HG) as [H|[H Hlen]]; rewrite H in Hin.
    + by apply elem_of_nil in Hin.
    + apply list_elem_of_singleton in Hin as ->. rewrite <- Htc.
      split; [done|]. split; [done|].
      apply submseteq_length_Permutation.
      * etrans; [|apply (g_acc _ _ _ _ _ HG)]. apply submseteq_inserts_r. done.
      * rewrite !length_fmap. lia.
  - intros fc Hp. unfold D.pendingOf in Hp. simpl.
    destruct (D.confirmation s) as [c|]; [|done].
    destruct (D.continuation c) as [b' fc'|]; [|done].
    case_bool_decide; [|done]. injection Hp as ->. subst b'.
    unfold D.cancelTool. autorewrite with views.
    by rewrite list_lookup_alter_eq, Hinv.
  - rewrite <- Htc, <- Hca. apply (g_live _ _ _ _ _ HG).
Qed.

Lemma aggregate_response_at_most_once_witness :
  D.sentBy 0
    (D.run [ D.Resolve 0 0 "[]"; D.Cancel ]
       (D.onToolCall 0 None
          [ FunctionCall.mk "1" "search_web" "{}";
            FunctionCall.mk "2" "send_gmail_message" "{}" ]
          (D.run [] (D.init []))))
  = [ [ FunctionResponse.mk "1" "search_web" "[]";
        FunctionResponse.mk "2" "send_gmail_message" "The user cancelled the action." ] ].
Proof.
  destruct (aggregate_response_at_most_once [] [] 0 None
              [ FunctionCall.mk "1" "search_web" "{}";
                FunctionCall.mk "2" "send_gmail_message" "{}" ]
              [ D.Resolve 0 0 "[]"; D.Cancel ])
    as (inv & Hinv & _ & _ & _ & _ & Hlive).
  vm_compute in Hinv. injection Hinv as <-.
  apply Hlive; [reflexivity | discriminate | reflexivity].
Defined.

(** The rejection branch pushes its entry without the completeness test:
    a batch whose last resolved call is a rejected one has all its entries
    and is not answered. *)
Lemma restricted_batch_not_answered :
  let s := D.run
             [ D.ToolCall 0 (Some {| D.userId := "u1"; D.email := Some "bob@example.com" |})
                 [ FunctionCall.mk "1" "write_code_snippet" "{}" ] ]
             (D.init []) in
  D.sentBy 0 s = []
  /\ (D.functionResponses <$> D.invocations s)
     = [[D.restrictedResponse (FunctionCall.mk "1" "write_code_snippet" "{}")]].
Proof. vm_compute. done. Qed.

(** Once nothing is pending and nothing executes, only a new batch or a new
    request can change the state of the dispatcher. *)
Lemma quiescent_stuck s e :
  D.confirmation s = None ->
  Forall (fun inv => D.executing inv = []) (D.invocations s) ->
  match e with
  | D.ToolCall _ _ _ | D.RequestOther _ => True
  | _ => D.step s e = s
  end.
Proof.
  intros Hc Hq. destruct e as [now user fcs|b k result|b k| | |config]; simpl; try done.
  - destruct (D.invocations s !! b) as [inv|] eqn:Hinv; simpl; [|done].
    rewrite Forall_lookup in Hq. by rewrite (Hq _ _ Hinv).
  - unfold D.resume, D.setInvocations.
    assert (alter (D.resumed k) b (D.invocations s) = D.invocations s) as ->.
    { apply list_eq. intros i. rewrite list_lookup_alter.
      case_decide as E; [subst i|done].
      destruct (D.invocations s !! b) as [inv|] eqn:Hinv; [|done]. simpl.
      rewrite Forall_lookup in Hq. pose proof (Hq _ _ Hinv) as Hex.
      destruct inv as [tc ca fr ex]. simpl in Hex. by subst ex. }
    by destruct s.
  - by rewrite Hc.
  - by rewrite Hc.
Qed.

(** ** The Confirmation Gate (C2) *)

Lemma confirmation_sendIfComplete b s :
  D.confirmation (D.sendIfComplete b s) = D.confirmation s.
Proof. by rewrite sendIfComplete_eq. Qed.

Lemma tools_sendIfComplete b s : D.tools (D.sendIfComplete b s) = D.tools s.
Proof. by rewrite sendIfComplete_eq. Qed.

Lemma confirmation_executeTool b fc s :
  D.confirmation (D.executeTool b fc s) = D.confirmation s
  /\ D.tools (D.executeTool b fc s) = D.tools s.
Proof.
  unfold D.executeTool.
  destruct (D.strategyOf (FunctionCall.name fc));
    by rewrite ?confirmation_sendIfComplete, ?tools_sendIfComplete.
Qed.

Lemma confirmation_processCall now b user s fc :
  D.confirmation (D.processCall now b user s fc)
  = (if D.gated user fc then Some (D.confirmationFor b fc (D.tools s))
     else D.confirmation s)
  /\ D.tools (D.processCall now b user s fc) = D.tools s.
Proof.
  unfold D.processCall, D.gated.
  destruct (D.restricted user fc); [done|]. simpl.
  destruct (D.includes D.SENSITIVE_TOOLS (FunctionCall.name fc)); [done|].
  apply (confirmation_executeTool b fc (D.logTurn now _ s)).
Qed.

Lemma confirmation_fold now b user fcs :
  forall s,
    D.confirmation (fold_left (D.processCall now b user) fcs s)
    = match last (filter (fun fc => D.gated user fc = true) fcs) with
      | Some fc => Some (D.confirmationFor b fc (D.tools s))
      | None => D.confirmation s
      end.
Proof.
  induction fcs as [|fc fcs IH]; intros s; [done|].
  simpl fold_left. rewrite IH.
  destruct (confirmation_processCall now b user s fc) as [-> ->].
  rewrite filter_cons. destruct (decide (D.gated user fc = true)) as [E|E].
  - rewrite E, last_cons. by destruct (last _).
  - apply not_true_is_false in E. rewrite E. done.
Qed.

(** C2 (as stated, refuted): two sensitive calls arrive in one batch.  The
    gate shows the second one, not the first, and after the user has
    confirmed it and its executor has returned, nothing is pending and
    nothing executes: the first call was never presented and neither of its
    continuations will ever run. *)
Lemma second_confirmation_replaces_first :
  let batch := [ FunctionCall.mk "1" "send_gmail_message" "{}";
                 FunctionCall.mk "2" "send_whatsapp_message" "{}" ] in
  let s1 := D.run [ D.ToolCall 0 None batch ] (D.init []) in
  let s2 := D.run [ D.Confirm; D.Resolve 0 0 "OK" ] s1 in
  D.pendingOf 0 s1 = Some (FunctionCall.mk "2" "send_whatsapp_message" "{}")
  /\ D.confirmation s2 = None
  /\ (D.executing <$> D.invocations s2) = [[]]
  /\ D.executedBy 0 s2 = [FunctionCall.mk "2" "send_whatsapp_message" "{}"]
  /\ (D.functionResponses <$> D.invocations s2)
     = [[FunctionResponse.mk "2" "send_whatsapp_message" "OK"]].
Proof. vm_compute. done. Qed.

(** C2 (amended): the gate is a single slot without a queue.  A request
    replaces whatever is pending, so after a batch has been dispatched the
    pending confirmation is that of the last sensitive call of the batch
    that was not rejected (and the slot is untouched when there is none);
    pressing Confirm or Cancel leaves the slot empty; and no call is
    resolved twice: the entries already collected, the executions under way
    and the pending call together never exceed the calls of the batch. *)
Theorem confirmation_single_slot :
  (forall now user fcs s,
      D.confirmation (D.onToolCall now user fcs s)
      = match last (filter (fun fc => D.gated user fc = true) fcs) with
        | Some fc => Some (D.confirmationFor (length (D.invocations s)) fc (D.tools s))
        | None => D.confirmation s
        end)
  /\ (forall s, D.confirmation (D.step s D.Confirm) = None
                /\ D.confirmation (D.step s D.Cancel) = None)
  /\ (forall allTools pre now user fcs post,
        let s0 := D.run pre (D.init allTools) in
        let b := length (D.invocations s0) in
        let s := D.run post (D.onToolCall now user fcs s0) in
        exists inv,
          D.invocations s !! b = Some inv
          /\ (D.responseKey <$> D.functionResponses inv)
               ++ (D.callKey <$> (D.executing inv ++ option_list (D.pendingOf b s)))
             ⊆+ D.callKey <$> fcs).
Proof.
  split; [|split].
  - intros now user fcs s. unfold D.onToolCall. by rewrite confirmation_fold.
  - intros s. unfold D.step.
    destruct (D.confirmation s) as [c|] eqn:E; split; try reflexivity; exact E.
  - intros allTools pre now user fcs post s0 b s.
    destruct (batch_Good allTools pre now user fcs post) as (inv & Hinv & Htc & Hca & HG).
    fold s0 b s in Hinv, HG. exists inv. split; [done|].
    rewrite <- Htc. pose proof (g_acc _ _ _ _ _ HG) as H.
    by rewrite !app_nil_r in H.
Qed.

(** ** Administrator-restricted tools (C3) *)

(** C3 (as stated, refuted): without an authenticated user, and with a user
    that has no email, the guard does not fire: the restricted tool is
    executed and no restricted entry is produced. *)
Lemma restricted_tool_runs_without_email :
  let fc := FunctionCall.mk "7" "generate_video" "{}" in
  let anonymous := D.run [ D.ToolCall 0 None [fc] ] (D.init []) in
  let noEmail :=
    D.run [ D.ToolCall 0 (Some {| D.userId := "u1"; D.email := None |}) [fc] ]
      (D.init []) in
  D.executedBy 0 anonymous = [fc]
  /\ (D.functionResponses <$> D.invocations anonymous) = [[]]
  /\ D.executedBy 0 noEmail = [fc]
  /\ (D.functionResponses <$> D.invocations noEmail) = [[]].
Proof. vm_compute. done. Qed.

Lemma restricted_true u e fc :
  D.email u = Some e -> e <> "" -> e <> D.adminEmail ->
  FunctionCall.name fc ∈ D.ADMIN_ONLY_TOOLS ->
  D.restricted (Some u) fc = true.
Proof.
  intros He Hne Hadm Hin. unfold D.restricted, D.includes. rewrite He.
  rewrite (bool_decide_eq_false_2 (e = "")) by done.
  rewrite (bool_decide_eq_false_2 (e = D.adminEmail)) by done.
  by rewrite bool_decide_eq_true_2.
Qed.

(** C3 (amended): when the caller is a user with a non-empty email other
    than the administrator's, every call of a batch whose tool is
    administrator-restricted is answered with the restricted entry, is never
    handed to [executeTool] and never reaches the Confirmation Gate,
    whatever happens before and after the batch.  (A caller without user or
    without email is not rejected.) *)
Theorem restricted_call_rejected allTools pre now u e fcs post fc :
  D.email u = Some e -> e <> "" -> e <> D.adminEmail ->
  fc ∈ fcs -> FunctionCall.name fc ∈ D.ADMIN_ONLY_TOOLS ->
  let s0 := D.run pre (D.init allTools) in
  let b := length (D.invocations s0) in
  let s := D.run post (D.onToolCall now (Some u) fcs s0) in
  exists inv,
    D.invocations s !! b = Some inv
    /\ D.restrictedResponse fc ∈ D.functionResponses inv
    /\ (fc ∉ D.executedBy b s)
    /\ D.pendingOf b s <> Some fc.
Proof.
  intros He Hne Hadm Hin Hname s0 b s.
  pose proof (restricted_true u e fc He Hne Hadm Hname) as Hr.
  destruct (batch_Good allTools pre now (Some u) fcs post)
    as (inv & Hinv & Htc & Hca & HG).
  fold s0 b s in Hinv, HG. exists inv. split; [done|].
  rewrite <- Hca in Hr. rewrite <- Htc in Hin. split; [|split].
  - destruct (g_rej _ _ _ _ _ HG fc Hin Hr) as [H|H]; [|done].
    by apply elem_of_nil in H.
  - intros Hex. pose proof (g_exec _ _ _ _ _ HG fc Hex). congruence.
  - intros Hp. pose proof (g_conf _ _ _ _ _ HG fc Hp). congruence.
Qed.

Lemma restricted_call_rejected_witness :
  exists inv,
    D.invocations
      (D.run [ D.Resolve 0 0 "[]" ]
         (D.onToolCall 0 (Some {| D.userId := "u1"; D.email := Some "bob@example.com" |})
            [ FunctionCall.mk "1" "search_web" "{}";
              FunctionCall.mk "2" "generate_video" "{}" ]
            (D.run [] (D.init [])))) !! 0 = Some inv
    /\ D.restrictedResponse (FunctionCall.mk "2" "generate_video" "{}")
         ∈ D.functionResponses inv.
Proof.
  destruct (restricted_call_rejected [] [] 0
              {| D.userId := "u1"; D.email := Some "bob@example.com" |}
              "bob@example.com"
              [ FunctionCall.mk "1" "search_web" "{}";
                FunctionCall.mk "2" "generate_video" "{}" ]
              [ D.Resolve 0 0 "[]" ]
              (FunctionCall.mk "2" "generate_video" "{}"))
    as (inv & Hinv & Hresp & _).
  - reflexivity.
  - discriminate.
  - discriminate.
  - apply list_elem_of_further, list_elem_of_here.
  - apply list_elem_of_further, list_elem_of_here.
  - exists inv. split; [exact Hinv | exact Hresp].
Defined.

(** ** Keep-alive (C7) *)

(** C7 (as stated, refuted): the session is connected, microphone audio
    goes out after the first tick, and the second tick still sends the
    silent frame. *)
Lemma keep_alive_sent_despite_activity :
  let mic := {| KeepAlive.mimeType := "audio/pcm;rate=16000"; KeepAlive.data := "AQID" |} in
  KeepAlive.realtimeInputs
    (KeepAlive.run
       [ KeepAlive.StatusChange ClientStatus.connected; KeepAlive.SetConnected true;
         KeepAlive.Tick; KeepAlive.Outbound [mic]; KeepAlive.Tick ]
       KeepAlive.init)
  = [ [KeepAlive.silentInput]; [mic]; [KeepAlive.silentInput] ].
Proof. reflexivity. Qed.

Lemma KeepAlive_run_snoc events e s :
  KeepAlive.run (events ++ [e]) s = KeepAlive.step (KeepAlive.run events s) e.
Proof. unfold KeepAlive.run. by rewrite fold_left_app. Qed.

(** The interval is registered exactly while the hook is connected. *)
Lemma keepAlive_registered events :
  let s := KeepAlive.run events KeepAlive.init in
  KeepAlive.keepAliveIntervalRef s = None <-> KeepAlive.connected s = false.
Proof.
  induction events as [|e events IH] using rev_ind; [done|].
  rewrite KeepAlive_run_snoc. simpl in *.
  destruct e as [st|c| |inputs]; simpl.
  - done.
  - unfold KeepAlive.setConnected. case_bool_decide as E; [done|].
    destruct c; simpl; [split; discriminate | done].
  - destruct (KeepAlive.keepAliveIntervalRef _) eqn:E; [|by rewrite E].
    unfold KeepAlive.keepAlive.
    destruct (KeepAlive.status _); simpl; by rewrite ?E.
  - done.
Qed.

Lemma outbound_run activity :
  forall s,
    KeepAlive.realtimeInputs (KeepAlive.run (KeepAlive.Outbound <$> activity) s)
    = KeepAlive.realtimeInputs s ++ activity
    /\ KeepAlive.status (KeepAlive.run (KeepAlive.Outbound <$> activity) s)
       = KeepAlive.status s
    /\ KeepAlive.connected (KeepAlive.run (KeepAlive.Outbound <$> activity) s)
       = KeepAlive.connected s
    /\ KeepAlive.keepAliveIntervalRef (KeepAlive.run (KeepAlive.Outbound <$> activity) s)
       = KeepAlive.keepAliveIntervalRef s.
Proof.
  induction activity as [|inputs activity IH]; intros s.
  - simpl. by rewrite app_nil_r.
  - change (KeepAlive.run (KeepAlive.Outbound <$> inputs :: activity) s) with
      (KeepAlive.run (KeepAlive.Outbound <$> activity)
         (KeepAlive.sendRealtimeInput inputs s)).
    destruct (IH (KeepAlive.sendRealtimeInput inputs s)) as (-> & -> & -> & ->).
    simpl. by rewrite <- (assoc_L (++)).
Qed.

Lemma tick_realtimeInputs s :
  KeepAlive.realtimeInputs (KeepAlive.step s KeepAlive.Tick)
  = KeepAlive.realtimeInputs s ++ KeepAlive.tickOutput s.
Proof.
  unfold KeepAlive.tickOutput. simpl.
  destruct (KeepAlive.keepAliveIntervalRef s); [|by rewrite app_nil_r].
  unfold KeepAlive.keepAlive.
  destruct (KeepAlive.status s); simpl; by rewrite ?app_nil_r.
Qed.

(** C7 (amended): the keep-alive interval is registered exactly while the
    hook is connected, and at each tick the driver sends the silent frame
    (320 zero bytes of 16 kHz PCM, in base64) if and only if the interval is
    registered and the status of the client is connected: what else went
    out on the transport since the previous tick makes no difference, and
    nothing is sent when the session is not connected. *)
Theorem keep_alive_every_tick_while_connected (events : list KeepAlive.Event) :
  let s := KeepAlive.run events KeepAlive.init in
  (KeepAlive.keepAliveIntervalRef s = None <-> KeepAlive.connected s = false)
  /\ (forall activity,
        KeepAlive.realtimeInputs
          (KeepAlive.step (KeepAlive.run (KeepAlive.Outbound <$> activity) s)
             KeepAlive.Tick)
        = KeepAlive.realtimeInputs s ++ activity
            ++ (if KeepAlive.connected s then
                  match KeepAlive.status s with
                  | ClientStatus.connected => [[KeepAlive.silentInput]]
                  | _ => []
                  end
                else []))
  /\ KeepAlive.silentInput
     = {| KeepAlive.mimeType := "audio/pcm;rate=16000";
          KeepAlive.data := KeepAlive.btoa (replicate 320 0%N) |}
  /\ String.length (KeepAlive.data KeepAlive.silentInput) = 428.
Proof.
  intros s. pose proof (keepAlive_registered events) as Hreg. fold s in Hreg. simpl in Hreg.
  split; [done|]. split; [|split; [reflexivity | by vm_compute]].
  intros activity. rewrite tick_realtimeInputs.
  destruct (outbound_run activity s) as (-> & Hst & Hco & Href).
  rewrite <- (assoc_L (++)). f_equal. f_equal.
  unfold KeepAlive.tickOutput. rewrite Hst, Href.
  destruct Hreg as [Hreg1 Hreg2].
  destruct (KeepAlive.keepAliveIntervalRef s) as [i|] eqn:E.
  - destruct (KeepAlive.connected s); [done|]. by specialize (Hreg2 eq_refl).
  - by rewrite (Hreg1 eq_refl).
Qed.

(** ** Status polling (C9) *)

Lemma Poller_run_app toolName ev1 ev2 s :
  Poller.run toolName (ev1 ++ ev2) s = Poller.run toolName ev2 (Poller.run toolName ev1 s).
Proof. unfold Poller.run. by rewrite fold_left_app. Qed.

(** The state between two rounds of a run in which every request completes
    before the next tick. *)
Lemma inTurn_round toolName r s :
  Settled s -> Settled (Poller.reply toolName r (Poller.tick toolName s)).
Proof.
  destruct s as [a i w q sn st]. unfold Settled. simpl.
  intros (-> & -> & Hle & Hs). unfold Poller.tick.
  cbn [Poller.intervalId Poller.attempts].
  destruct i; [|done].
  cbn [negb]. destruct (Poller.maxAttempts <=? a) eqn:E; simpl.
  - by rewrite Hs.
  - apply Nat.leb_gt in E. unfold Poller.maxAttempts in *.
    unfold Poller.reply. cbn [Poller.waiting].
    destruct r as [| |[st'|] msg];
      [| |destruct (Poller.terminal (Some st'))|]; simpl;
      repeat split; first [lia | done | by rewrite Hs].
Qed.

Lemma inTurn_state toolName replies :
  Settled (Poller.run toolName (Poller.inTurn replies) Poller.init).
Proof.
  induction replies as [|r replies IH] using rev_ind.
  - unfold Settled, Poller.maxAttempts. simpl. repeat split; lia.
  - unfold Poller.inTurn in *. rewrite flat_map_app, Poller_run_app.
    by apply inTurn_round.
Qed.

(** When every request completes before the next tick, a run issues at
    most 15 requests and at most one notification; fifteen answers that are
    still pending lead, at the sixteenth tick, to the timeout notification
    and to the end of the run. *)
Lemma poller_bounded_in_turn toolName replies :
  let s := Poller.run toolName (Poller.inTurn replies) Poller.init in
  Poller.requests s <= Poller.maxAttempts /\ length (Poller.sent s) <= 1.
Proof.
  destruct (inTurn_state toolName replies) as (_ & _ & Hle & Hs). simpl.
  split; [done|]. destruct (Poller.intervalId _); rewrite Hs; simpl; lia.
Qed.

Lemma poller_timeout_in_turn :
  let s := Poller.run "post_on_linkedin"
             (Poller.inTurn (replicate 15 (Poller.Json (Some "pending") ""))
                ++ [Poller.Tick; Poller.Tick])
             Poller.init in
  Poller.requests s = 15
  /\ Poller.intervalId s = false
  /\ Poller.sent s = [Poller.timeoutMessage "post_on_linkedin"].
Proof. vm_compute. done. Qed.

(** C9 (the code departs from the specification): callbacks overlap when the status
    endpoint answers more slowly than the interval ticks, because
    [attempts] is incremented only after the [await].  With answers that
    take between one and two intervals (each arrives after the next tick),
    sixteen requests are issued, one more than [maxAttempts], before the
    timeout; and two requests under way that both report success produce
    two outcome notifications. *)
Theorem poller_overlapping_callbacks :
  (let s := Poller.run "post_on_linkedin"
              (Poller.Tick
                 :: flat_map (fun r => [Poller.Tick; Poller.Reply r])
                      (replicate 16 (Poller.Json (Some "pending") ""))
                 ++ [Poller.Tick])
              Poller.init in
   Poller.requests s = 16
   /\ Poller.sent s = [Poller.timeoutMessage "post_on_linkedin"])
  /\ Poller.sent
       (Poller.run "post_on_linkedin"
          [ Poller.Tick; Poller.Tick;
            Poller.Reply (Poller.Json (Some "success") "done");
            Poller.Reply (Poller.Json (Some "success") "done") ]
          Poller.init)
     = [ Poller.completedMessage "post_on_linkedin" "success" "done";
         Poller.completedMessage "post_on_linkedin" "success" "done" ].
Proof. vm_compute. done. Qed.

(** ** The tool store *)

Lemma find_name_Some toolName tools tool :
  ToolStore.findTool toolName tools = Some tool ->
  tool ∈ tools /\ ToolDefinition.name tool = toolName.
Proof.
  unfold ToolStore.findTool. intros H. apply find_some in H as [H1 H2].
  split; [by apply list_elem_of_In | by apply bool_decide_eq_true in H2].
Qed.


Lemma findTool_first toolName tools tool :
  tool ∈ tools -> ToolDefinition.name tool = toolName ->
  exists first, ToolStore.findTool toolName tools = Some first.
Proof.
  intros Hin Hname. unfold ToolStore.findTool.
  destruct (List.find _ tools) as [first|] eqn:E; [by eexists|].
  apply list_elem_of_In in Hin.
  pose proof (find_none _ _ E _ Hin) as H. simpl in H.
  by rewrite bool_decide_eq_true_2 in H.
Qed.





Lemma existsb_name tools n :
  existsb (fun tool => bool_decide (ToolDefinition.name tool = n)) tools = true
  <-> n ∈ ToolDefinition.name <$> tools.
Proof.
  rewrite existsb_exists, list_elem_of_fmap. split.
  - intros (tool & Hin & Hn). apply bool_decide_eq_true in Hn.
    exists tool. split; [done | by apply list_elem_of_In].
  - intros (tool & -> & Hin). exists tool.
    split; [by apply list_elem_of_In | by apply bool_decide_eq_true].
Qed.

Lemma candidate_inj i j : ToolStore.candidate i = ToolStore.candidate j -> i = j.
Proof.
  assert (forall k, ToolStore.candidate 0 <> ToolStore.candidate (S k)) as H0.
  { intros k H. unfold ToolStore.candidate in H.
    change "new_function" with ("new_function" +:+ "") in H.
    change ("new_function_" +:+ pretty (S k))
      with ("new_function" +:+ ("_" +:+ pretty (S k))) in H.
    apply (inj (String.append "new_function")) in H. discriminate. }
  destruct i as [|i], j as [|j]; intros H; [done | by apply H0 in H | by symmetry in H; apply H0 in H |].
  unfold ToolStore.candidate in H.
  apply (inj (String.append "new_function_")) in H.
  by apply (inj pretty) in H.
Qed.

(** When the loop gives up, every name it tried is taken. *)
Lemma newName_None tools fuel :
  forall j,
    ToolStore.newName fuel tools (ToolStore.candidate j) (S j) = None ->
    forall i, j <= i < j + fuel ->
              ToolStore.candidate i ∈ ToolDefinition.name <$> tools.
Proof.
  induction fuel as [|fuel IH]; intros j H i Hi; [lia|].
  simpl in H.
  destruct (existsb _ tools) eqn:E; [|done].
  destruct (decide (i = j)) as [->|Hne]; [by apply existsb_name|].
  apply (IH (S j)); [exact H | lia].
Qed.

Lemma newName_Some tools fuel :
  forall j n,
    ToolStore.newName fuel tools (ToolStore.candidate j) (S j) = Some n ->
    (n ∉ ToolDefinition.name <$> tools)
    /\ exists k, n = ToolStore.candidate k /\ j <= k < j + fuel
                 /\ forall i, j <= i < k ->
                              ToolStore.candidate i ∈ ToolDefinition.name <$> tools.
Proof.
  induction fuel as [|fuel IH]; intros j n H; [done|].
  simpl in H. destruct (existsb _ tools) eqn:E.
  - destruct (IH (S j) n H) as (Hfresh & k & -> & Hk & Hbelow).
    split; [done|]. exists k. split; [done|]. split; [lia|].
    intros i Hi. destruct (decide (i = j)) as [->|Hne]; [by apply existsb_name|].
    apply Hbelow. lia.
  - injection H as <-. split.
    + intros Hin. apply existsb_name in Hin. congruence.
    + exists j. split; [done|]. split; [lia|]. intros i Hi. lia.
Qed.

Lemma newName_total tools :
  exists n, ToolStore.newName (S (length tools)) tools "new_function" 1 = Some n.
Proof.
  destruct (ToolStore.newName (S (length tools)) tools "new_function" 1) as [n|] eqn:E;
    [by eexists|].
  exfalso.
  pose proof (newName_None tools (S (length tools)) 0 E) as Hall.
  assert (ToolStore.candidate <$> seq 0 (S (length tools))
          ⊆+ ToolDefinition.name <$> tools) as Hsub.
  { apply NoDup_submseteq.
    - apply NoDup_fmap_2; [|apply NoDup_seq]. intros i j. apply candidate_inj.
    - intros x Hx. apply list_elem_of_fmap in Hx as (i & -> & Hi).
      apply elem_of_seq in Hi. apply Hall. lia. }
  apply submseteq_length in Hsub. rewrite !length_fmap, length_seq in Hsub. lia.
Qed.

Lemma newName_more_fuel tools fuel extra :
  forall cur counter n,
    ToolStore.newName fuel tools cur counter = Some n ->
    ToolStore.newName (fuel + extra) tools cur counter = Some n.
Proof.
  induction fuel as [|fuel IH]; intros cur counter n H; [done|].
  simpl in *. destruct (existsb _ tools); [by apply IH | done].
Qed.

Lemma addTool_adds tools :
  exists k,
    ToolStore.addTool tools = tools ++ [ToolStore.blankTool (ToolStore.candidate k)]
    /\ (ToolStore.candidate k ∉ ToolDefinition.name <$> tools)
    /\ (forall i, i < k -> ToolStore.candidate i ∈ ToolDefinition.name <$> tools)
    /\ k <= length tools.
Proof.
  destruct (newName_total tools) as [n Hn].
  destruct (newName_Some tools _ 0 n Hn) as (Hfresh & k & -> & Hk & Hbelow).
  exists k. unfold ToolStore.addTool. rewrite Hn.
  split; [done|]. split; [done|]. split; [intros i Hi; apply Hbelow; lia|]. lia.
Qed.

(** X2: the loop of [addTool] ends within one test more than there are
    tools (more fuel changes nothing), and [addTool] appends exactly one
    tool, enabled, whose name is the first of new_function, new_function_1,
    new_function_2, ... that no tool bears. *)
Theorem addTool_fresh (tools : list ToolDefinition.t) :
  exists k,
    ToolStore.addTool tools = tools ++ [ToolStore.blankTool (ToolStore.candidate k)]
    /\ (ToolStore.candidate k ∉ ToolDefinition.name <$> tools)
    /\ (forall i, i < k -> ToolStore.candidate i ∈ ToolDefinition.name <$> tools)
    /\ k <= length tools
    /\ forall extra,
         ToolStore.newName (S (length tools) + extra) tools "new_function" 1
         = Some (ToolStore.candidate k).
Proof.
  destruct (newName_total tools) as [n Hn].
  destruct (newName_Some tools _ 0 n Hn) as (Hfresh & k & -> & Hk & Hbelow).
  exists k. unfold ToolStore.addTool. rewrite Hn.
  split; [done|]. split; [done|]. split; [intros i Hi; apply Hbelow; lia|].
  split; [lia|]. intros extra. by apply newName_more_fuel.
Qed.

Lemma names_fmap_same (f : ToolDefinition.t -> ToolDefinition.t) tools :
  (forall tool, ToolDefinition.name (f tool) = ToolDefinition.name tool) ->
  ToolDefinition.name <$> map f tools = ToolDefinition.name <$> tools.
Proof.
  intros Hf. induction tools as [|tool tools IH]; [done|].
  cbn [map]. rewrite !fmap_cons. by rewrite Hf, IH.
Qed.

Lemma toggleTool_names toolName tools :
  ToolDefinition.name <$> (ToolStore.toggleTool toolName tools).1
  = ToolDefinition.name <$> tools.
Proof.
  unfold ToolStore.toggleTool.
  destruct (_ && _ && _); [done|]. destruct (_ && _); cbn [fst].
  - by apply names_fmap_same.
  - apply names_fmap_same. intros tool. by destruct (bool_decide _).
Qed.

Lemma updateTool_names oldName updatedTool tools :
  NoDup (ToolDefinition.name <$> tools) ->
  NoDup (ToolDefinition.name <$> ToolStore.updateTool oldName updatedTool tools).
Proof.
  intros Hnd. unfold ToolStore.updateTool.
  destruct (negb (bool_decide (oldName = ToolDefinition.name updatedTool))) eqn:Hsame; simpl.
  - destruct (existsb _ tools) eqn:E; [done|].
    assert (ToolDefinition.name updatedTool ∉ ToolDefinition.name <$> tools) as Hfresh.
    { intros Hin. apply existsb_name in Hin. congruence. }
    clear E Hsame. induction tools as [|tool tools IH]; [constructor|].
    simpl in *. apply NoDup_cons in Hnd as [Hhd Hnd].
    apply not_elem_of_cons in Hfresh as [Hne Hfresh].
    specialize (IH Hnd Hfresh). apply NoDup_cons. split; [|done].
    intros Hin. apply list_elem_of_fmap in Hin as (x & Hx & Hin).
    apply list_elem_of_In, in_map_iff in Hin as (y & <- & Hy).
    apply list_elem_of_In in Hy.
    destruct (bool_decide (ToolDefinition.name tool = oldName)) eqn:E1;
      destruct (bool_decide (ToolDefinition.name y = oldName)) eqn:E2.
    + apply bool_decide_eq_true in E1, E2. apply Hhd.
      apply list_elem_of_fmap. exists y. split; [congruence | done].
    + apply Hfresh. apply list_elem_of_fmap. by exists y.
    + done.
    + apply Hhd. apply list_elem_of_fmap. by exists y.
  - apply negb_false_iff, bool_decide_eq_true in Hsame. subst oldName.
    rewrite names_fmap_same; [done|]. intros tool.
    case_bool_decide; done.
Qed.

(** X3: the names of the tools stay pairwise distinct under every
    operation of the tool editor (toggle, add, remove, update), in any
    order: [addTool] picks an unused name and [updateTool] refuses a change
    of name to a name in use. *)
Theorem tool_names_stay_distinct (events : list ToolStore.Event)
    (tools : list ToolDefinition.t) :
  NoDup (ToolDefinition.name <$> tools) ->
  NoDup (ToolDefinition.name <$> ToolStore.run events tools).
Proof.
  revert tools. induction events as [|e events IH]; intros tools Hnd; [done|].
  simpl. apply IH. clear IH.
  destruct e as [toolName| |toolName|oldName updatedTool]; simpl.
  - by rewrite toggleTool_names.
  - destruct (addTool_adds tools) as (k & -> & Hfresh & _).
    rewrite fmap_app. apply NoDup_app. split; [done|]. split.
    + intros x Hx Hin. apply list_elem_of_singleton in Hin. by subst x.
    + apply NoDup_singleton.
  - unfold ToolStore.removeTool.
    eapply sublist_NoDup; [exact Hnd | apply fmap_sublist, sublist_filter].
  - by apply updateTool_names.
Qed.

Lemma tool_names_stay_distinct_witness :
  NoDup (ToolDefinition.name <$>
           ToolStore.run
             [ ToolStore.AddTool; ToolStore.AddTool;
               ToolStore.UpdateTool "new_function_1"
                 (ToolDefinition.mk "new_function" None None true None None None None) ]
             []).
Proof. apply tool_names_stay_distinct. constructor. Defined.

(** ** Tokens *)


(** ** Dismissed tasks, and how writes compose *)

Lemma updateTask_ids i u tasks :
  BackgroundTask.id <$> Tasks.updateTask i u tasks = BackgroundTask.id <$> tasks.
Proof.
  unfold Tasks.updateTask. induction tasks as [|t tasks IH]; [done|].
  cbn [map]. rewrite !fmap_cons, IH. by destruct (bool_decide _).
Qed.

Lemma updateTask_absent i u tasks :
  (i ∉ BackgroundTask.id <$> tasks) -> Tasks.updateTask i u tasks = tasks.
Proof.
  unfold Tasks.updateTask. induction tasks as [|t tasks IH]; [done|].
  rewrite fmap_cons. intros [Hne Hnin]%not_elem_of_cons.
  cbn [map]. rewrite IH by done.
  by rewrite bool_decide_eq_false_2 by congruence.
Qed.

Lemma removeTask_absent i tasks : i ∉ BackgroundTask.id <$> Tasks.removeTask i tasks.
Proof.
  unfold Tasks.removeTask. intros Hin.
  apply list_elem_of_fmap in Hin as (t & -> & Hin).
  apply list_elem_of_filter in Hin as [Hne _]. done.
Qed.

(** X5: a write never adds, removes or reorders tasks, and once the user
    has dismissed a task it stays dismissed: whatever is written afterwards
    (to any identifiers) does not bring it back, and the writes of its own
    execution leave the store exactly as it is. *)
Theorem dismissed_task_stays_dismissed (i : string) (tasks : list BackgroundTask.t) :
  (forall writes,
      BackgroundTask.id <$> applyWrites writes tasks = BackgroundTask.id <$> tasks)
  /\ (forall writes,
      i ∉ BackgroundTask.id <$> applyWrites writes (Tasks.removeTask i tasks))
  /\ (forall updates,
      applyWrites ((fun u => (i, u)) <$> updates) (Tasks.removeTask i tasks)
      = Tasks.removeTask i tasks).
Proof.
  assert (forall writes ts,
             BackgroundTask.id <$> applyWrites writes ts = BackgroundTask.id <$> ts) as Hids.
  { induction writes as [|w writes IH]; intros ts; [done|].
    simpl. by rewrite IH, updateTask_ids. }
  split; [intros writes; apply Hids|]. split.
  - intros writes. rewrite Hids. apply removeTask_absent.
  - induction updates as [|u updates IH]; [done|].
    simpl. rewrite updateTask_absent by apply removeTask_absent. exact IH.
Qed.

Ltac decide_tests :=
  repeat (match goal with
          | H : ?P |- context [bool_decide ?P] => rewrite (bool_decide_eq_true_2 P H)
          | H : ¬ ?P |- context [bool_decide ?P] => rewrite (bool_decide_eq_false_2 P H)
          end; cbv iota; cbn [BackgroundTask.id Tasks.spread]).

Lemma spread_merge t u v :
  Tasks.spread (Tasks.spread t u) v = Tasks.spread t (mergeUpdates u v).
Proof.
  unfold Tasks.spread, mergeUpdates. simpl.
  destruct (BackgroundTask.setStatus v), (BackgroundTask.setProgress v),
    (BackgroundTask.setMessage v), (BackgroundTask.setResult v); simpl; try done;
    by destruct (BackgroundTask.setResult u).
Qed.

(** X6: two writes to the same task amount to one write in which the later
    value of each field wins (so the write of a failure keeps the progress
    reached), and writes to different tasks commute. *)
Theorem task_writes_compose (tasks : list BackgroundTask.t) :
  (forall i u v,
      Tasks.updateTask i v (Tasks.updateTask i u tasks)
      = Tasks.updateTask i (mergeUpdates u v) tasks)
  /\ (forall i j u v, i <> j ->
      Tasks.updateTask i u (Tasks.updateTask j v tasks)
      = Tasks.updateTask j v (Tasks.updateTask i u tasks)).
Proof.
  unfold Tasks.updateTask. split.
  - intros i u v. induction tasks as [|t tasks IH]; [done|].
    cbn [map]. rewrite IH. f_equal.
    destruct (decide (BackgroundTask.id t = i)) as [E|E]; decide_tests; [|done].
    apply spread_merge.
  - intros i j u v Hne. induction tasks as [|t tasks IH]; [done|].
    cbn [map]. rewrite IH. f_equal.
    destruct (decide (BackgroundTask.id t = i)) as [Ei|Ei];
      destruct (decide (BackgroundTask.id t = j)) as [Ej|Ej];
      [congruence|by decide_tests..].
Qed.

(** ** The ledger keeps its history *)

Lemma handleTranscription_streams r now txt final turns :
  Streams turns (Ledger.handleTranscription r now txt final turns).
Proof.
  unfold Ledger.handleTranscription.
  destruct turns as [|t0 l0 _] using rev_ind.
  - rewrite lastOf_nil. apply streams_add. by left.
  - rewrite lastOf_snoc.
    destruct (Ledger.continues r (Some t0)) eqn:E.
    + rewrite updateLastTurn_snoc. eapply streams_update; [done| |by right; eexists|by left].
      simpl in E. apply andb_true_iff in E as [_ E].
      by apply negb_true_iff in E.
    + apply streams_add. by left.
Qed.

Lemma handleContent_streams now c turns :
  Streams turns (Ledger.handleContent now c turns).
Proof.
  unfold Ledger.handleContent.
  destruct (bool_decide (Ledger.contentText c = "") && _); [apply streams_none|].
  destruct turns as [|t0 l0 _] using rev_ind.
  - rewrite lastOf_nil. apply streams_add. right. by eexists.
  - rewrite lastOf_snoc.
    destruct (Ledger.continues Ledger.agent (Some t0)) eqn:E.
    + rewrite updateLastTurn_snoc.
      eapply streams_update; [done| |by right; eexists|].
      * simpl in E. apply andb_true_iff in E as [_ E].
        by apply negb_true_iff in E.
      * cbn [Ledger.setGroundingChunks].
        destruct (Ledger.noChunks _); [by left|right; by eexists].
    + apply streams_add. right. by eexists.
Qed.

Lemma handleTurnComplete_streams turns :
  Streams turns (Ledger.handleTurnComplete turns).
Proof.
  destruct turns as [|t0 l0 _] using rev_ind; [apply streams_none|].
  rewrite handleTurnComplete_snoc.
  destruct (Ledger.isFinal t0) eqn:E; [apply streams_none|].
  eapply streams_update; [done|done|by left|by left].
Qed.

Lemma step_streams turns e : Streams turns (Ledger.step turns e).
Proof.
  destruct e; simpl.
  - apply handleTranscription_streams.
  - apply handleTranscription_streams.
  - apply handleContent_streams.
  - apply handleTurnComplete_streams.
  - apply streams_add. by left.
Qed.

Lemma Extends_refl t : Extends t t.
Proof.
  unfold Extends. repeat split; try done.
  - exists "". by rewrite append_empty_r.
  - exists []. by rewrite app_nil_r.
Qed.

Lemma Extends_trans t1 t2 t3 : Extends t1 t2 -> Extends t2 t3 -> Extends t1 t3.
Proof.
  intros (Ha1 & Ha2 & Ha3 & Ha4 & Ha5 & [m1 Ha6] & [g1 Ha7] & Ha8)
         (Hb1 & Hb2 & Hb3 & Hb4 & Hb5 & [m2 Hb6] & [g2 Hb7] & Hb8).
  unfold Extends.
  split; [congruence|]. split; [congruence|]. split; [congruence|].
  split; [congruence|]. split; [congruence|]. split; [|split].
  - exists (m1 +:+ m2). by rewrite Hb6, Ha6, append_assoc.
  - exists (g1 ++ g2). by rewrite Hb7, Ha7, app_assoc.
  - intros Hf. specialize (Ha8 Hf). subst t2. by apply Hb8.
Qed.

Lemma Extends_spread t u :
  Ledger.isFinal t = false ->
  Ledger.setText u = None
  \/ (exists txt, Ledger.setText u = Some (Ledger.text t +:+ txt)) ->
  Ledger.setGroundingChunks u = None
  \/ (exists c, Ledger.setGroundingChunks u
                = Some (default [] (Ledger.groundingChunks t)
                          ++ default [] (Ledger.contentChunks c))) ->
  Extends t (Ledger.spread t u).
Proof.
  intros Hopen Htxt Hg. unfold Extends, Ledger.spread. simpl.
  split; [done|]. split; [done|]. split; [done|]. split; [done|]. split; [done|].
  split; [|split].
  - destruct Htxt as [->|[txt ->]]; simpl.
    + exists "". by rewrite append_empty_r.
    + by exists txt.
  - destruct Hg as [->|[c ->]]; simpl.
    + exists []. by rewrite app_nil_r.
    + by eexists.
  - congruence.
Qed.

Lemma Streams_keeps turns turns' i t :
  Streams turns turns' -> turns !! i = Some t ->
  exists t', turns' !! i = Some t' /\ Extends t t'.
Proof.
  intros [|t0 _|l t0 u -> Hopen Htxt Hg] Hi.
  - exists t. split; [done|apply Extends_refl].
  - exists t. split; [by apply lookup_app_l_Some|apply Extends_refl].
  - destruct (decide (i < length l)) as [Hlt|Hge].
    + rewrite lookup_app_l in Hi by done.
      exists t. split; [by rewrite lookup_app_l|apply Extends_refl].
    + rewrite lookup_app_r in Hi by lia.
      destruct (i - length l) as [|k] eqn:Ek; [|by destruct k].
      simpl in Hi. injection Hi as <-.
      exists (Ledger.spread t0 u). split.
      * rewrite lookup_app_r by lia. by rewrite Ek.
      * by apply Extends_spread.
Qed.

(** X7: the ledger keeps its history.  Whatever events follow, a turn stays
    at its position with its timestamp, role, tool request, attachments and
    promotional flag; its text and its citations only grow at the end; and a
    turn that is final is never changed again. *)
Theorem ledger_keeps_history (events : list Ledger.Event)
    (turns : list Ledger.ConversationTurn) (i : nat) (t : Ledger.ConversationTurn) :
  turns !! i = Some t ->
  exists t', Ledger.run events turns !! i = Some t' /\ Extends t t'.
Proof.
  induction events as [|e events IH] using rev_ind; intros Hi.
  - exists t. split; [done|apply Extends_refl].
  - destruct (IH Hi) as (t1 & H1 & He1).
    rewrite run_snoc.
    destruct (Streams_keeps _ _ i t1 (step_streams (Ledger.run events turns) e) H1)
      as (t2 & H2 & He2).
    exists t2. split; [done|]. by eapply Extends_trans.
Qed.

Lemma ledger_keeps_history_witness :
  exists t',
    Ledger.run
      [Ledger.Content 5 {| Ledger.parts := Some [Some "there"];
                           Ledger.rawGroundingChunks := None |};
       Ledger.TurnComplete;
       Ledger.Content 9 {| Ledger.parts := Some [Some "again"];
                           Ledger.rawGroundingChunks := None |}]
      [Ledger.transcriptTurn Ledger.user "Hi" true 1;
       Ledger.transcriptTurn Ledger.agent "Hello " false 2] !! 1 = Some t'
    /\ Extends (Ledger.transcriptTurn Ledger.agent "Hello " false 2) t'.
Proof. apply ledger_keeps_history. reflexivity. Defined.

(** ** Citations *)

Lemma cleanChunk_valid c g : Ledger.cleanChunk c = Some g -> validChunk g.
Proof.
  unfold Ledger.cleanChunk, validChunk.
  destruct c as [[[u|] ti]|]; simpl; try done.
  case_bool_decide as Hu; simpl; [done|].
  intros [= <-]. simpl. split; [done|].
  destruct ti as [s|]; simpl; [|done].
  by case_bool_decide.
Qed.

Lemma contentChunks_valid c : Forall validChunk (default [] (Ledger.contentChunks c)).
Proof.
  unfold Ledger.contentChunks.
  destruct (Ledger.rawGroundingChunks c) as [raw|]; simpl; [|constructor].
  apply Forall_forall. intros g Hg.
  apply list_elem_of_omap in Hg as (r & _ & Hr). by eapply cleanChunk_valid.
Qed.

Lemma Streams_valid turns turns' :
  Streams turns turns' -> validCitations turns -> validCitations turns'.
Proof.
  intros [|t0 Hg0|l t0 u -> Hopen Htxt Hg] Hv; [done| |].
  - intros t g [Hin|Hin%list_elem_of_singleton]%elem_of_app Hg.
    + by eapply Hv.
    + subst t. destruct Hg0 as [Hn|[c Hc]]; [congruence|].
      pose proof (contentChunks_valid c) as Hc'.
      rewrite <- Hc, Hg in Hc'. exact Hc'.
  - intros t g [Hin|Hin%list_elem_of_singleton]%elem_of_app Hgt.
    + eapply Hv; [|done]. apply elem_of_app. by left.
    + subst t. unfold Ledger.spread in Hgt. simpl in Hgt.
      assert (Forall validChunk (default [] (Ledger.groundingChunks t0))) as Hold.
      { destruct (Ledger.groundingChunks t0) as [g0|] eqn:E0; [|constructor].
        eapply (Hv t0); [|done]. apply elem_of_app. right. by apply list_elem_of_singleton. }
      destruct Hg as [Hn|[c Hc]].
      * rewrite Hn in Hgt. rewrite Hgt in Hold. exact Hold.
      * rewrite Hc in Hgt. injection Hgt as <-.
        apply Forall_app. split; [done|apply contentChunks_valid].
Qed.

(** X8: every citation kept in the ledger can be shown.  If the citations of
    the turns of a ledger all have a non-empty link and a non-empty label,
    they still do after any events: the chunks of a server content without a
    [web.uri] are dropped and a missing title is replaced by the link. *)
Theorem ledger_citations_valid (events : list Ledger.Event)
    (turns : list Ledger.ConversationTurn) :
  validCitations turns -> validCitations (Ledger.run events turns).
Proof.
  intros Hv. induction events as [|e events IH] using rev_ind; [done|].
  rewrite run_snoc. eapply Streams_valid; [apply step_streams|done].
Qed.

Lemma ledger_citations_valid_witness :
  validCitations
    (Ledger.run
       [Ledger.Content 3
          {| Ledger.parts := Some [Some "See"];
             Ledger.rawGroundingChunks :=
               Some [Some {| Ledger.rawUri := Some "https://a.example";
                             Ledger.rawTitle := None |};
                     Some {| Ledger.rawUri := None; Ledger.rawTitle := Some "lost" |};
                     None] |}]
       [Ledger.transcriptTurn Ledger.user "Hi" true 1]).
Proof.
  apply ledger_citations_valid.
  intros t g Hin Hg. apply list_elem_of_singleton in Hin. subst t. discriminate Hg.
Defined.

(** ** The image to edit *)

Lemma find_Some_first {A} (p : A -> bool) xs x :
  List.find p xs = Some x ->
  exists pre post, xs = pre ++ x :: post /\ p x = true
                   /\ Forall (fun a => p a = false) pre.
Proof.
  induction xs as [|y xs IH]; [done|]. simpl.
  destruct (p y) eqn:E.
  - intros [= ->]. exists [], xs. by repeat split.
  - intros (pre & post & -> & Hp & Hpre)%IH.
    exists (y :: pre), post. repeat split; [done|]. by constructor.
Qed.

Lemma find_None_all {A} (p : A -> bool) xs x :
  List.find p xs = None -> x ∈ xs -> p x = false.
Proof.
  induction xs as [|y xs IH]; [by intros _ ?%elem_of_nil|]. simpl.
  destruct (p y) eqn:E; [done|].
  intros Hn [->|Hin]%elem_of_cons; [done|by apply IH].
Qed.

Lemma imageOf_None turn : ImageEditing.imageOf turn = None -> ~ hasImage turn.
Proof.
  unfold ImageEditing.imageOf. intros H (Hr & atts & att & Ha & Hin & Hi).
  rewrite bool_decide_eq_true_2, Ha in H by done.
  destruct atts as [|a atts]; [by apply elem_of_nil in Hin|].
  change (0 <? length (a :: atts)) with true in H. cbv iota in H.
  by rewrite (find_None_all _ _ _ H Hin) in Hi.
Qed.

Lemma imageOf_Some turn att :
  ImageEditing.imageOf turn = Some att ->
  Ledger.role turn = Ledger.user
  /\ exists pre post, Ledger.attachments turn = Some (pre ++ att :: post)
                      /\ ImageEditing.isImage att = true
                      /\ Forall (fun a => ImageEditing.isImage a = false) pre.
Proof.
  unfold ImageEditing.imageOf. case_bool_decide as Hr; [|done].
  destruct (Ledger.attachments turn) as [atts|]; [|done].
  destruct (0 <? length atts); [|done].
  intros (pre & post & -> & Hi & Hpre)%find_Some_first.
  split; [done|]. by exists pre, post.
Qed.

Lemma scan_spec backwards :
  match ImageEditing.scan backwards with
  | Some att =>
      exists later turn earlier,
        backwards = later ++ turn :: earlier
        /\ Forall (fun t => ~ hasImage t) later
        /\ ImageEditing.imageOf turn = Some att
  | None => Forall (fun t => ~ hasImage t) backwards
  end.
Proof.
  induction backwards as [|turn backwards IH]; [constructor|]. simpl.
  destruct (ImageEditing.imageOf turn) as [att|] eqn:E.
  - exists [], turn, backwards. by repeat split.
  - destruct (ImageEditing.scan backwards) as [att|].
    + destruct IH as (later & t & earlier & -> & Hl & Ht).
      exists (turn :: later), t, earlier. repeat split; [|done].
      constructor; [by apply imageOf_None|done].
    + constructor; [by apply imageOf_None|done].
Qed.

(** X9: the image that [edit_image] works on is the first image attachment
    of the most recent user turn that carries an image: no later turn is a
    user turn with an image, and no earlier attachment of that turn is an
    image.  The scan finds nothing exactly when no user turn of the ledger
    carries an image. *)
Theorem lastUserImage_most_recent (turns : list Ledger.ConversationTurn) :
  match ImageEditing.lastUserImage turns with
  | Some att =>
      exists before turn after,
        turns = before ++ turn :: after
        /\ Forall (fun t => ~ hasImage t) after
        /\ Ledger.role turn = Ledger.user
        /\ exists pre post,
             Ledger.attachments turn = Some (pre ++ att :: post)
             /\ ImageEditing.isImage att = true
             /\ Forall (fun a => ImageEditing.isImage a = false) pre
  | None => Forall (fun t => ~ hasImage t) turns
  end.
Proof.
  unfold ImageEditing.lastUserImage.
  pose proof (scan_spec (reverse turns)) as H.
  destruct (ImageEditing.scan (reverse turns)) as [att|].
  - destruct H as (later & turn & earlier & Hrev & Hl & Ht).
    apply imageOf_Some in Ht as [Hr Ha].
    exists (reverse earlier), turn, (reverse later). split; [|split; [|done]].
    + rewrite <- (reverse_involutive turns), Hrev.
      by rewrite reverse_app, reverse_cons, <- app_assoc.
    + by rewrite Forall_reverse.
  - by rewrite Forall_reverse in H.
Qed.

(** ** The text of the ledger *)

Lemma handleContent_text now c turns :
  Ledger.ledgerText (Ledger.handleContent now c turns)
  = Ledger.ledgerText turns +:+ Ledger.contentText c.
Proof.
  unfold Ledger.handleContent.
  destruct (bool_decide (Ledger.contentText c = "") && _) eqn:Ec.
  - apply andb_true_iff in Ec as [Ec%bool_decide_eq_true _].
    by rewrite Ec, append_empty_r.
  - clear Ec. destruct turns as [|t l _] using rev_ind.
    + rewrite lastOf_nil. unfold Ledger.addTurn.
      rewrite app_nil_l, ledgerText_singleton. done.
    + rewrite lastOf_snoc. destruct (Ledger.continues Ledger.agent (Some t)).
      * rewrite updateLastTurn_snoc, !ledgerText_app, !ledgerText_singleton.
        cbn [Ledger.spread Ledger.text Ledger.setText default from_option].
        by rewrite append_assoc.
      * unfold Ledger.addTurn.
        by rewrite (ledgerText_app (l ++ [t])), ledgerText_singleton.
Qed.

Lemma handleTurnComplete_text turns :
  Ledger.ledgerText (Ledger.handleTurnComplete turns) = Ledger.ledgerText turns.
Proof.
  destruct turns as [|t l _] using rev_ind; [done|].
  rewrite handleTurnComplete_snoc, !ledgerText_app, !ledgerText_singleton.
  by destruct (Ledger.isFinal t).
Qed.

Lemma step_text turns e :
  Ledger.ledgerText (Ledger.step turns e) = Ledger.ledgerText turns +:+ eventText e.
Proof.
  destruct e; simpl.
  - apply handleTranscription_text.
  - apply handleTranscription_text.
  - apply handleContent_text.
  - by rewrite handleTurnComplete_text, append_empty_r.
  - unfold Ledger.addTurn. by rewrite ledgerText_app, ledgerText_singleton.
Qed.

(** X17: no text is lost, repeated or moved.  After any events, of both
    transcripts, of the model content, of turn completion and of final turns
    in any interleaving, the texts of the turns of the ledger read in order
    are the texts they had before followed by the texts of the events in
    the order of their arrival. *)
Theorem ledger_text_is_event_text (events : list Ledger.Event)
    (turns : list Ledger.ConversationTurn) :
  Ledger.ledgerText (Ledger.run events turns)
  = Ledger.ledgerText turns +:+ eventsText events.
Proof.
  revert turns. induction events as [|e events IH]; intros turns.
  - simpl. by rewrite append_empty_r.
  - change (Ledger.run (e :: events) turns)
      with (Ledger.run events (Ledger.step turns e)).
    rewrite IH, step_text.
    change (eventsText (e :: events)) with (eventText e +:+ eventsText events).
    by rewrite append_assoc.
Qed.

(** ** The writes of a video job *)

Lemma videoFinish_outcome apiKey op : videoOutcome apiKey (Tasks.videoFinish apiKey op).
Proof.
  unfold Tasks.videoFinish, videoOutcome.
  destruct (Tasks.videoUri op) as [link|]; [|left; by eexists].
  case_bool_decide as E; simpl; [left; by eexists|].
  right. by exists link.
Qed.

Lemma videoPolling_shape apiKey polls :
  forall progress op,
    let us := Tasks.videoPolling apiKey progress op polls in
    Forall progressOnly (removelast us)
    /\ match last us with
       | Some u =>
           if existsb endsJob (Tasks.Returned op :: polls)
           then videoOutcome apiKey u else progressOnly u
       | None => existsb endsJob (Tasks.Returned op :: polls) = false
       end.
Proof.
  induction polls as [|r polls IH]; intros progress op; cbn [existsb endsJob].
  - simpl. destruct (Tasks.done op); simpl; [|done].
    split; [constructor|apply videoFinish_outcome].
  - cbn [Tasks.videoPolling]. destruct (Tasks.done op) eqn:Ed.
    + simpl. split; [constructor|apply videoFinish_outcome].
    + destruct r as [msg|op']; cbn [endsJob orb].
      * simpl. split; [constructor|]. left. by eexists.
      * specialize (IH (Z.min (progress + 15) 90) op').
        cbn zeta in IH. cbn [existsb endsJob] in IH. destruct IH as [IH1 IH2].
        set (rest := Tasks.videoPolling apiKey (Z.min (progress + 15) 90) op' polls) in *.
        cbn [orb].
        destruct rest as [|u rest]; cbn [removelast last].
        -- split; [constructor|]. simpl in IH2. by rewrite IH2.
        -- split.
           ++ constructor; [done|exact IH1].
           ++ exact IH2.
Qed.

(** X18: a video job writes a status once and last.  Every write of the job
    but the last one only reports progress; when the service has thrown or
    reported the operation done, the last write is the outcome (the failure
    with its reason, or the completion at progress 100 with the download
    link followed by the key), and nothing is written after it; otherwise
    the job is still waiting and has reported progress only. *)
Theorem video_status_written_last (apiKey : string) (start : Tasks.Reply)
    (polls : list Tasks.Reply) :
  let us := Tasks.videoUpdates apiKey start polls in
  Forall progressOnly (removelast us)
  /\ match last us with
     | Some u =>
         if existsb endsJob (start :: polls)
         then videoOutcome apiKey u else progressOnly u
     | None => existsb endsJob (start :: polls) = false
     end.
Proof.
  destruct start as [msg|op].
  - simpl. split; [constructor|]. left. by eexists.
  - apply videoPolling_shape.
Qed.

(** ** Contents that bring nothing *)

Lemma append_eq_self (s t : string) : s +:+ t = s -> t = "".
Proof.
  induction s as [|a s IH]; [done|].
  change (String a (s +:+ t) = String a s -> t = "").
  intros [= H]. by apply IH.
Qed.

Lemma append_nonempty (s t : string) : s <> "" -> s +:+ t <> "".
Proof. by destruct s. Qed.

Lemma join_nonempty xs :
  Forall (fun x => x <> "") xs -> Ledger.join xs = "" -> xs = [].
Proof.
  destruct xs as [|x xs]; [done|].
  intros [Hx _]%Forall_cons H. exfalso. revert H.
  destruct xs as [|y xs]; [done|]. by apply append_nonempty.
Qed.

Lemma omap_nil_Forall {A B} (f : A -> option B) xs :
  omap f xs = [] <-> Forall (fun x => f x = None) xs.
Proof.
  induction xs as [|x xs IH]; [by split; [constructor|]|].
  cbn [omap list_omap]. destruct (f x) eqn:E.
  - split; [done|]. intros [H _]%Forall_cons. congruence.
  - rewrite IH. split; [by constructor|by intros [_ H]%Forall_cons].
Qed.

Lemma skipped_iff (p : option string) :
  (if Ledger.truthy p then p else None) = None <-> Ledger.truthy p = false.
Proof.
  destruct (Ledger.truthy p) eqn:E; [|done].
  split; [|done]. intros ->. done.
Qed.

Lemma contentText_empty c :
  Ledger.contentText c = ""
  <-> Forall (fun p => Ledger.truthy p = false) (default [] (Ledger.parts c)).
Proof.
  unfold Ledger.contentText. destruct (Ledger.parts c) as [ps|]; simpl; [|by split].
  rewrite <- (Forall_iff _ ps _ skipped_iff), <- omap_nil_Forall.
  split; [|by intros ->].
  apply join_nonempty. apply Forall_forall. intros x Hx.
  apply list_elem_of_omap in Hx as (p & _ & Hp).
  destruct p as [s|]; simpl in Hp; [|done].
  case_bool_decide; simpl in Hp; [done|]. by injection Hp as <-.
Qed.

Lemma noChunks_contentChunks c :
  Ledger.noChunks (Ledger.contentChunks c) = true
  <-> Forall (fun r => Ledger.cleanChunk r = None)
        (default [] (Ledger.rawGroundingChunks c)).
Proof.
  unfold Ledger.contentChunks, Ledger.noChunks.
  destruct (Ledger.rawGroundingChunks c) as [raw|]; simpl; [|by split].
  rewrite <- omap_nil_Forall, Nat.eqb_eq. apply length_zero_iff_nil.
Qed.

Lemma handleContent_blank now c turns :
  blank c -> Ledger.handleContent now c turns = turns.
Proof.
  intros [Ht Hg]. unfold Ledger.handleContent.
  apply contentText_empty in Ht. apply noChunks_contentChunks in Hg.
  by rewrite Ht, Hg.
Qed.

Lemma handleContent_writes now c turns :
  Ledger.handleContent now c turns = turns ->
  bool_decide (Ledger.contentText c = "") && Ledger.noChunks (Ledger.contentChunks c) = true.
Proof.
  unfold Ledger.handleContent.
  destruct (bool_decide (Ledger.contentText c = "") && _) eqn:Ec; [done|].
  intros H. exfalso.
  destruct turns as [|t l _] using rev_ind.
  - rewrite lastOf_nil in H. discriminate H.
  - rewrite lastOf_snoc in H.
    destruct (Ledger.continues Ledger.agent (Some t)).
    + rewrite updateLastTurn_snoc in H. apply app_inv_head in H.
      injection H as H. apply andb_false_iff in Ec as [Ec|Ec].
      * apply bool_decide_eq_false in Ec. apply Ec.
        apply (append_eq_self (Ledger.text t)).
        by rewrite <- H at 2.
      * rewrite Ec in H.
        assert (Ledger.groundingChunks (Ledger.spread t
                  {| Ledger.setText := Some (Ledger.text t +:+ Ledger.contentText c);
                     Ledger.setIsFinal := None;
                     Ledger.setGroundingChunks :=
                       Some (default [] (Ledger.groundingChunks t)
                               ++ default [] (Ledger.contentChunks c)) |})
                = Ledger.groundingChunks t) as Hg by (by rewrite H).
        simpl in Hg.
        destruct (Ledger.contentChunks c) as [new|]; [|done].
        destruct (Ledger.groundingChunks t) as [old|]; [|done].
        injection Hg as Hg. simpl in Hg.
        apply (f_equal length) in Hg. rewrite length_app in Hg.
        simpl in Ec. apply Nat.eqb_neq in Ec. lia.
    + apply (f_equal length) in H. unfold Ledger.addTurn in H.
      rewrite !length_app in H. simpl in H. lia.
Qed.

(** X19: a server content leaves the ledger exactly as it is if and only if
    it brings nothing: none of its parts has a text that is not empty and
    none of its grounding chunks has a link.  Any other content adds a turn
    or changes the last one. *)
Theorem handleContent_unchanged_iff_blank (now : nat) (c : Ledger.LiveServerContent)
    (turns : list Ledger.ConversationTurn) :
  Ledger.handleContent now c turns = turns <-> blank c.
Proof.
  split; [|apply handleContent_blank].
  intros [Ht Hg]%handleContent_writes%andb_true_iff.
  apply bool_decide_eq_true in Ht.
  split; [by apply contentText_empty|by apply noChunks_contentChunks].
Qed.

(** ** The entries the dispatcher writes to the ledger *)






(** ** Batches of native tools *)

Lemma native_not_sensitive name :
  D.strategyOf name = D.NativeGemini -> D.includes D.SENSITIVE_TOOLS name = false.
Proof.
  intros H. apply bool_decide_eq_false. intros Hin.
  unfold D.SENSITIVE_TOOLS in Hin.
  repeat (apply elem_of_cons in Hin as [->|Hin]; [by vm_compute in H|]).
  by apply elem_of_nil in Hin.
Qed.

Lemma processCall_native now b user s fc :
  native user fc ->
  D.processCall now b user s fc
  = D.sendIfComplete b
      (D.push b (D.nativeResponse fc)
         (D.logExecution b fc (D.logTurn now (fun ts => triggerTurn ts fc) s))).
Proof.
  intros [Hr Hn]. unfold D.processCall, D.executeTool.
  by rewrite Hr, (native_not_sensitive _ Hn), Hn.
Qed.

Lemma native_loop now b user fcs todo :
  forall seen s,
    fcs = seen ++ todo -> todo <> [] -> Forall (native user) todo ->
    D.invocations s !! b
    = Some {| D.toolCall := fcs; D.caller := user;
              D.functionResponses := D.nativeResponse <$> seen;
              D.executing := [] |} ->
    D.sentBy b s = [] ->
    let s' := fold_left (D.processCall now b user) todo s in
    D.invocations s' !! b
    = Some {| D.toolCall := fcs; D.caller := user;
              D.functionResponses := D.nativeResponse <$> fcs;
              D.executing := [] |}
    /\ D.sentBy b s' = [D.nativeResponse <$> fcs]
    /\ D.confirmation s' = D.confirmation s.
Proof.
  induction todo as [|fc todo IH]; intros seen s Hfcs Hne Hnat Hinv Hsent; [done|].
  apply Forall_cons in Hnat as [Hfc Hnat].
  simpl fold_left. rewrite (processCall_native _ _ _ _ _ Hfc).
  set (s1 := D.push b (D.nativeResponse fc)
               (D.logExecution b fc (D.logTurn now (fun ts => triggerTurn ts fc) s))).
  assert (D.invocations s1 !! b
          = Some {| D.toolCall := fcs; D.caller := user;
                    D.functionResponses := D.nativeResponse <$> (seen ++ [fc]);
                    D.executing := [] |}) as Hinv1.
  { unfold s1. rewrite invocations_push.
    change (D.invocations (D.logExecution b fc (D.logTurn now (fun ts => triggerTurn ts fc) s)))
      with (D.invocations s).
    rewrite list_lookup_alter_eq, Hinv. simpl. by rewrite fmap_app. }
  assert (D.sentBy b s1 = []) as Hsent1 by exact Hsent.
  assert (D.confirmation (D.sendIfComplete b s1) = D.confirmation s) as Hconf
      by (by rewrite confirmation_sendIfComplete).
  destruct todo as [|fc' todo].
  - simpl. rewrite invocations_sendIfComplete, sentBy_sendIfComplete, Hinv1, Hsent1.
    rewrite bool_decide_eq_true_2 by done. cbn [D.functionResponses D.toolCall].
    subst fcs. by rewrite length_fmap, Nat.eqb_refl.
  - destruct (IH (seen ++ [fc]) (D.sendIfComplete b s1)) as (H1 & H2 & H3).
    + by rewrite <- app_assoc.
    + done.
    + done.
    + by rewrite invocations_sendIfComplete.
    + rewrite sentBy_sendIfComplete, Hinv1, Hsent1.
      rewrite bool_decide_eq_true_2 by done. cbn [D.functionResponses D.toolCall].
      replace (length (D.nativeResponse <$> seen ++ [fc]) =? length fcs) with false; [done|].
      symmetry. apply Nat.eqb_neq. subst fcs.
      rewrite length_fmap, !length_app. simpl. lia.
    + split; [exact H1|]. split; [exact H2|]. by rewrite H3.
Qed.

(** X11: a batch made only of native tools that are not rejected is answered
    within the tool-call event itself: when [onToolCall] returns, the one
    aggregate response of the batch has been sent, it holds the
    acknowledgement of each call in the order of the calls, nothing of the
    batch is left executing and the confirmation slot is untouched. *)
Theorem native_batch_answered_at_once (allTools : list D.Tool) (pre : list D.Event)
    (now : nat) (user : option D.User) (fcs : list FunctionCall.t) :
  fcs <> [] -> Forall (native user) fcs ->
  let s := D.run pre (D.init allTools) in
  let b := length (D.invocations s) in
  let s' := D.onToolCall now user fcs s in
  D.sentBy b s' = [D.nativeResponse <$> fcs]
  /\ D.invocations s' !! b
     = Some {| D.toolCall := fcs; D.caller := user;
               D.functionResponses := D.nativeResponse <$> fcs;
               D.executing := [] |}
  /\ D.confirmation s' = D.confirmation s.
Proof.
  intros Hne Hnat s b s'.
  pose proof (Inv_run allTools pre b) as Hb. fold s in Hb.
  rewrite (lookup_ge_None_2 (D.invocations s) b) in Hb by (unfold b; lia).
  destruct Hb as (_ & Hsent & _).
  destruct (native_loop now b user fcs fcs [] 
              (D.setInvocations
                 (fun invs => invs ++ [ {| D.toolCall := fcs; D.caller := user;
                                           D.functionResponses := [];
                                           D.executing := [] |} ]) s))
    as (H1 & H2 & H3); try done.
  simpl. unfold b. by rewrite lookup_app_r, Nat.sub_diag by lia.
Qed.

Lemma native_batch_answered_at_once_witness :
  let fcs := [ FunctionCall.mk "1" "summarize_text" "{}";
               FunctionCall.mk "2" "write_code_snippet" "{}" ] in
  let s' := D.onToolCall 7 None fcs (D.run [] (D.init [])) in
  D.sentBy 0 s' = [D.nativeResponse <$> fcs]
  /\ D.invocations s' !! 0
     = Some {| D.toolCall := fcs; D.caller := None;
               D.functionResponses := D.nativeResponse <$> fcs;
               D.executing := [] |}
  /\ D.confirmation s' = None.
Proof.
  intros fcs.
  apply (native_batch_answered_at_once [] [] 7 None fcs); [done|].
  repeat constructor.
Defined.

(** ** What Confirm and Cancel run *)

Lemma sensitive_awaits name :
  D.includes D.SENSITIVE_TOOLS name = true ->
  D.strategyOf name ∈ [D.SendGmail; D.SendWhatsApp; D.Webhook].
Proof.
  intros Hin%bool_decide_eq_true. unfold D.SENSITIVE_TOOLS in Hin.
  repeat (apply elem_of_cons in Hin as [->|Hin];
          [match goal with
           | |- ?x ∈ _ => let v := eval vm_compute in x in change x with v
           end; repeat constructor|]).
  by apply elem_of_nil in Hin.
Qed.

Lemma confirmation_resume b k s : D.confirmation (D.resume b k s) = D.confirmation s.
Proof. reflexivity. Qed.

Lemma PendingSensitive_step s e : PendingSensitive s -> PendingSensitive (D.step s e).
Proof.
  intros Hs c b fc Hc Hk.
  destruct e as [now user fcs|b' k result|b' k| | |config]; simpl in Hc.
  - unfold D.onToolCall in Hc. rewrite confirmation_fold in Hc.
    destruct (last (filter _ fcs)) as [fc'|] eqn:El.
    + injection Hc as <-. simpl in Hk. injection Hk as <- <-.
      apply last_Some in El as [l' El].
      assert (fc' ∈ filter (fun fc => D.gated user fc = true) fcs) as Hin.
      { rewrite El. apply elem_of_app. right. by apply list_elem_of_singleton. }
      apply list_elem_of_filter in Hin as [Hg _].
      unfold D.gated in Hg. by apply andb_true_iff in Hg as [_ Hg].
    + by eapply Hs.
  - destruct (_ ≫= _).
    + rewrite confirmation_sendIfComplete in Hc. by eapply Hs.
    + by eapply Hs.
  - by eapply Hs.
  - destruct (D.confirmation s) as [c0|] eqn:E; simpl in Hc; congruence.
  - destruct (D.confirmation s) as [c0|] eqn:E; simpl in Hc; congruence.
  - injection Hc as <-. discriminate Hk.
Qed.

Lemma PendingSensitive_run allTools events :
  PendingSensitive (D.run events (D.init allTools)).
Proof.
  induction events as [|e events IH] using rev_ind; [by intros c b fc|].
  rewrite D_run_snoc. by apply PendingSensitive_step.
Qed.

(** X12: only sensitive tools are ever pending at the gate on behalf of a
    tool call, so pressing Confirm never answers a call on the spot: it
    records the execution of the pending call, which then awaits its
    executor (Gmail, WhatsApp or a webhook), and empties the slot; pressing
    Cancel pushes the cancelled entry of that call, runs the completeness
    test and empties the slot. *)
Theorem confirm_starts_awaited_execution (allTools : list D.Tool)
    (events : list D.Event) (c : D.ConfirmationRequest) (b : nat) (fc : FunctionCall.t) :
  let s := D.run events (D.init allTools) in
  D.confirmation s = Some c -> D.continuation c = D.ToolCallK b fc ->
  D.includes D.SENSITIVE_TOOLS (FunctionCall.name fc) = true
  /\ D.strategyOf (FunctionCall.name fc) ∈ [D.SendGmail; D.SendWhatsApp; D.Webhook]
  /\ D.step s D.Confirm
     = D.clearConfirmation (D.suspend b fc (D.logExecution b fc s))
  /\ D.step s D.Cancel
     = D.clearConfirmation (D.sendIfComplete b (D.push b (D.cancelledResponse fc) s)).
Proof.
  intros s Hc Hk.
  pose proof (PendingSensitive_run allTools events c b fc Hc Hk) as Hsens.
  pose proof (sensitive_awaits _ Hsens) as Hst.
  split; [done|]. split; [done|]. split.
  - simpl. fold s. rewrite Hc, Hk. unfold D.executeTool.
    by repeat (apply elem_of_cons in Hst as [->|Hst]; [done|]);
      apply elem_of_nil in Hst.
  - simpl. fold s. by rewrite Hc, Hk.
Qed.

Lemma confirm_starts_awaited_execution_witness :
  let fc := FunctionCall.mk "1" "post_on_linkedin" "{}" in
  let s := D.run [D.ToolCall 3 None [fc]] (D.init []) in
  D.includes D.SENSITIVE_TOOLS (FunctionCall.name fc) = true
  /\ D.strategyOf (FunctionCall.name fc) ∈ [D.SendGmail; D.SendWhatsApp; D.Webhook]
  /\ D.step s D.Confirm
     = D.clearConfirmation (D.suspend 0 fc (D.logExecution 0 fc s))
  /\ D.step s D.Cancel
     = D.clearConfirmation (D.sendIfComplete 0 (D.push 0 (D.cancelledResponse fc) s)).
Proof.
  intros fc.
  apply (confirm_starts_awaited_execution [] [D.ToolCall 3 None [fc]]
           (D.confirmationFor 0 fc []) 0 fc); reflexivity.
Defined.

(** ** The outcome of a poll whose requests complete in turn *)

Lemma inTurn_cons r replies :
  Poller.inTurn (r :: replies) = Poller.Tick :: Poller.Reply r :: Poller.inTurn replies.
Proof. reflexivity. Qed.

Lemma poller_stopped toolName events s :
  Poller.intervalId s = false -> Poller.waiting s = 0 ->
  Poller.run toolName events s = s.
Proof.
  intros Hi Hw. induction events as [|e events IH]; [done|].
  change (Poller.run toolName (e :: events) s)
    with (Poller.run toolName events (Poller.step toolName s e)).
  assert (Poller.step toolName s e = s) as ->; [|exact IH].
  destruct e as [|r]; simpl.
  - unfold Poller.tick. by rewrite Hi.
  - unfold Poller.reply. by rewrite Hw.
Qed.

Lemma tick_polling toolName j :
  j < Poller.maxAttempts ->
  Poller.tick toolName (polling j)
  = {| Poller.attempts := j; Poller.intervalId := true; Poller.waiting := 1;
       Poller.requests := S j; Poller.snackbars := []; Poller.sent := [] |}.
Proof.
  intros Hj. unfold Poller.tick, polling.
  cbn [Poller.intervalId Poller.attempts negb].
  by rewrite (proj2 (Nat.leb_gt _ _) Hj).
Qed.

Lemma tick_timeout toolName :
  Poller.tick toolName (polling Poller.maxAttempts)
  = {| Poller.attempts := Poller.maxAttempts; Poller.intervalId := false;
       Poller.waiting := 0; Poller.requests := Poller.maxAttempts;
       Poller.snackbars := [("Tool '" +:+ toolName +:+ "' timed out.", Poller.error)];
       Poller.sent := [Poller.timeoutMessage toolName] |}.
Proof. reflexivity. Qed.

Lemma round_pending toolName j r :
  j < Poller.maxAttempts -> finished r = None ->
  Poller.reply toolName r (Poller.tick toolName (polling j)) = polling (S j).
Proof.
  intros Hj Hr. rewrite tick_polling by done.
  unfold Poller.reply, polling. cbn [Poller.waiting].
  destruct r as [| |[st|] msg]; try done.
  unfold finished in Hr. by destruct (Poller.terminal (Some st)).
Qed.

Lemma round_finished toolName j r st msg :
  j < Poller.maxAttempts -> finished r = Some (st, msg) ->
  let s := Poller.reply toolName r (Poller.tick toolName (polling j)) in
  Poller.intervalId s = false /\ Poller.waiting s = 0
  /\ Poller.sent s = [Poller.completedMessage toolName st msg]
  /\ Poller.requests s = S j.
Proof.
  intros Hj Hr. rewrite tick_polling by done.
  unfold Poller.reply. cbn [Poller.waiting].
  destruct r as [| |[st'|] msg']; try done.
  unfold finished in Hr. destruct (Poller.terminal (Some st')); [|done].
  by injection Hr as -> ->.
Qed.

Lemma poller_outcome_from toolName replies :
  forall j,
    j <= Poller.maxAttempts -> Poller.maxAttempts <= j + length replies ->
    let s := Poller.run toolName (Poller.inTurn replies ++ [Poller.Tick]) (polling j) in
    Poller.intervalId s = false /\ Poller.waiting s = 0
    /\ Poller.sent s = [notification toolName (Poller.maxAttempts - j) replies]
    /\ Poller.requests s = Nat.min Poller.maxAttempts (j + S (pendingPrefix replies)).
Proof.
  induction replies as [|r replies IH]; intros j Hj Hlen.
  - simpl in Hlen. assert (j = Poller.maxAttempts) as -> by lia.
    cbn [Poller.inTurn flat_map app Poller.run fold_left Poller.step].
    rewrite tick_timeout. by rewrite Nat.sub_diag.
  - rewrite inTurn_cons.
    cbn [app Poller.run fold_left Poller.step].
    change (fold_left (Poller.step toolName) ?ev ?s) with (Poller.run toolName ev s).
    destruct (decide (j = Poller.maxAttempts)) as [->|Hne].
    + rewrite tick_timeout.
      rewrite poller_stopped; [|done|done].
      unfold Poller.reply. cbn [Poller.waiting]. rewrite Nat.sub_diag.
      cbn [Poller.intervalId Poller.sent Poller.requests].
      split; [done|]. split; [done|]. split; [done|]. lia.
    + assert (j < Poller.maxAttempts) as Hlt by lia.
      destruct (finished r) as [[st msg]|] eqn:Hr.
      * destruct (round_finished toolName j r st msg Hlt Hr) as (Hi & Hw & Hs & Hq).
        rewrite poller_stopped by done.
        split; [done|]. split; [done|]. split.
        -- rewrite Hs. unfold notification.
           destruct (Poller.maxAttempts - j) as [|k] eqn:Ek; [lia|].
           cbn [take omap list_omap]. by rewrite Hr.
        -- rewrite Hq. cbn [pendingPrefix]. rewrite Hr. lia.
      * rewrite round_pending by done.
        simpl in Hlen.
        destruct (IH (S j)) as (Hi & Hw & Hs & Hq); [lia|lia|].
        split; [done|]. split; [done|]. split.
        -- rewrite Hs. unfold notification.
           replace (Poller.maxAttempts - j) with (S (Poller.maxAttempts - S j)) by lia.
           cbn [take omap list_omap]. by rewrite Hr.
        -- rewrite Hq. cbn [pendingPrefix]. rewrite Hr. lia.
Qed.

(** X13: when every status request completes before the next tick and the
    endpoint is asked as long as the poller wants, a poll ends with the
    interval cleared and exactly one notification sent to the session: the
    completion message of the first answer, among the first fifteen, whose
    status is present and not pending, or the timeout message when there is
    none.  The number of requests is the position of that answer, and
    fifteen on a timeout. *)
Theorem poller_in_turn_outcome (toolName : string) (replies : list Poller.FetchResult) :
  Poller.maxAttempts <= length replies ->
  let s := Poller.run toolName (Poller.inTurn replies ++ [Poller.Tick]) Poller.init in
  Poller.intervalId s = false /\ Poller.waiting s = 0
  /\ Poller.sent s = [notification toolName Poller.maxAttempts replies]
  /\ Poller.requests s = Nat.min Poller.maxAttempts (S (pendingPrefix replies)).
Proof.
  intros Hlen.
  destruct (poller_outcome_from toolName replies 0) as (Hi & Hw & Hs & Hq);
    [unfold Poller.maxAttempts; lia|lia|].
  rewrite Nat.sub_0_r in Hs. done.
Qed.

Lemma poller_in_turn_outcome_witness :
  let replies :=
    Poller.NotOk :: Poller.Json (Some "pending") "" :: Poller.Json (Some "failed") "quota"
      :: replicate 12 Poller.NetworkError in
  let s := Poller.run "place_call" (Poller.inTurn replies ++ [Poller.Tick]) Poller.init in
  Poller.intervalId s = false /\ Poller.waiting s = 0
  /\ Poller.sent s = [notification "place_call" Poller.maxAttempts replies]
  /\ Poller.requests s = Nat.min Poller.maxAttempts (S (pendingPrefix replies)).
Proof.
  intros replies. apply (poller_in_turn_outcome "place_call" replies).
  unfold Poller.maxAttempts. simpl. lia.
Defined.

(** ** Memory updates settle *)

Lemma updateOf_settles oldVal newVal :
  Memory.updateOf (default oldVal (Memory.updateOf oldVal newVal)) newVal = None.
Proof.
  unfold Memory.updateOf.
  destruct (Memory.hasMeaningfulUpdate oldVal newVal) eqn:E.
  - destruct newVal as [v|]; [|done]. simpl.
    rewrite (bool_decide_eq_true_2 (Memory.trim v = Memory.trim v)) by done.
    by rewrite !andb_false_r.
  - simpl. by rewrite E.
Qed.

Lemma updateOf_value oldVal newVal v :
  Memory.updateOf oldVal newVal = Some v ->
  newVal = Some v /\ v <> "" /\ Memory.trim v <> "" /\ Memory.trim oldVal <> Memory.trim v.
Proof.
  unfold Memory.updateOf.
  destruct (Memory.hasMeaningfulUpdate oldVal newVal) eqn:E; [|done].
  intros ->. simpl in E.
  apply andb_true_iff in E as [[E1 E2]%andb_true_iff E3].
  apply negb_true_iff, bool_decide_eq_false in E1, E2, E3. done.
Qed.

Lemma updateOf_keptOrLearned oldVal newVal :
  keptOrLearned oldVal newVal (default oldVal (Memory.updateOf oldVal newVal)).
Proof.
  destruct (Memory.updateOf oldVal newVal) as [v|] eqn:E; [|by left].
  apply updateOf_value in E as (-> & _ & H1 & H2). by right.
Qed.

(** X14: the memory settles on an analysis.  Applying the answer of the
    analysis model never changes the personality; each other field is kept
    or replaced by the answer's value for it, and replaced only when that
    value is not blank and differs from the field after trimming; and
    applying the same answer again writes nothing, so the memory is not
    saved and announced a second time. *)
Theorem memory_analysis_settles (result : Memory.Analysis) (m : Memory.MemoryData) :
  let m' := (Memory.applyAnalysis result m).1 in
  Memory.applyAnalysis result m' = (m', false)
  /\ Memory.personality m' = Memory.personality m
  /\ keptOrLearned (Memory.keyPeople m) (Memory.newKeyPeople result) (Memory.keyPeople m')
  /\ keptOrLearned (Memory.myBusiness m) (Memory.newMyBusiness result) (Memory.myBusiness m')
  /\ keptOrLearned (Memory.commsStyle m) (Memory.newCommsStyle result) (Memory.commsStyle m')
  /\ keptOrLearned (Memory.personalPrefs m) (Memory.newPersonalPrefs result)
       (Memory.personalPrefs m')
  /\ keptOrLearned (Memory.negativePrompt m) (Memory.newNegativePrompt result)
       (Memory.negativePrompt m').
Proof.
  cbv zeta. destruct (Memory.applyAnalysis result m) as [m1 written] eqn:Ea.
  cbn [fst]. unfold Memory.applyAnalysis in Ea.
  destruct (Memory.nonEmpty (Memory.updatesOf m result)) eqn:E;
    injection Ea as <- <-.
  - split.
    + unfold Memory.applyAnalysis, Memory.updatesOf, Memory.setMemory.
      cbn [Memory.keyPeople Memory.myBusiness Memory.commsStyle Memory.personalPrefs
           Memory.negativePrompt Memory.setKeyPeople Memory.setMyBusiness
           Memory.setCommsStyle Memory.setPersonalPrefs Memory.setNegativePrompt
           Memory.setPersonality].
      by rewrite !updateOf_settles.
    + split; [done|].
      repeat split; apply updateOf_keptOrLearned.
  - split.
    + unfold Memory.applyAnalysis. by rewrite E.
    + split; [done|]. repeat split; by left.
Qed.

(** ** Webhooks and the tool store *)

Lemma sessionContext_recent turns :
  length (Webhook.sessionContext turns) <= 20
  /\ exists earlier,
       (fun t => (Ledger.role t, Ledger.text t)) <$> turns
       = earlier ++ Webhook.sessionContext turns.
Proof.
  unfold Webhook.sessionContext. split.
  - rewrite length_fmap, length_drop. lia.
  - exists ((fun t => (Ledger.role t, Ledger.text t)) <$> take (length turns - 20) turns).
    by rewrite <- fmap_app, take_drop.
Qed.

(** X15: a webhook is posted only on behalf of a tool of the store that
    bears the name of the call, is enabled and has a webhook address.  An
    ordinary tool is posted the arguments of the call at its own address; a
    memory search needs a signed-in user, goes to the semantic-search
    function of the configured project, and carries the session context
    exactly when the tool is [recall_from_conversation]; that context is
    made of the last turns of the ledger, twenty at most. *)
Theorem webhook_posted_for_enabled_tool (allTools : list ToolDefinition.t)
    (supabaseUrl : option string) (user : option D.User)
    (turns : list Ledger.ConversationTurn) (fc : FunctionCall.t)
    (tool : ToolDefinition.t) (webhookUrl : string) (body : Webhook.Body) :
  Webhook.start allTools supabaseUrl user turns fc = Webhook.Posted tool webhookUrl body ->
  tool ∈ allTools /\ ToolDefinition.name tool = FunctionCall.name fc
  /\ ToolDefinition.isEnabled tool = true
  /\ Ledger.truthy (ToolDefinition.postWebhookUrl tool) = true
  /\ match body with
     | Webhook.Args args =>
         args = FunctionCall.args fc
         /\ ToolDefinition.postWebhookUrl tool = Some webhookUrl
     | Webhook.Search user_id args scope session_context =>
         (exists u, user = Some u /\ user_id = D.userId u)
         /\ args = FunctionCall.args fc
         /\ (exists projectRef,
               webhookUrl = "https://" +:+ projectRef
                              +:+ ".supabase.co/functions/v1/semantic-search")
         /\ (scope = Webhook.session <-> FunctionCall.name fc = "recall_from_conversation")
         /\ session_context
            = match scope with
              | Webhook.session => Some (Webhook.sessionContext turns)
              | Webhook.longTerm => None
              end
     end
  /\ length (Webhook.sessionContext turns) <= 20
  /\ exists earlier,
       (fun t => (Ledger.role t, Ledger.text t)) <$> turns
       = earlier ++ Webhook.sessionContext turns.
Proof.
  unfold Webhook.start.
  destruct (ToolStore.findTool _ allTools) as [t|] eqn:Hf; [|done].
  destruct (find_name_Some _ _ _ Hf) as [Hin Hname].
  destruct (ToolDefinition.isEnabled t) eqn:He; [|done].
  destruct (Ledger.truthy (ToolDefinition.postWebhookUrl t)) eqn:Hu; [|done].
  cbn [negb orb]. intros H.
  assert (forall P : Prop, P -> P /\ length (Webhook.sessionContext turns) <= 20
            /\ exists earlier,
                 (fun t => (Ledger.role t, Ledger.text t)) <$> turns
                 = earlier ++ Webhook.sessionContext turns) as Hctx.
  { intros P HP. split; [done|]. apply sessionContext_recent. }
  destruct (_ || _) in H.
  - destruct (_ || _) in H; [done|].
    destruct (_ !! 1) as [rest|] in H; [|done]. destruct user as [u|]; [|done].
    case_bool_decide as Hrecall; injection H as <- <- <-;
      (split; [done|]); (split; [done|]); (split; [done|]); (split; [done|]);
      apply Hctx; (split; [by exists u|]); (split; [done|]);
      (split; [by eexists|]); (split; [|done]).
    + split; [intros _; congruence|done].
    + split; [done|intros Hn; congruence].
  - injection H as <- <- <-.
    split; [done|]. split; [done|]. split; [done|]. split; [done|].
    apply Hctx. split; [done|].
    destruct (ToolDefinition.postWebhookUrl t); [done|discriminate Hu].
Qed.

Lemma webhook_posted_for_enabled_tool_witness :
  let recall := ToolDefinition.mk "recall_from_conversation" None None true None None
                  (Some "unused") None in
  let fc := FunctionCall.mk "1" "recall_from_conversation" "{}" in
  let turns := [Ledger.transcriptTurn Ledger.user "Hi" true 1] in
  let user := Some {| D.userId := "u1"; D.email := None |} in
  recall ∈ [recall] /\ ToolDefinition.name recall = FunctionCall.name fc
  /\ ToolDefinition.isEnabled recall = true
  /\ Ledger.truthy (ToolDefinition.postWebhookUrl recall) = true
  /\ ((exists u, user = Some u /\ "u1" = D.userId u)
      /\ "{}" = FunctionCall.args fc
      /\ (exists projectRef,
            "https://abc.supabase.co/functions/v1/semantic-search"
            = "https://" +:+ projectRef +:+ ".supabase.co/functions/v1/semantic-search")
      /\ (Webhook.session = Webhook.session
          <-> FunctionCall.name fc = "recall_from_conversation")
      /\ Some [(Ledger.user, "Hi")] = Some (Webhook.sessionContext turns))
  /\ length (Webhook.sessionContext turns) <= 20
  /\ exists earlier,
       (fun t => (Ledger.role t, Ledger.text t)) <$> turns
       = earlier ++ Webhook.sessionContext turns.
Proof.
  intros recall fc turns user.
  apply (webhook_posted_for_enabled_tool [recall] (Some "https://abc.supabase.co")
           user turns fc recall "https://abc.supabase.co/functions/v1/semantic-search"
           (Webhook.Search "u1" "{}" Webhook.session (Some [(Ledger.user, "Hi")]))).
  reflexivity.
Defined.


